(** * vandmc: rigid-body detector geometry and angular-distribution sampling

    A shallow embedding of [source/geometry.cpp] (classes [RegularPolygon] and
    [Primitive]) and of the [AngularDist] class of [source/vandmc_core.cpp].

    Numbers.  A C++ [double] is an IEEE 754 binary64 value; it is embedded as
    Rocq's primitive [float], whose operations are exactly the binary64
    operations (round to nearest even, infinities, NaN, signed zeros).  The
    embedding therefore assumes what the C++ code gets from an ordinary
    x86-64/AArch64 build: every [double] operation is rounded separately
    (no fused multiply-add contraction, no extended precision).  The only
    difference is that Rocq has a single NaN, which no comparison of the
    code can observe.

    The C library functions [std::sin] and [std::cos] are not part of the
    repository; they are parameters of the definitions that call them. *)

From Stdlib Require Import Floats ZArith List Bool Lia PeanoNat.
From Stdlib Require Uint63 Ascii String.
Import ListNotations.

Set Warnings "-inexact-float".
Local Open Scope float_scope.

(** ** Part I: the embedding *)

(** C++ comparison operators on [double] that the float library does not
    name: [a >= b] and [a > b]. *)
Definition geb (a b : float) : bool := b <=? a.
Definition gtb (a b : float) : bool := b <? a.

(** Constant globals of [vandmc_core.cpp]. *)
Definition pi : float := 3.1415926540.
Definition deg2rad : float := pi / 180.0.
Definition rad2deg : float := 180.0 / pi.

(** *** Vector3 *)

Module Vec.

(** Modelled from the spec: the [Vector3] value type is declared in the header
    [vandmc_core.hpp], which is not among the sources.  The spec describes it
    as "three real-valued components (x, y, z)" with "dot/cross product,
    normalization"; the operators used by the geometry code are the
    component-wise ones, evaluated left to right. *)
Record Vector3 : Type := mkVector3 { x : float; y : float; z : float }.

(** [Vector3()] *)
Definition zero : Vector3 := mkVector3 0 0 0.

(** [Vector3(x, y)]: the two-argument constructor leaves [axis[2]] at zero. *)
Definition mk2 (a b : float) : Vector3 := mkVector3 a b 0.

(** [operator +] *)
Definition add (a b : Vector3) : Vector3 :=
  mkVector3 (x a + x b) (y a + y b) (z a + z b).

(** [operator -] *)
Definition sub (a b : Vector3) : Vector3 :=
  mkVector3 (x a - x b) (y a - y b) (z a - z b).

(** [operator * (const double&)] and [operator *= (const double&)] *)
Definition scale (a : Vector3) (k : float) : Vector3 :=
  mkVector3 (x a * k) (y a * k) (z a * k).

(** [Vector3::Dot] *)
Definition Dot (a b : Vector3) : float :=
  x a * x b + y a * y b + z a * z b.

(** [Vector3::Length]: the distance of the point from the global origin. *)
Definition Length (a : Vector3) : float :=
  PrimFloat.sqrt (x a * x a + y a * y a + z a * z a).

End Vec.

Import Vec.

(** [Dist3d] of [vandmc_core.cpp] *)
Definition Dist3d (v1 v2 : Vector3) : float := Length (sub v2 v1).

(** *** RegularPolygon *)

Module Poly.

(** A line segment ([Line] of [vandmc_core.hpp]); [Initialize] below assigns
    [p1], [p2] and [dir] and leaves [length] as the default constructor set
    it. *)
Record Line : Type := mkLine { p1 : Vector3; p2 : Vector3; dir : Vector3; length : float }.

Record RegularPolygon : Type := mkPoly {
  nSides : Z;               (* unsigned int *)
  sector : float;
  radius : float;
  chord_length : float;
  lines : option (list Line);  (* NULL or the array of sides *)
  init : bool
}.

(** [RegularPolygon::RegularPolygon()] *)
Definition new : RegularPolygon := mkPoly 0 0 0 0 None false.

(** Conversion of an [unsigned int] to [double] (exact below 2^53). *)
Definition of_uint (n : Z) : float := of_uint63 (Uint63.of_Z n).

Section Libm.
Variables sin cos : float -> float.
(** What the default constructor of [Line] leaves in [length]. *)
Variable line_length0 : float.

(** The body of the loop over the sides: the state is the running angle
    [theta] and the sides built so far. *)
Fixpoint build_lines (n : nat) (radius sector theta : float) : list Line :=
  match n with
  | O => []
  | S n' =>
      let a := mkVector3 (radius * cos theta) (radius * sin theta) 0 in
      let theta' := theta + sector in
      let b := mkVector3 (radius * cos theta') (radius * sin theta') 0 in
      mkLine a b (sub b a) line_length0 :: build_lines n' radius sector theta'
  end.

(** [RegularPolygon::Initialize(radius_, nSides_)] *)
Definition Initialize (g : RegularPolygon) (radius_ : float) (nSides_ : Z)
  : bool * RegularPolygon :=
  if init g then (false, g)
  else
    let sector := 2.0 * pi / of_uint nSides_ in
    let radius := radius_ / cos (sector / 2.0) in
    let chord_length := 2.0 * radius * sin (sector / 2.0) in
    let lines := build_lines (Z.to_nat nSides_) radius sector (- sector / 2.0) in
    (true, mkPoly nSides_ sector radius chord_length (Some lines) true).

End Libm.

End Poly.

(** *** Primitive *)

Module Prim.

(** The fields of [Primitive] that the intersection code reads or writes.
    [GlobalFace] is the array [Vector3 GlobalFace[6]] of face centres. *)
Record Primitive : Type := mkPrimitive {
  position : Vector3;
  detX : Vector3;
  detY : Vector3;
  detZ : Vector3;
  length : float;
  width : float;
  depth : float;
  need_set : bool;
  GlobalFace : list Vector3;
  front_face : nat;
  back_face : nat
}.

(** [Primitive::Primitive()] ([position] and the six [GlobalFace] entries are
    default-constructed vectors). *)
Definition new : Primitive :=
  mkPrimitive zero (mkVector3 1.0 0.0 0.0) (mkVector3 0.0 1.0 0.0) (mkVector3 0.0 0.0 1.0)
    1.0 1.0 1.0 true (repeat zero 6) 0 2.

(** [Primitive::SetPosition(double, double, double)] *)
Definition SetPosition (p : Primitive) (a b c : float) : Primitive :=
  mkPrimitive (mkVector3 a b c) (detX p) (detY p) (detZ p)
    (length p) (width p) (depth p) true (GlobalFace p) (front_face p) (back_face p).

(** The [else] branch of [Primitive::SetSize]: an explicit size that is not
    one of the three named VANDLE bar sizes. *)
Definition SetSize_explicit (p : Primitive) (length_ width_ depth_ : float) : Primitive :=
  mkPrimitive (position p) (detX p) (detY p) (detZ p)
    length_ width_ depth_ true (GlobalFace p) (front_face p) (back_face p).

(** [Primitive::SetFrontFace] *)
Definition SetFrontFace (p : Primitive) (front_face_ : nat) : Primitive :=
  let set (back : nat) :=
    mkPrimitive (position p) (detX p) (detY p) (detZ p)
      (length p) (width p) (depth p) (need_set p) (GlobalFace p) front_face_ back in
  match front_face_ with
  | 0%nat => set 2%nat
  | 1%nat => set 3%nat
  | 2%nat => set 0%nat
  | 3%nat => set 1%nat
  | 4%nat => set 5%nat
  | 5%nat => set 4%nat
  | _ => p
  end.

(** [Primitive::_set_face_coords] *)
Definition _set_face_coords (p : Primitive) : Primitive :=
  let faces :=
    [ sub (position p) (scale (detZ p) (depth p / 2.0));   (* front *)
      add (position p) (scale (detX p) (width p / 2.0));   (* right *)
      add (position p) (scale (detZ p) (depth p / 2.0));   (* back *)
      sub (position p) (scale (detX p) (width p / 2.0));   (* left *)
      add (position p) (scale (detY p) (length p / 2.0));  (* top *)
      sub (position p) (scale (detY p) (length p / 2.0)) ] (* bottom *) in
  mkPrimitive (position p) (detX p) (detY p) (detZ p)
    (length p) (width p) (depth p) false faces (front_face p) (back_face p).

(** [if(need_set){ _set_face_coords(); }] *)
Definition refresh (p : Primitive) : Primitive :=
  if need_set p then _set_face_coords p else p.

(** [Primitive::GetUnitVector] *)
Definition GetUnitVector (p : Primitive) (face_ : nat) : Vector3 :=
  match face_ with
  | 0%nat => detZ p
  | 1%nat => detX p
  | 2%nat => scale (detZ p) (-1)
  | 3%nat => scale (detX p) (-1)
  | 4%nat => detY p
  | 5%nat => scale (detY p) (-1)
  | _ => mkVector3 0.0 0.0 0.0
  end.

(** [Primitive::GetLocalCoords] *)
Definition GetLocalCoords (p : Primitive) (world_coords : Vector3) : float * float * float :=
  let temp := sub world_coords (position p) in
  (Dot temp (detX p), Dot temp (detY p), Dot temp (detZ p)).

(** [Primitive::CheckBounds] *)
Definition CheckBounds (p : Primitive) (face_ : nat) (x_ y_ z_ : float) : bool :=
  match face_ with
  | 0%nat | 2%nat =>
      (geb x_ ((- width p) / 2.0) && (x_ <=? width p / 2.0)) &&
      (geb y_ ((- length p) / 2.0) && (y_ <=? length p / 2.0))
  | 1%nat | 3%nat =>
      (geb z_ ((- depth p) / 2.0) && (z_ <=? depth p / 2.0)) &&
      (geb y_ ((- length p) / 2.0) && (y_ <=? length p / 2.0))
  | 4%nat | 5%nat =>
      (geb x_ ((- width p) / 2.0) && (x_ <=? width p / 2.0)) &&
      (geb z_ ((- depth p) / 2.0) && (z_ <=? depth p / 2.0))
  | _ => false
  end.

(** [GlobalFace[face_]]; the callers only pass [face_ < 6] (an index past the
    array is undefined behaviour in the source and reads [zero] here). *)
Definition face_centre (p : Primitive) (face_ : nat) : Vector3 :=
  nth face_ (GlobalFace p) zero.

(** The ray parameter of the crossing of the plane of [face_]:
    [(GlobalFace[face_].Dot(unit)-offset_.Dot(unit))/(direction_.Dot(unit))]. *)
Definition plane_t (p : Primitive) (offset_ direction_ : Vector3) (face_ : nat) : float :=
  let unit := GetUnitVector p face_ in
  (Dot (face_centre p face_) unit - Dot offset_ unit) / Dot direction_ unit.

(** [Primitive::PlaneIntersect]: the primitive afterwards, the returned flag
    and the out-parameter [P]. *)
Definition PlaneIntersect (p : Primitive) (offset_ direction_ : Vector3) (face_ : nat)
  : Primitive * bool * Vector3 :=
  let p := refresh p in
  let t := plane_t p offset_ direction_ face_ in
  let P := add offset_ (scale direction_ t) in
  (p, geb t 0, P).

(** The out-parameters of [IntersectPrimitive] ([norm] is never written). *)
Record Hit : Type := mkHit {
  P1 : Vector3;
  P2 : Vector3;
  face1 : Z;   (* int *)
  face2 : Z;
  px : float;
  py : float;
  pz : float
}.

(** One iteration of the loop over the six faces; the loop state is the
    primitive, [face_count] and the out-parameters. *)
Definition face_iteration (offset_ direction_ : Vector3) (s : Primitive * nat * Hit) (i : nat)
  : Primitive * nat * Hit :=
  let '(p, face_count, h) := s in
  let '(p, crossed, ray) := PlaneIntersect p offset_ direction_ i in
  if crossed then
    let '(px2, py2, pz2) := GetLocalCoords p ray in
    if CheckBounds p i px2 py2 pz2 then
      let h :=
        match face_count with
        | 0%nat => mkHit ray (P2 h) (Z.of_nat i) (face2 h) px2 py2 pz2
        | 1%nat =>
            if Length ray <? Length (P1 h)
            then mkHit (P1 h) ray (face1 h) (Z.of_nat i) px2 py2 pz2
            else mkHit (P1 h) ray (face1 h) (Z.of_nat i) (px h) (py h) (pz h)
        | _ => h
        end in
      (p, S face_count, h)
    else (p, face_count, h)
  else (p, face_count, h).

(** The loop [for(unsigned int i = 0; i < 6; i++)]. *)
Definition face_loop (offset_ direction_ : Vector3) (p : Primitive) (h : Hit)
  : Primitive * nat * Hit :=
  fold_left (face_iteration offset_ direction_) (seq 0 6) (p, 0%nat, h).

(** [Primitive::IntersectPrimitive]: [h] holds the values of the
    out-parameters at the call. *)
Definition IntersectPrimitive (p : Primitive) (offset_ direction_ : Vector3) (h : Hit)
  : Primitive * Hit * bool :=
  let '(p, face_count, h) := face_loop offset_ direction_ (refresh p) h in
  (p, h, (0 <? face_count)%nat).

(** The overload of [IntersectPrimitive] with the eighth out-parameter
    [norm], whose body the loop above is: no statement of that body assigns
    [norm], so it comes back holding what the caller passed.  The overload
    without [norm] calls this one with a local [dummy] in its place. *)
Definition IntersectPrimitive_norm (p : Primitive) (offset_ direction_ : Vector3)
  (h : Hit) (norm : Vector3) : Primitive * Hit * Vector3 * bool :=
  let '(p, h, hit) := IntersectPrimitive p offset_ direction_ h in
  (p, h, norm, hit).

(** The out-parameters, but for [norm], and [norm] in what the overload
    with [norm] returns. *)
Definition hit_of (r : Primitive * Hit * Vector3 * bool) : Hit := snd (fst (fst r)).
Definition norm_of (r : Primitive * Hit * Vector3 * bool) : Vector3 := snd (fst r).

(** [Primitive::GetApparentThickness]; the out-parameters [intersect1] and
    [intersect2] come back with the result ([i1], [i2] are their values at
    the call). *)
Definition GetApparentThickness (p : Primitive) (offset_ direction_ : Vector3)
  (f1_ f2_ : nat) (i1 i2 : Vector3) : Primitive * float * Vector3 * Vector3 :=
  if ((5 <? f1_)%nat || (5 <? f2_)%nat)%bool then (p, -1, i1, i2)
  else
    let p := refresh p in
    let '(p, c1, i1) := PlaneIntersect p offset_ direction_ f1_ in
    if negb c1 then (p, -1, i1, i2)
    else
      let '(a, b, c) := GetLocalCoords p i1 in
      if negb (CheckBounds p f1_ a b c) then (p, -1, i1, i2)
      else
        let '(p, c2, i2) := PlaneIntersect p offset_ direction_ f2_ in
        if negb c2 then (p, -1, i1, i2)
        else
          let '(a, b, c) := GetLocalCoords p i2 in
          if negb (CheckBounds p f2_ a b c) then (p, -1, i1, i2)
          else (p, Dist3d i1 i2, i1, i2).

(** **** A declarative reading of the face loop *)

(** The point at which the ray crosses the plane of [face_]: the value
    [PlaneIntersect] leaves in its out-parameter [P]. *)
Definition crossing (p : Primitive) (offset_ direction_ : Vector3) (face_ : nat) : Vector3 :=
  add offset_ (scale direction_ (plane_t p offset_ direction_ face_)).

(** The point [P], taken to local coordinates, passes [CheckBounds]. *)
Definition in_bounds (p : Primitive) (face_ : nat) (P : Vector3) : bool :=
  let '(a, b, c) := GetLocalCoords p P in CheckBounds p face_ a b c.

(** A face is struck when the ray crosses its plane at a parameter [t >= 0]
    and the crossing point lies within the face's rectangular bounds. *)
Definition face_struck (p : Primitive) (offset_ direction_ : Vector3) (face_ : nat) : bool :=
  geb (plane_t p offset_ direction_ face_) 0 &&
  in_bounds p face_ (crossing p offset_ direction_ face_).

(** The faces struck, in the order of their identifiers. *)
Definition struck_faces (p : Primitive) (offset_ direction_ : Vector3) : list nat :=
  filter (face_struck p offset_ direction_) (seq 0 6).

(** What the loop body records for a face that is struck. *)
Definition record_face (p : Primitive) (offset_ direction_ : Vector3) (s : nat * Hit) (i : nat)
  : nat * Hit :=
  let '(face_count, h) := s in
  let ray := crossing p offset_ direction_ i in
  let '(px2, py2, pz2) := GetLocalCoords p ray in
  (S face_count,
   match face_count with
   | 0%nat => mkHit ray (P2 h) (Z.of_nat i) (face2 h) px2 py2 pz2
   | 1%nat =>
       if Length ray <? Length (P1 h)
       then mkHit (P1 h) ray (face1 h) (Z.of_nat i) px2 py2 pz2
       else mkHit (P1 h) ray (face1 h) (Z.of_nat i) (px h) (py h) (pz h)
   | _ => h
   end).

(** Equality of two vectors as [==] on doubles has it, component by
    component: a zero of either sign equals zero. *)
Definition same (a b : Vector3) : bool :=
  ((x a =? x b) && (y a =? y b) && (z a =? z b))%bool.

(** A primitive centred at the global origin whose local axes equal the
    global axes, with face coordinates that are current or due to be
    recomputed at the next query. *)
Definition centred_aligned (p : Primitive) : Prop :=
  same (position p) zero = true /\
  same (detX p) (mkVector3 1.0 0.0 0.0) = true /\
  same (detY p) (mkVector3 0.0 1.0 0.0) = true /\
  same (detZ p) (mkVector3 0.0 0.0 1.0) = true /\
  (need_set p = true \/ GlobalFace p = GlobalFace (_set_face_coords p)).

(** The ray parameters at which the axial ray meets the front and the back
    face, as the code computes them from the depth: [10 - depth/2] and
    [depth/2 + 10]. *)
Definition t_front (depth : float) : float := 0 - depth / 2.0 - (-10).
Definition t_back (depth : float) : float := - (- (0 + depth / 2.0) - 10).

(** The distance of the two points at which the axial ray meets the front
    and the back face, as [Dist3d] computes it from the depth. *)
Definition axial_distance (depth : float) : float :=
  let dz := (-10 + t_back depth) - (-10 + t_front depth) in
  PrimFloat.sqrt (dz * dz).

(** A coordinate [v] that lies on an end of the interval
    [[-extent/2, extent/2]] that [CheckBounds] tests it against, or inside
    it. *)
Inductive touches (extent v : float) : Prop :=
| at_upper : v = extent / 2.0 -> touches extent v
| at_lower : v = (- extent) / 2.0 -> touches extent v
| inside : geb v ((- extent) / 2.0) = true -> (v <=? extent / 2.0) = true -> touches extent v.

End Prim.

(** *** The scenario of the specification *)

(** The ray from [(0,0,-10)] along [+Z]. *)
Definition ray_origin : Vector3 := mkVector3 0 0 (-10).
Definition ray_direction : Vector3 := mkVector3 0 0 1.
(** Out-parameters as a caller may pass them. *)
Definition no_hit : Prim.Hit := Prim.mkHit zero zero (-1) (-1) 0 0 0.


(** *** AngularDist *)

Module ADist.

(** [unsigned int] arithmetic wraps at 2^32. *)
Definition uint (n : Z) : Z := (n mod 2 ^ 32)%Z.

(** Modelled from the spec: [Target::GetNumberDensity] belongs to a version of
    [materials.h] that is not among the sources; the spec speaks of "a
    target's number density".  A target is represented by the value that call
    returns. *)
Record Target : Type := mkTarget { GetNumberDensity : float }.

(** The fields of [AngularDist]; a pointer is [None] (NULL) or the array it
    points to. *)
Record AngularDist : Type := mkAngularDist {
  com_theta : option (list float);
  dsigma_domega : option (list float);
  integral : option (list float);
  reaction_xsection : float;
  rate : float;
  num_points : Z;    (* unsigned int *)
  init : bool
}.

(** [AngularDist::AngularDist()]: the constructor does not assign [rate];
    [rate0] is whatever the object's memory held. *)
Definition new (rate0 : float) : AngularDist :=
  mkAngularDist None None None 0.0 rate0 0 false.

(** [a[i] = v] on an array; a write past the end is undefined behaviour in
    the source and changes nothing here. *)
Fixpoint store (a : list float) (i : nat) (v : float) : list float :=
  match a, i with
  | [], _ => []
  | _ :: t, O => v :: t
  | h :: t, S i' => h :: store t i' v
  end.

(** [a[i]]; a read past the end (undefined behaviour in the source) gives 0. *)
Definition load (a : list float) (i : nat) : float := nth i a 0.

(** [p[i]] through a pointer field. *)
Definition deref (p : option (list float)) (i : nat) : float :=
  match p with Some a => load a i | None => 0 end.

(** The contents of a file as the read loop of [Initialize] sees them: the
    [(x, y)] pairs that [inFile >> x >> y] delivers before the stream reports
    end of file.  [None] is a file for which [inFile.good()] is false.  A
    file with a token that is not a number is not represented: on it the
    stream fails without ever reporting end of file, and the loop of the
    source does not end. *)
Definition File : Type := option (list (float * float)).

(** The loop [while(true){ inFile >> x >> y; if(inFile.eof()){ break; } ... }]:
    every pair is appended to [xvec] and [yvec] and counted in the member
    [num_points]. *)
Fixpoint read_loop (data : list (float * float)) (s : list float * list float * Z)
  : list float * list float * Z :=
  match data with
  | [] => s
  | (x, y) :: rest =>
      let '(xvec, yvec, n) := s in
      read_loop rest (xvec ++ [x], yvec ++ [y], uint (n + 1))
  end.

(** The loop copying [xvec], [yvec] into the arrays, [index] running from 0. *)
Fixpoint copy_loop (xvec yvec : list float) (index : nat) (s : list float * list float)
  : list float * list float :=
  match xvec, yvec with
  | xv :: xs, yv :: ys =>
      let '(theta, dsig) := s in
      copy_loop xs ys (S index) (store theta index (xv * deg2rad), store dsig index yv)
  | _, _ => s
  end.

(** The loop [for(unsigned int i = 0; i < num_points; i++)] of the array
    overload, with [k] iterations left. *)
Fixpoint fill_loop (angle_ xsection_ : list float) (k : nat) (i : nat)
  (s : list float * list float) : list float * list float :=
  match k with
  | O => s
  | S k' =>
      let '(theta, dsig) := s in
      fill_loop angle_ xsection_ k' (S i)
        (store theta i (load angle_ i * deg2rad), store dsig i (load xsection_ i))
  end.

Section Libm.
Variable sin : float -> float.
(** What the [k]-th array that a call allocates with [new double[n]] holds
    at each index before it is written: [new] does not initialise its
    elements. *)
Variable junk : nat -> nat -> float.

(** [new double[n]], for the [k]-th allocation of the call. *)
Definition alloc (k n : nat) : list float := map (junk k) (seq 0 n).

(** The loop [for(unsigned int i = 0; i < num_points-1; i++)] computing the
    reaction cross-section, with [k] iterations left; the state is
    [reaction_xsection] and the array [integral]. *)
Fixpoint integrate_loop (theta dsig : list float) (k : nat) (i : nat)
  (s : float * list float) : float * list float :=
  match k with
  | O => s
  | S k' =>
      let '(xsec, integ) := s in
      let x1 := load theta i in
      let y1 := load dsig i * sin x1 in
      let x2 := load theta (i + 1) in
      let y2 := load dsig (i + 1) * sin x2 in
      let xsec := xsec + 0.5 * (x2 - x1) * (y2 + y1) * 2 * pi in
      integrate_loop theta dsig k' (S i) (xsec, store integ (i + 1) xsec)
  end.

(** [AngularDist::Initialize(fname, beam_intensity, targ_)]: the overload that
    reads the distribution from a file. *)
Definition Initialize_file (a : AngularDist) (inFile : File)
  (beam_intensity : float) (targ_ : option Target) : bool * AngularDist :=
  if init a then (false, a)
  else
    match inFile with
    | None => (false, a)
    | Some data =>
        let '(xvec, yvec, n) := read_loop data ([], [], num_points a) in
        if (1 <? n)%Z then
          let '(theta, dsig) :=
            copy_loop xvec yvec 0 (alloc 0 (Z.to_nat n), alloc 1 (Z.to_nat n)) in
          let '(xsec, integ) :=
            integrate_loop theta dsig (Z.to_nat (uint (n - 1))) 0
              (0.0, store (alloc 2 (Z.to_nat n)) 0 0.0) in
          let rate :=
            match targ_ with
            | Some t => xsec * 1e-27 * beam_intensity * GetNumberDensity t
            | None => 0.0
            end in
          (true, mkAngularDist (Some theta) (Some dsig) (Some integ) xsec rate n true)
        else
          (false, mkAngularDist (com_theta a) (dsigma_domega a) (integral a)
                    (reaction_xsection a) (rate a) n (init a))
    end.

(** [AngularDist::Initialize(num_points_, angle_, xsection_, beam_intensity, targ_)]:
    the overload that takes the distribution from two arrays. *)
Definition Initialize_array (a : AngularDist) (num_points_ : Z) (angle_ xsection_ : list float)
  (beam_intensity : float) (targ_ : option Target) : bool * AngularDist :=
  if (init a || (num_points_ <=? 1)%Z)%bool then (false, a)
  else
    let n := num_points_ in
    let '(theta, dsig) :=
      fill_loop angle_ xsection_ (Z.to_nat n) 0
        (alloc 0 (Z.to_nat n), alloc 1 (Z.to_nat n)) in
    let '(xsec, integ) :=
      integrate_loop theta dsig (Z.to_nat (uint (n - 1))) 0
        (0.0, store (alloc 2 (Z.to_nat n)) 0 0.0) in
    let rate :=
      match targ_ with
      | Some t => xsec * beam_intensity * GetNumberDensity t
      | None => 0.0
      end in
    (true, mkAngularDist (Some theta) (Some dsig) (Some integ) xsec rate n true).

End Libm.

(** [AngularDist::Initialize(xsection_)]: the isotropic distribution. *)
Definition Initialize_iso (a : AngularDist) (xsection_ : float) : bool * AngularDist :=
  if (init a || (xsection_ <=? 0.0))%bool then (false, a)
  else
    (true, mkAngularDist (com_theta a) (dsigma_domega a) (integral a)
             xsection_ 0.0 (num_points a) true).

(** The search loop of [Sample], with [k] iterations left; [None] when the
    loop ends without returning. *)
Fixpoint search_loop (a : AngularDist) (rand_xsect : float) (k : nat) (i : nat) : option float :=
  match k with
  | O => None
  | S k' =>
      let lo := deref (integral a) i in
      let hi := deref (integral a) (i + 1) in
      if ((lo <=? rand_xsect) && (rand_xsect <=? hi))%bool then
        Some (deref (com_theta a) i
              + (rand_xsect - lo) * (deref (com_theta a) (i + 1) - deref (com_theta a) i)
                / (hi - lo))
      else search_loop a rand_xsect k' (S i)
  end.

(** [AngularDist::Sample]; [frand] is the value that the one call of
    [frand()] returns. *)
Definition Sample (a : AngularDist) (frand : float) : float :=
  if negb (init a) then -1
  else if (0 <? num_points a)%Z then
    match search_loop a (frand * reaction_xsection a)
            (Z.to_nat (uint (num_points a - 1))) 0 with
    | Some theta => theta
    | None => -1
    end
  else frand * pi.

End ADist.

(** *** Calls of the three [Initialize] overloads *)

Module Calls.
Import ADist.

(** One call of [AngularDist::Initialize] with its arguments ([junk] is what
    the arrays allocated by that call hold before they are written). *)
Inductive InitCall : Type :=
| InitFile (junk : nat -> nat -> float) (inFile : File) (beam_intensity : float) (targ_ : option Target)
| InitArray (junk : nat -> nat -> float) (num_points_ : Z) (angle_ xsection_ : list float)
    (beam_intensity : float) (targ_ : option Target)
| InitIso (xsection_ : float).

Definition call (sin : float -> float) (a : AngularDist) (c : InitCall) : bool * AngularDist :=
  match c with
  | InitFile junk f b t => Initialize_file sin junk a f b t
  | InitArray junk n an xs b t => Initialize_array sin junk a n an xs b t
  | InitIso x => Initialize_iso a x
  end.

(** The object after a sequence of calls that all returned false; [None] as
    soon as one of them returns true. *)
Fixpoint all_failed (sin : float -> float) (a : AngularDist) (cs : list InitCall)
  : option AngularDist :=
  match cs with
  | [] => Some a
  | c :: cs' =>
      let '(ok, a') := call sin a c in
      if ok then None else all_failed sin a' cs'
  end.

(** The object after a sequence of calls whose results are ignored. *)
Definition run (sin : float -> float) (a : AngularDist) (cs : list InitCall) : AngularDist :=
  fold_left (fun a c => snd (call sin a c)) cs a.

End Calls.

(** *** The trapezoidal rule, as the specification words it *)

Module Trapezoid.
Import ADist Calls.

Section Libm.
Variable sin : float -> float.

(** The contribution of bin [i]: [0.5*(theta_{i+1}-theta_i)*(y_{i+1}+y_i)*2*pi]
    with [y_i = dsigma_domega[i]*sin(theta_i)]. *)
Definition bin (theta dsig : list float) (i : nat) : float :=
  let y_i := load dsig i * sin (load theta i) in
  let y_i1 := load dsig (i + 1) * sin (load theta (i + 1)) in
  0.5 * (load theta (i + 1) - load theta i) * (y_i1 + y_i) * 2 * pi.

(** The sum of the bins [0 .. k-1], added in increasing order from 0. *)
Fixpoint partial_sum (theta dsig : list float) (k : nat) : float :=
  match k with
  | O => 0.0
  | S k' => partial_sum theta dsig k' + bin theta dsig k'
  end.

End Libm.

(** What a successfully loaded table looks like, in the words of the
    specification: the object counts the points of the table it was given,
    [n] of them, and its arrays hold [n] entries; each input angle has been
    converted from degrees to radians and each cross-section copied;
    [integral[0]] is 0, [integral[i+1]] is the sum of the bins up to bin
    [i], and the total reaction cross-section is the sum of all bins, which
    is also the last entry of [integral]. *)
Definition tabulated (sin : float -> float) (a : AngularDist) (angles xsections : list float) : Prop :=
  exists theta dsig integ,
    com_theta a = Some theta /\ dsigma_domega a = Some dsig /\ integral a = Some integ /\
    let n := Z.to_nat (num_points a) in
    List.length angles = n /\ List.length xsections = n /\
    List.length theta = n /\ List.length dsig = n /\ List.length integ = n /\
    (forall i, (i < n)%nat ->
       load theta i = load angles i * deg2rad /\ load dsig i = load xsections i) /\
    load integ 0 = 0 /\
    (forall i, (i + 1 < n)%nat -> load integ (i + 1) = partial_sum sin theta dsig (i + 1)) /\
    reaction_xsection a = partial_sum sin theta dsig (n - 1) /\
    load integ (n - 1) = reaction_xsection a.

(** The table a call of a tabulated overload is given: the pairs of the
    file, or the first [num_points_] entries of the two arrays. *)
Definition table_of (c : InitCall) : option (list float * list float) :=
  match c with
  | InitFile _ (Some data) _ _ => Some (map fst data, map snd data)
  | InitArray _ n angle_ xsection_ _ _ =>
      Some (firstn (Z.to_nat n) angle_, firstn (Z.to_nat n) xsection_)
  | _ => None
  end.

(** A call that starts with a clean count: the file overload, which counts
    the pairs it reads in the member [num_points] itself, finds that member
    at 0, where the constructor puts it; the array overload is given
    arrays of at least [num_points_] entries. *)
Definition clean_count (a : AngularDist) (c : InitCall) : Prop :=
  match c with
  | InitFile _ _ _ _ => num_points a = 0%Z
  | InitArray _ n angle_ xsection_ _ _ =>
      (Z.to_nat n <= List.length angle_)%nat /\ (Z.to_nat n <= List.length xsection_)%nat
  | InitIso _ => True
  end.

End Trapezoid.

(** *** Rays and line segments in the plane *)

Module Rays.

(** C++ [a != b] on [double]. *)
Definition neqb (a b : float) : bool := negb (a =? b).

(** A ray ([Ray] of [vandmc_core.hpp]): a starting point and a direction. *)
Record Ray : Type := mkRay { pos : Vector3; dir : Vector3 }.

(** [Ray::Ray(x1_, y1_, x2_, y2_)]: from [(x1_, y1_)] through [(x2_, y2_)]. *)
Definition through (x1_ y1_ x2_ y2_ : float) : Ray :=
  let pos := mk2 x1_ y1_ in
  let destination := mk2 x2_ y2_ in
  mkRay pos (sub destination pos).

(** [Ray::Ray(const Line&)] *)
Definition of_line (line_ : Poly.Line) : Ray :=
  mkRay (Poly.p1 line_) (sub (Poly.p2 line_) (Poly.p1 line_)).

(** [Line::Line(x1_, y1_, x2_, y2_)] *)
Definition segment (x1_ y1_ x2_ y2_ : float) : Poly.Line :=
  let p1 := mk2 x1_ y1_ in
  let p2 := mk2 x2_ y2_ in
  Poly.mkLine p1 p2 (sub p2 p1) (Length (sub p2 p1)).

(** [GetT1T2]: the returned flag and the out-parameters [t1], [t2]; the
    arguments [t1], [t2] are the values the callers' uninitialised locals
    hold at the call, which come back when no branch assigns them. *)
Definition GetT1T2 (p1_ d1_ p2_ d2_ : Vector3) (t1 t2 : float) : bool * float * float :=
  let V1 := sub p2_ p1_ in
  if (neqb (x d1_) 0 && neqb (y d1_) 0 && neqb (x d2_) 0 && neqb (y d2_) 0)%bool then
    let t2 := ((x d1_ / y d1_) * y V1 - x V1)
              * (1.0 / (x d2_ * (1.0 - x d1_ * y d2_ / (y d1_ * x d2_)))) in
    let t1 := (x V1 + x d2_ * t2) / x d1_ in
    (true, t1, t2)
  else if x d1_ =? 0 then
    let t2 := (x p1_ - x p2_) / x d2_ in
    let t1 := (y p2_ - y p1_ + y d2_ * t2) / y d1_ in
    (true, t1, t2)
  else if y d1_ =? 0 then
    let t2 := (y p1_ - y p2_) / y d2_ in
    let t1 := (y p2_ - y p1_ + x d2_ * t2) / x d1_ in
    (true, t1, t2)
  else if x d2_ =? 0 then
    let t1 := (x p2_ - x p2_) / x d1_ in
    let t2 := (y p1_ - y p2_ + y d1_ * t1) / y d2_ in
    (true, t1, t2)
  else if y d2_ =? 0 then
    let t1 := (y p2_ - y p2_) / y d1_ in
    let t2 := (x p1_ - x p2_ + x d1_ * t1) / x d2_ in
    (true, t1, t2)
  else (true, t1, t2).

(** [Ray::Intersect(const Ray&, Vector3&)]: the flag and the out-parameter
    [p] ([p0] is its value at the call). *)
Definition Ray_Intersect_Ray (r other_ : Ray) (t1 t2 : float) (p0 : Vector3) : bool * Vector3 :=
  let '(ok, t1, t2) := GetT1T2 (pos r) (dir r) (pos other_) (dir other_) t1 t2 in
  if ok then (geb t1 0.0 && geb t2 0.0, add (pos r) (scale (dir r) t1))%bool
  else (false, p0).

(** [Ray::Intersect(const Line&, Vector3&)] *)
Definition Ray_Intersect_Line (r : Ray) (line_ : Poly.Line) (t1 t2 : float) (p0 : Vector3)
  : bool * Vector3 :=
  let '(ok, t1, t2) := GetT1T2 (pos r) (dir r) (Poly.p1 line_) (Poly.dir line_) t1 t2 in
  if ok then (geb t1 0.0 && (geb t2 0.0 && (t2 <=? 1.0)), add (pos r) (scale (dir r) t1))%bool
  else (false, p0).

(** [Line::Intersect(const Line&, Vector3&)] *)
Definition Line_Intersect_Line (l other_ : Poly.Line) (t1 t2 : float) (p0 : Vector3)
  : bool * Vector3 :=
  let '(ok, t1, t2) := GetT1T2 (Poly.p1 l) (Poly.dir l) (Poly.p1 other_) (Poly.dir other_) t1 t2 in
  if ok then
    ((geb t1 0.0 && (t1 <=? 1.0)) && (geb t2 0.0 && (t2 <=? 1.0)),
     add (Poly.p1 l) (scale (Poly.dir l) t1))%bool
  else (false, p0).

(** [Line::Intersect(const Ray&, Vector3&)] *)
Definition Line_Intersect_Ray (l : Poly.Line) (ray_ : Ray) (t1 t2 : float) (p0 : Vector3)
  : bool * Vector3 :=
  let '(ok, t1, t2) := GetT1T2 (Poly.p1 l) (Poly.dir l) (pos ray_) (dir ray_) t1 t2 in
  if ok then
    ((geb t1 0.0 && (t1 <=? 1.0)) && geb t2 0.0, add (Poly.p1 l) (scale (Poly.dir l) t1))%bool
  else (false, p0).

(** The sides [lines[0 .. nSides-1]] that the loops of [RegularPolygon] visit
    (no side when [lines] is NULL; [Initialize] allocates exactly [nSides]
    of them, and an index past the array, undefined behaviour in the
    source, is not visited here). *)
Definition sides (g : Poly.RegularPolygon) : list Poly.Line :=
  match Poly.lines g with
  | Some ls => firstn (Z.to_nat (Poly.nSides g)) ls
  | None => []
  end.

(** [RegularPolygon::IsInside(x_, y_)]: [junk] gives, for each side, the
    values that the uninitialised locals [t1], [t2] of [Line::Intersect]
    hold; [intersects] is an [int]. *)
Definition IsInside (g : Poly.RegularPolygon) (junk : Poly.Line -> float * float)
  (x_ y_ : float) : bool :=
  let trace_ray := through x_ y_ (x_ + 1) y_ in
  let dummy_vector := zero in
  let intersects :=
    fold_left
      (fun (intersects : Z) (side : Poly.Line) =>
         if fst (Line_Intersect_Ray side trace_ray (fst (junk side)) (snd (junk side))
                   dummy_vector)
         then (intersects + 1)%Z else intersects)
      (sides g) 0%Z in
  negb (Z.rem intersects 2 =? 0)%Z.

End Rays.

(** *** Support functions of [vandmc_core.cpp] *)

Module Support.
Import Stdlib.Strings.Ascii Stdlib.Strings.String.

(** [IsInVector] *)
Fixpoint IsInVector (input_ : string) (str_vector_ : list string) : bool :=
  match str_vector_ with
  | [] => false
  | s :: rest => if String.eqb input_ s then true else IsInVector input_ rest
  end.

(** The characters at which [Parse] stops: a blank, a tab or a hash. *)
Definition stops (c : ascii) : bool :=
  (Ascii.eqb c " " || Ascii.eqb c "009" || Ascii.eqb c "#")%bool.

(** The loop of [Parse] over the characters not yet visited, [output] being
    the text collected so far. *)
Fixpoint Parse_loop (input output : string) : string :=
  match input with
  | EmptyString => output
  | String c rest =>
      if stops c then output else Parse_loop rest (output ++ String c EmptyString)
  end.

(** [Parse] (for a string of fewer than 2^32 characters, which the
    [unsigned int] counter of the source can index). *)
Definition Parse (input : string) : string := Parse_loop input EmptyString.

(** The loop [while(input_/output > 1.0){ output *= 10.0; }] of [Order];
    [fuel] bounds the number of times the condition is evaluated, and
    [None] says that the loop is still running when it is used up. *)
Fixpoint Order_up (fuel : nat) (input_ output : float) : option float :=
  match fuel with
  | O => None
  | S fuel' =>
      if gtb (input_ / output) 1.0 then Order_up fuel' input_ (output * 10.0)
      else Some output
  end.

(** The loop [while(input_/output < 1.0){ output = output/10.0; }]. *)
Fixpoint Order_down (fuel : nat) (input_ output : float) : option float :=
  match fuel with
  | O => None
  | S fuel' =>
      if input_ / output <? 1.0 then Order_down fuel' input_ (output / 10.0)
      else Some output
  end.

(** [Order] *)
Definition Order (fuel : nat) (input_ : float) : option float :=
  let output := 1.0 in
  if gtb input_ 1.0 then Order_up fuel input_ output
  else Order_down fuel input_ output.

(** [dabs] *)
Definition dabs (value : float) : float :=
  if value <? 0 then (-1.0) * value else value.

(** [min] *)
Definition min (v1 v2 : float) : float := if v1 <=? v2 then v1 else v2.

(** [max] *)
Definition max (v1 v2 : float) : float := if gtb v1 v2 then v1 else v2.

(** [Interpolate(x1, y1, x2, y2, x)] *)
Definition Interpolate (x1 y1 x2 y2 x : float) : float :=
  ((y2 - y1) / (x2 - x1)) * (x - x1) + y1.

(** The loop [for(size_t i = 1; i < len_; i++)] of the array overload of
    [Interpolate], with [k] iterations left; [None] when it ends without
    returning. *)
Fixpoint Interpolate_loop (x : float) (x_ y_ : list float) (k i : nat) : option float :=
  match k with
  | O => None
  | S k' =>
      if (geb x (ADist.load x_ (i - 1)) && (x <? ADist.load x_ i))%bool then
        Some (((ADist.load y_ i - ADist.load y_ (i - 1))
               / (ADist.load x_ i - ADist.load x_ (i - 1)))
              * (x - ADist.load x_ (i - 1)) + ADist.load y_ (i - 1))
      else Interpolate_loop x x_ y_ k' (S i)
  end.

(** [Interpolate(x, y, x_, y_, len_)]: the flag and the out-parameter [y]. *)
Definition Interpolate_array (x y : float) (x_ y_ : list float) (len_ : nat) : bool * float :=
  match Interpolate_loop x x_ y_ (len_ - 1) 1 with
  | Some v => (true, v)
  | None => (false, y)
  end.

End Support.

(** *** The kinematics table of [vandleSolidAngle.cpp] *)

Module Conv.

(** [comConverter]: three columns and their common length. *)
Record comConverter : Type := mkConv {
  com : list float;
  ejectLab : list float;
  recoilLab : list float;
  length : nat    (* size_t *)
}.

(** [comConverter::comConverter()] *)
Definition new : comConverter := mkConv [] [] [] 0.

(** The rows [file >> comVal >> ejectLabVal >> recoilLabVal] delivers before
    the stream reports end of file; [None] is a file that is not good. *)
Definition File3 : Type := option (list (float * float * float)).

(** [comConverter::load] *)
Definition load (c : comConverter) (file : File3) : bool * comConverter :=
  match file with
  | None => (false, mkConv [] [] [] 0)
  | Some rows =>
      let com := map (fun r => fst (fst r)) rows in
      (negb (List.length com =? 0)%nat,
       mkConv com (map (fun r => snd (fst r)) rows) (map snd rows) (List.length com))
  end.

(** [comConverter::convertEject2lab] *)
Definition convertEject2lab (c : comConverter) (com_ : float) : float :=
  let retval := -9999 in
  snd (Support.Interpolate_array com_ retval (com c) (ejectLab c) (length c)).

(** [comConverter::convertRecoil2lab] *)
Definition convertRecoil2lab (c : comConverter) (com_ : float) : float :=
  let retval := -9999 in
  snd (Support.Interpolate_array com_ retval (com c) (recoilLab c) (length c)).

End Conv.

(** *** Stand-ins for the C library in evaluated examples

    The theorems below hold for every function put in place of [std::sin]
    and [std::cos].  Where an example has to be evaluated, these Taylor
    polynomials (Horner form) are used; they are accurate to about 1e-13 on
    [0, pi/2]. *)
Definition sin_poly (x : float) : float :=
  let s := x * x in
  x * (1 - s / 6 * (1 - s / 20 * (1 - s / 42 * (1 - s / 72 * (1 - s / 110 *
      (1 - s / 156 * (1 - s / 210 * (1 - s / 272)))))))).

Definition cos_poly (x : float) : float :=
  let s := x * x in
  1 - s / 2 * (1 - s / 12 * (1 - s / 30 * (1 - s / 56 * (1 - s / 90 *
      (1 - s / 132 * (1 - s / 182 * (1 - s / 240))))))).

(** ** Part II: facts about binary64 arithmetic *)

Section Binary64.

(** *** Comparisons *)

Lemma SFcompare_antisym x y :
  SFcompare y x = option_map CompOpp (SFcompare x y).
Proof.
  destruct x as [sx|sx| |sx mx ex], y as [sy|sy| |sy my ey]; simpl; try reflexivity;
    try (destruct sx; reflexivity); try (destruct sy; reflexivity);
    try (destruct sx, sy; reflexivity).
  destruct sx, sy; simpl; try reflexivity.
  - rewrite (Z.compare_antisym ex ey). destruct (ex ?= ey)%Z; simpl; try reflexivity.
    change (PosDef.Pos.compare_cont Eq my mx) with (Pos.compare my mx).
    change (PosDef.Pos.compare_cont Eq mx my) with (Pos.compare mx my).
    rewrite (Pos.compare_antisym mx my), CompOpp_involutive. reflexivity.
  - rewrite (Z.compare_antisym ex ey). destruct (ex ?= ey)%Z; simpl; try reflexivity.
    change (PosDef.Pos.compare_cont Eq my mx) with (Pos.compare my mx).
    change (PosDef.Pos.compare_cont Eq mx my) with (Pos.compare mx my).
    rewrite (Pos.compare_antisym mx my). reflexivity.
Qed.

Lemma SFcompare_refl x : SFcompare x x = None \/ SFcompare x x = Some Eq.
Proof.
  destruct x as [s|s| |s m e]; simpl; auto.
  - destruct s; auto.
  - right. rewrite Z.compare_refl.
    change (PosDef.Pos.compare_cont Eq m m) with (Pos.compare m m).
    rewrite Pos.compare_refl. destruct s; reflexivity.
Qed.

(** [<] on doubles is irreflexive and asymmetric (NaN included). *)
Lemma ltb_irrefl x : (x <? x) = false.
Proof.
  rewrite ltb_spec. unfold SFltb. destruct (SFcompare_refl (Prim2SF x)) as [-> | ->]; reflexivity.
Qed.

Lemma ltb_asym x y : (x <? y) = true -> (y <? x) = false.
Proof.
  rewrite !ltb_spec. unfold SFltb. rewrite (SFcompare_antisym (Prim2SF x) (Prim2SF y)).
  destruct (SFcompare (Prim2SF x) (Prim2SF y)) as [[]|]; simpl; congruence.
Qed.

(** [<=] is reflexive on everything but NaN. *)
Lemma leb_refl x : Prim2SF x <> S754_nan -> (x <=? x) = true.
Proof.
  intros H. rewrite leb_spec. unfold SFleb.
  destruct (SFcompare_refl (Prim2SF x)) as [E | ->]; [|reflexivity].
  destruct (Prim2SF x) as [s|s| |s m e]; simpl in E; try congruence;
    destruct s; discriminate.
Qed.

(** *** Signs *)

(** A double that is zero, infinite or finite with the sign [s]. *)
Inductive signed_as (s : bool) : spec_float -> Prop :=
| sa_zero : signed_as s (S754_zero s)
| sa_inf : signed_as s (S754_infinity s)
| sa_fin m e : signed_as s (S754_finite s m e).

(** [0 <= x] says that [x] is a zero or carries the sign [+]. *)
Lemma nonneg_spec x :
  (0 <=? x) = true ->
  (exists s, Prim2SF x = S754_zero s) \/ Prim2SF x = S754_infinity false \/
  exists m e, Prim2SF x = S754_finite false m e.
Proof.
  rewrite leb_spec. change (Prim2SF 0) with (S754_zero false). unfold SFleb.
  destruct (Prim2SF x) as [s|s| |s m e]; simpl; try discriminate; eauto;
    destruct s; try discriminate; eauto.
Qed.

Lemma shr_1_nonneg mrs : (0 <= shr_m mrs)%Z -> (0 <= shr_m (shr_1 mrs))%Z.
Proof.
  destruct mrs as [m r s]; simpl. destruct m as [|[q|q|]|[q|q|]]; simpl; lia.
Qed.

Lemma iter_shr_1_nonneg p : forall mrs,
  (0 <= shr_m mrs)%Z -> (0 <= shr_m (SpecFloat.iter_pos shr_1 p mrs))%Z.
Proof.
  induction p as [p IH|p IH|]; intros mrs H; simpl.
  - apply IH, IH, shr_1_nonneg, H.
  - apply IH, IH, H.
  - apply shr_1_nonneg, H.
Qed.

Lemma shr_fexp_nonneg m e l :
  (0 <= m)%Z -> (0 <= shr_m (fst (shr_fexp prec emax m e l)))%Z.
Proof.
  intros H. unfold shr_fexp, shr.
  assert (H0 : (0 <= shr_m (shr_record_of_loc m l))%Z) by (destruct l as [|[]]; exact H).
  destruct (fexp prec emax (Zdigits2 m + e) - e)%Z; simpl; auto using iter_shr_1_nonneg.
Qed.

Lemma round_nearest_even_nonneg m l : (0 <= m)%Z -> (0 <= round_nearest_even m l)%Z.
Proof.
  intros H. destruct l as [|[]]; simpl; try lia. destruct (Z.even m); lia.
Qed.

(** Rounding a non-negative mantissa never produces a NaN and keeps the
    sign it is given. *)
Lemma binary_round_aux_signed s m e l :
  (0 <= m)%Z -> signed_as s (binary_round_aux prec emax s m e l).
Proof.
  intros H. unfold binary_round_aux.
  pose proof (shr_fexp_nonneg m e l H) as H1.
  destruct (shr_fexp prec emax m e l) as [mrs' e']. simpl in H1.
  pose proof (shr_fexp_nonneg _ e' loc_Exact
                (round_nearest_even_nonneg _ (loc_of_shr_record mrs') H1)) as H2.
  destruct (shr_fexp prec emax (round_nearest_even (shr_m mrs') (loc_of_shr_record mrs')) e' loc_Exact)
    as [mrs'' e''].
  simpl in H2. destruct (shr_m mrs'') as [|q|q]; try lia.
  - constructor.
  - destruct (e'' <=? emax - prec)%Z; constructor.
Qed.

Lemma binary_round_aux_opp s m e l :
  binary_round_aux prec emax (negb s) m e l = SFopp (binary_round_aux prec emax s m e l).
Proof.
  unfold binary_round_aux.
  destruct (shr_fexp prec emax m e l) as [mrs' e'].
  destruct (shr_fexp prec emax _ e' loc_Exact) as [mrs'' e''].
  destruct (shr_m mrs''); try reflexivity.
  destruct (e'' <=? emax - prec)%Z; reflexivity.
Qed.

(** [(-x)/y] is [-(x/y)], exactly. *)
Lemma div_opp_l x y : (- x) / y = - (x / y).
Proof.
  apply Prim2SF_inj. rewrite opp_spec, !div_spec, opp_spec.
  unfold SF64div, SFdiv.
  destruct (Prim2SF x) as [sx|sx| |sx mx ex], (Prim2SF y) as [sy|sy| |sy my ey]; simpl;
    try reflexivity; try (destruct sx, sy; reflexivity).
  destruct (SFdiv_core_binary prec emax (Z.pos mx) ex (Z.pos my) ey) as [[mz ez] lz].
  rewrite <- binary_round_aux_opp. destruct sx, sy; reflexivity.
Qed.

Lemma SFdiv_core_binary_nonneg mx ex my ey :
  (0 <= fst (fst (SFdiv_core_binary prec emax (Z.pos mx) ex (Z.pos my) ey)))%Z.
Proof.
  unfold SFdiv_core_binary.
  set (s := (ex - ey - _)%Z).
  set (m' := match s with Z.pos _ => Z.shiftl (Z.pos mx) s | Z0 => Z.pos mx | Z.neg _ => 0%Z end).
  assert (Hm : (0 <= m')%Z).
  { unfold m'. destruct s; try lia. apply Z.shiftl_nonneg. lia. }
  pose proof (Z_div_mod m' (Z.pos my) ltac:(lia)) as Hd.
  destruct (Z.div_eucl m' (Z.pos my)) as [q r]. simpl. nia.
Qed.

(** Half of a non-negative double is a non-negative double. *)
Lemma half_nonneg w : (0 <=? w) = true -> (0 <=? w / 2) = true.
Proof.
  intros H. apply nonneg_spec in H. rewrite leb_spec, div_spec.
  change (Prim2SF 0) with (S754_zero false).
  change (Prim2SF 2) with (S754_finite false 4503599627370496 (-51)).
  destruct H as [[s E] | [E | (m & e & E)]]; rewrite E; simpl.
  - destruct s; reflexivity.
  - reflexivity.
  - unfold SF64div, SFdiv.
    pose proof (SFdiv_core_binary_nonneg m e 4503599627370496 (-51)) as Hq.
    destruct (SFdiv_core_binary prec emax (Z.pos m) e 4503599627370496 (-51)) as [[mz ez] lz].
    simpl in Hq. destruct (binary_round_aux_signed false mz ez lz Hq); reflexivity.
Qed.

(** For a non-negative, non-NaN half extent [h]: [-h <= h], and both are
    within [[-h, h]]. *)
Lemma neg_le_self h : (0 <=? h) = true -> (- h <=? h) = true.
Proof.
  intros H. apply nonneg_spec in H. rewrite leb_spec, opp_spec.
  destruct H as [[s E] | [E | (m & e & E)]]; rewrite E; reflexivity.
Qed.

Lemma nonneg_not_nan h : (0 <=? h) = true -> Prim2SF h <> S754_nan.
Proof.
  intros H. apply nonneg_spec in H.
  destruct H as [[s E] | [E | (m & e & E)]]; rewrite E; discriminate.
Qed.

Lemma opp_not_nan h : Prim2SF h <> S754_nan -> Prim2SF (- h) <> S754_nan.
Proof. rewrite opp_spec. destruct (Prim2SF h); simpl; congruence. Qed.

End Binary64.

Section NonFinite.

(** *** Infinities and NaN *)

Definition SFnonfinite (x : spec_float) : bool :=
  match x with S754_nan | S754_infinity _ => true | _ => false end.

Lemma is_finite_spec x : is_finite x = negb (SFnonfinite (Prim2SF x)).
Proof.
  unfold is_finite, is_nan, is_infinity. rewrite !FloatAxioms.eqb_spec, abs_spec.
  change (Prim2SF infinity) with (S754_infinity false).
  destruct (Prim2SF x) as [s|s| |s m e]; try reflexivity.
  - destruct s; reflexivity.
  - unfold SFeqb. destruct (SFcompare_refl (S754_finite s m e)) as [E|E].
    + simpl in E. destruct s; discriminate.
    + rewrite E. reflexivity.
Qed.

Lemma eqb_zero_spec d : (d =? 0) = true -> exists s, Prim2SF d = S754_zero s.
Proof.
  rewrite FloatAxioms.eqb_spec. change (Prim2SF 0) with (S754_zero false). unfold SFeqb.
  destruct (Prim2SF d) as [s|s| |s m e]; simpl; try discriminate; eauto;
    destruct s; discriminate.
Qed.

(** A quotient by a zero is an infinity or NaN. *)
Lemma div_by_zero_nonfinite x d :
  (d =? 0) = true -> SFnonfinite (Prim2SF (x / d)) = true.
Proof.
  intros H. destruct (eqb_zero_spec d H) as [s E]. rewrite div_spec, E.
  destruct (Prim2SF x); reflexivity.
Qed.

(** Infinities and NaN are absorbing for [*], [+] and [-]. *)
Lemma mul_nonfinite_r x t :
  SFnonfinite (Prim2SF t) = true -> SFnonfinite (Prim2SF (x * t)) = true.
Proof.
  rewrite mul_spec. destruct (Prim2SF t), (Prim2SF x); simpl; congruence.
Qed.

Lemma mul_nonfinite_l x t :
  SFnonfinite (Prim2SF t) = true -> SFnonfinite (Prim2SF (t * x)) = true.
Proof.
  rewrite mul_spec. destruct (Prim2SF t), (Prim2SF x); simpl; congruence.
Qed.

Lemma add_nonfinite_r x t :
  SFnonfinite (Prim2SF t) = true -> SFnonfinite (Prim2SF (x + t)) = true.
Proof.
  rewrite add_spec. destruct (Prim2SF t) as [s|s| |s m e], (Prim2SF x) as [s'|s'| |s' m' e'];
    simpl; try congruence; destruct s', s; reflexivity.
Qed.

Lemma add_nonfinite_l x t :
  SFnonfinite (Prim2SF t) = true -> SFnonfinite (Prim2SF (t + x)) = true.
Proof.
  rewrite add_spec. destruct (Prim2SF t) as [s|s| |s m e], (Prim2SF x) as [s'|s'| |s' m' e'];
    simpl; try congruence; destruct s', s; reflexivity.
Qed.

Lemma sub_nonfinite_l x t :
  SFnonfinite (Prim2SF t) = true -> SFnonfinite (Prim2SF (t - x)) = true.
Proof.
  rewrite sub_spec. destruct (Prim2SF t) as [s|s| |s m e], (Prim2SF x) as [s'|s'| |s' m' e'];
    simpl; try congruence; destruct s', s; reflexivity.
Qed.

(** An infinity or NaN lies in no interval with finite ends. *)
Lemma nonfinite_out_of_bounds c lo hi :
  SFnonfinite (Prim2SF c) = true -> is_finite lo = true -> is_finite hi = true ->
  (geb c lo && (c <=? hi))%bool = false.
Proof.
  rewrite !is_finite_spec. unfold geb. rewrite !leb_spec. unfold SFleb.
  destruct (Prim2SF c) as [s|s| |s m e]; simpl; try discriminate; intros _.
  - destruct (Prim2SF lo) as [sl|sl| |sl ml el]; simpl; try discriminate; intros _;
      destruct (Prim2SF hi) as [sh|sh| |sh mh eh]; simpl; try discriminate; intros _;
      destruct s; reflexivity.
  - destruct (Prim2SF lo) as [sl|sl| |sl ml el]; simpl; try discriminate; reflexivity.
Qed.

Lemma opp_finite x : is_finite x = true -> is_finite (- x) = true.
Proof.
  rewrite !is_finite_spec, opp_spec. destruct (Prim2SF x); simpl; congruence.
Qed.

End NonFinite.

Section Rounding.

(** *** Digits, shifts and exact rounding *)
Lemma digits2_pos_log2 p : Z.pos (digits2_pos p) = (Z.log2 (Z.pos p) + 1)%Z.
Proof.
  induction p as [p IH|p IH|]; simpl digits2_pos; try reflexivity.
  - rewrite Pos2Z.inj_succ, IH.
    change (Z.pos p~1) with (2 * Z.pos p + 1)%Z.
    rewrite Z.log2_succ_double by lia. lia.
  - rewrite Pos2Z.inj_succ, IH.
    change (Z.pos p~0) with (2 * Z.pos p)%Z.
    rewrite Z.log2_double by lia. lia.
Qed.

Lemma Zdigits2_log2 m : (0 < m)%Z -> Zdigits2 m = (Z.log2 m + 1)%Z.
Proof. destruct m; try lia. intros _. apply digits2_pos_log2. Qed.

Lemma iter_pos_swap {A} (f : A -> A) p : forall x,
  SpecFloat.iter_pos f p (f x) = f (SpecFloat.iter_pos f p x).
Proof.
  induction p as [p IH|p IH|]; intros x; simpl; rewrite ?IH; reflexivity.
Qed.

Lemma iter_pos_succ {A} (f : A -> A) p x :
  SpecFloat.iter_pos f (Pos.succ p) x = f (SpecFloat.iter_pos f p x).
Proof.
  revert x. induction p as [p IH|p IH|]; intros x; simpl.
  - rewrite !IH. rewrite !iter_pos_swap. reflexivity.
  - rewrite !iter_pos_swap. reflexivity.
  - reflexivity.
Qed.

(** [shr_1] halves a non-negative mantissa. *)
Lemma shr_1_m mrs : (0 <= shr_m mrs)%Z -> shr_m (shr_1 mrs) = Z.div2 (shr_m mrs).
Proof.
  destruct mrs as [m r s]; simpl. destruct m as [|[q|q|]|q]; simpl; try reflexivity; lia.
Qed.

Lemma iter_shr_1_m p : forall mrs, (0 <= shr_m mrs)%Z ->
  shr_m (SpecFloat.iter_pos shr_1 p mrs) = Z.shiftr (shr_m mrs) (Z.pos p).
Proof.
  induction p as [|p IH] using Pos.peano_ind; intros mrs H.
  - simpl SpecFloat.iter_pos. rewrite shr_1_m by exact H. rewrite Z.div2_spec. reflexivity.
  - rewrite iter_pos_succ. rewrite shr_1_m.
    + rewrite IH by exact H. rewrite Z.div2_spec, Z.shiftr_shiftr by lia. f_equal. lia.
    + rewrite IH by exact H. apply Z.shiftr_nonneg. exact H.
Qed.

Lemma shr_1_double m :
  (0 <= m)%Z ->
  shr_1 (Build_shr_record (2 * m) false false) = Build_shr_record m false false.
Proof. destruct m as [|q|q]; try lia; reflexivity. Qed.

Lemma iter_shr_1_exact p : forall m, (0 <= m)%Z ->
  SpecFloat.iter_pos shr_1 p (Build_shr_record (m * 2 ^ Z.pos p) false false)
  = Build_shr_record m false false.
Proof.
  induction p as [|p IH] using Pos.peano_ind; intros m H.
  - replace (m * 2 ^ 1)%Z with (2 * m)%Z by lia. cbn [SpecFloat.iter_pos].
    apply shr_1_double, H.
  - rewrite iter_pos_succ, <- iter_pos_swap.
    replace (m * 2 ^ Z.pos (Pos.succ p))%Z with (2 * (m * 2 ^ Z.pos p))%Z.
    + rewrite shr_1_double by (apply Z.mul_nonneg_nonneg; [exact H | apply Z.pow_nonneg; lia]).
      apply IH, H.
    + rewrite Pos2Z.inj_succ, Z.pow_succ_r by lia. lia.
Qed.

Lemma bounded_spec m e :
  bounded prec emax m e = true ->
  fexp prec emax (Z.pos (digits2_pos m) + e) = e /\ (e <= emax - prec)%Z.
Proof.
  unfold bounded, canonical_mantissa. intros H. apply andb_true_iff in H.
  destruct H as [H1 H2]. apply Z.eqb_eq in H1. apply Z.leb_le in H2. auto.
Qed.

(** Rounding a value that is representable gives the value back: the
    mantissa [m * 2^k] at exponent [e - k] rounds to [(m, e)] when [(m, e)]
    is a valid binary64 mantissa and exponent. *)
Lemma binary_round_aux_exact s m e k :
  bounded prec emax m e = true -> (0 <= k)%Z ->
  binary_round_aux prec emax s (Z.pos m * 2 ^ k) (e - k) loc_Exact = S754_finite s m e.
Proof.
  intros Hb Hk. destruct (bounded_spec m e Hb) as [Hc He].
  assert (Hd : Zdigits2 (Z.pos m * 2 ^ k) = (Z.pos (digits2_pos m) + k)%Z).
  { rewrite Zdigits2_log2 by (apply Z.mul_pos_pos; [lia | apply Z.pow_pos_nonneg; lia]).
    rewrite Z.log2_mul_pow2 by lia. rewrite digits2_pos_log2. lia. }
  unfold binary_round_aux.
  assert (H1 : shr_fexp prec emax (Z.pos m * 2 ^ k) (e - k) loc_Exact
               = (Build_shr_record (Z.pos m) false false, e)).
  { unfold shr_fexp. rewrite Hd.
    replace (Z.pos (digits2_pos m) + k + (e - k))%Z with (Z.pos (digits2_pos m) + e)%Z by lia.
    rewrite Hc. replace (e - (e - k))%Z with k by lia.
    unfold shr, shr_record_of_loc. destruct k as [|k|k]; try lia.
    - rewrite Z.mul_1_r, Z.sub_0_r. reflexivity.
    - rewrite iter_shr_1_exact by lia. f_equal. lia. }
  rewrite H1. cbn [shr_m loc_of_shr_record round_nearest_even].
  assert (H2 : shr_fexp prec emax (Z.pos m) e loc_Exact
               = (Build_shr_record (Z.pos m) false false, e)).
  { unfold shr_fexp. cbn [Zdigits2]. rewrite Hc, Z.sub_diag. reflexivity. }
  rewrite H2. cbn [shr_m]. apply Z.leb_le in He. rewrite He. reflexivity.
Qed.

Lemma valid_finite x s m e :
  Prim2SF x = S754_finite s m e -> bounded prec emax m e = true.
Proof. intros E. pose proof (Prim2SF_valid x) as H. rewrite E in H. exact H. Qed.

(** Multiplying by 1 or -1 is exact. *)
Lemma mul_one_r x : x * 1 = x.
Proof.
  apply Prim2SF_inj. rewrite mul_spec.
  change (Prim2SF 1) with (S754_finite false 4503599627370496 (-52)).
  destruct (Prim2SF x) as [[]|[]| |s m e] eqn:E; try reflexivity.
  unfold SF64mul, SFmul. rewrite xorb_false_r.
  replace (Z.pos (m * 4503599627370496)) with (Z.pos m * 2 ^ 52)%Z by lia.
  replace (e + -52)%Z with (e - 52)%Z by lia.
  apply binary_round_aux_exact; [eapply valid_finite; eassumption | lia].
Qed.

Lemma mul_one_l x : 1 * x = x.
Proof.
  apply Prim2SF_inj. rewrite mul_spec.
  change (Prim2SF 1) with (S754_finite false 4503599627370496 (-52)).
  destruct (Prim2SF x) as [s|s| |s m e] eqn:E; try reflexivity.
  unfold SF64mul, SFmul. rewrite xorb_false_l.
  replace (Z.pos (4503599627370496 * m)) with (Z.pos m * 2 ^ 52)%Z by lia.
  replace (-52 + e)%Z with (e - 52)%Z by lia.
  apply binary_round_aux_exact; [eapply valid_finite; eassumption | lia].
Qed.

Lemma mul_m1_r x : x * (-1) = - x.
Proof.
  apply Prim2SF_inj. rewrite mul_spec, opp_spec.
  change (Prim2SF (-1)) with (S754_finite true 4503599627370496 (-52)).
  destruct (Prim2SF x) as [[]|[]| |s m e] eqn:E; try reflexivity.
  unfold SF64mul, SFmul, SFopp. rewrite xorb_true_r.
  replace (Z.pos (m * 4503599627370496)) with (Z.pos m * 2 ^ 52)%Z by lia.
  replace (e + -52)%Z with (e - 52)%Z by lia.
  apply binary_round_aux_exact; [eapply valid_finite; eassumption | lia].
Qed.

Lemma fexp_unfold z : fexp prec emax z = Z.max (z - 53) (-1074).
Proof. reflexivity. Qed.

Lemma div_eucl_exact a b : (0 < b)%Z -> Z.div_eucl (a * b) b = (a, 0%Z).
Proof.
  intros Hb.
  assert (H : Z.div_eucl (a * b) b = ((a * b) / b, (a * b) mod b)%Z).
  { unfold Z.div, Z.modulo. destruct (Z.div_eucl (a * b) b); reflexivity. }
  rewrite H, Z.div_mul, Z.mod_mul by lia. reflexivity.
Qed.

(** The quotient of a valid mantissa by the mantissa of 1 (or -1): the
    dividend itself, shifted by 0 or 1 bit, with nothing lost. *)
Lemma div_core_by_one m e :
  bounded prec emax m e = true ->
  exists k, (0 <= k)%Z /\
    SFdiv_core_binary prec emax (Z.pos m) e 4503599627370496 (-52)
    = (Z.pos m * 2 ^ k, e - k, loc_Exact)%Z.
Proof.
  intros Hb. destruct (bounded_spec m e Hb) as [Hc He]. rewrite fexp_unfold in Hc.
  unfold SFdiv_core_binary.
  change (Zdigits2 4503599627370496) with 53%Z. cbn [Zdigits2].
  rewrite fexp_unfold.
  set (d := Z.pos (digits2_pos m)) in *.
  assert (Hd : (0 < d)%Z) by (unfold d; lia).
  destruct (Z.eq_dec e (-1074)) as [Hsub|Hnorm].
  - (* the smallest exponent: e' = e, shift by 52 *)
    exists 0%Z. split; [lia|].
    replace (Z.min (Z.max (d + e - (53 + -52) - 53) (-1074)) (e - -52)) with e by lia.
    replace (e - -52 - e)%Z with 52%Z by lia.
    rewrite Z.shiftl_mul_pow2 by lia.
    change (2 ^ 52)%Z with 4503599627370496%Z.
    rewrite div_eucl_exact by lia.
    rewrite Z.mul_1_r, Z.sub_0_r. reflexivity.
  - exists 1%Z. split; [lia|].
    replace (Z.min (Z.max (d + e - (53 + -52) - 53) (-1074)) (e - -52)) with (e - 1)%Z by lia.
    replace (e - -52 - (e - 1))%Z with 53%Z by lia.
    rewrite Z.shiftl_mul_pow2 by lia.
    replace (Z.pos m * 2 ^ 53)%Z with ((Z.pos m * 2 ^ 1) * 4503599627370496)%Z by lia.
    rewrite div_eucl_exact by lia. reflexivity.
Qed.

(** Dividing by 1 or -1 is exact. *)
Lemma div_one x : x / 1 = x.
Proof.
  apply Prim2SF_inj. rewrite div_spec.
  change (Prim2SF 1) with (S754_finite false 4503599627370496 (-52)).
  destruct (Prim2SF x) as [[]|[]| |s m e] eqn:E; try reflexivity.
  unfold SF64div, SFdiv.
  destruct (div_core_by_one m e (valid_finite x s m e E)) as (k & Hk & ->).
  rewrite xorb_false_r. apply binary_round_aux_exact; [eapply valid_finite; eassumption | lia].
Qed.

Lemma div_m1 x : x / (-1) = - x.
Proof.
  apply Prim2SF_inj. rewrite div_spec, opp_spec.
  change (Prim2SF (-1)) with (S754_finite true 4503599627370496 (-52)).
  destruct (Prim2SF x) as [[]|[]| |s m e] eqn:E; try reflexivity.
  unfold SF64div, SFdiv, SFopp.
  destruct (div_core_by_one m e (valid_finite x s m e E)) as (k & Hk & ->).
  rewrite xorb_true_r. apply binary_round_aux_exact; [eapply valid_finite; eassumption | lia].
Qed.

(** *** Magnitudes *)

Lemma Zdigits2_pos_log2 m : (0 < m)%Z -> Zdigits2 m = (Z.log2 m + 1)%Z.
Proof. apply Zdigits2_log2. Qed.

Lemma Zdigits2_nonneg m : (0 <= m)%Z -> (0 <= Zdigits2 m)%Z.
Proof. destruct m; simpl; lia. Qed.

Lemma Zdigits2_mono a b : (0 <= a <= b)%Z -> (Zdigits2 a <= Zdigits2 b)%Z.
Proof.
  intros [Ha Hab]. destruct (Z.eq_dec a 0) as [->|Hn].
  - apply Zdigits2_nonneg. lia.
  - rewrite !Zdigits2_log2 by lia. pose proof (Z.log2_le_mono a b Hab). lia.
Qed.

Lemma Zdigits2_double m : (0 < m)%Z -> Zdigits2 (2 * m) = (Zdigits2 m + 1)%Z.
Proof.
  intros H. rewrite !Zdigits2_log2 by lia. rewrite Z.log2_double by lia. lia.
Qed.

Lemma Zdigits2_add a b :
  (0 <= a)%Z -> (0 <= b)%Z -> (Zdigits2 (a + b) <= Z.max (Zdigits2 a) (Zdigits2 b) + 1)%Z.
Proof.
  intros Ha Hb. destruct (Z.eq_dec (Z.max a b) 0) as [H0|Hn].
  - replace a with 0%Z by lia. replace b with 0%Z by lia. simpl. lia.
  - pose proof (Zdigits2_mono (a + b) (2 * Z.max a b) ltac:(lia)) as H.
    rewrite Zdigits2_double in H by lia.
    destruct (Z.max_spec a b) as [[_ E]|[_ E]]; rewrite E in H; lia.
Qed.

Lemma Zdigits2_succ m : (0 <= m)%Z -> (Zdigits2 (m + 1) <= Zdigits2 m + 1)%Z.
Proof.
  intros H. destruct (Z.eq_dec m 0) as [->|Hn]; [simpl; lia|].
  pose proof (Zdigits2_mono (m + 1) (2 * m) ltac:(lia)) as H1.
  rewrite Zdigits2_double in H1 by lia. exact H1.
Qed.

Lemma Zdigits2_mul_pow2 m k :
  (0 < m)%Z -> (0 <= k)%Z -> Zdigits2 (m * 2 ^ k) = (Zdigits2 m + k)%Z.
Proof.
  intros Hm Hk.
  rewrite !Zdigits2_log2 by (try apply Z.mul_pos_pos; try apply Z.pow_pos_nonneg; lia).
  rewrite Z.log2_mul_pow2 by lia. lia.
Qed.

Lemma Zdigits2_shiftr m n :
  (0 <= m)%Z -> (0 < n)%Z -> (Zdigits2 (Z.shiftr m n) + n <= Z.max (Zdigits2 m) n)%Z.
Proof.
  intros Hm Hn. pose proof (Z.shiftr_nonneg m n) as [_ H0]. specialize (H0 Hm).
  destruct (Z.eq_dec (Z.shiftr m n) 0) as [E|E].
  - rewrite E. simpl. lia.
  - assert (Hm' : (0 < m)%Z).
    { destruct (Z.eq_dec m 0) as [->|]; [rewrite Z.shiftr_0_l in E; lia | lia]. }
    rewrite (Zdigits2_log2 (Z.shiftr m n)) by lia. rewrite (Zdigits2_log2 m) by lia.
    rewrite Z.log2_shiftr by lia. 
    assert (Z.log2 m - n >= 0)%Z.
    { destruct (Z_lt_le_dec (Z.log2 m) n) as [Hlt|]; [|lia].
      exfalso. apply E. apply Z.shiftr_eq_0; lia. }
    lia.
Qed.

Lemma shr_m_of_loc m l : shr_m (shr_record_of_loc m l) = m.
Proof. destruct l as [|[]]; reflexivity. Qed.

Lemma round_nearest_even_bounds m l :
  (m <= round_nearest_even m l <= m + 1)%Z.
Proof. destruct l as [|[]]; simpl; try lia. destruct (Z.even m); lia. Qed.

(** What [shr_fexp] does to the exponent and to the size of the mantissa. *)
Lemma shr_fexp_spec m e l :
  (0 <= m)%Z ->
  let r := shr_fexp prec emax m e l in
  snd r = Z.max e (fexp prec emax (Zdigits2 m + e)) /\
  (0 <= shr_m (fst r))%Z /\
  (Zdigits2 (shr_m (fst r)) + snd r <= Z.max (Zdigits2 m + e) (snd r))%Z.
Proof.
  intros Hm. unfold shr_fexp, shr.
  set (n := (fexp prec emax (Zdigits2 m + e) - e)%Z).
  destruct n as [|p|p] eqn:En; cbn [fst snd]; rewrite ?shr_m_of_loc.
  - repeat split; lia.
  - rewrite iter_shr_1_m by (rewrite shr_m_of_loc; exact Hm). rewrite shr_m_of_loc.
    pose proof (Zdigits2_shiftr m (Z.pos p) Hm ltac:(lia)).
    pose proof (proj2 (Z.shiftr_nonneg m (Z.pos p)) Hm).
    repeat split; lia.
  - repeat split; lia.
Qed.

(** A double that is a zero, or finite of magnitude below [2^M]. *)
Definition mag_le (M : Z) (x : spec_float) : Prop :=
  match x with
  | S754_zero _ => True
  | S754_finite _ m e => (Z.pos (digits2_pos m) + e <= M)%Z
  | _ => False
  end.

Lemma mag_le_mono M M' x : (M <= M')%Z -> mag_le M x -> mag_le M' x.
Proof. destruct x; simpl; auto; lia. Qed.

(** Rounding a mantissa whose exponent is not above the canonical one: the
    result has the given sign and cannot overflow while the value stays
    below [2^1023]. *)
Lemma binary_round_aux_mag s m e l M :
  (0 <= m)%Z -> (e <= fexp prec emax (Zdigits2 m + e))%Z ->
  (Zdigits2 m + e <= M)%Z -> (-1074 <= M <= 1023)%Z ->
  signed_as s (binary_round_aux prec emax s m e l) /\
  mag_le (M + 1) (binary_round_aux prec emax s m e l).
Proof.
  intros Hm He HT HM. unfold binary_round_aux.
  pose proof (shr_fexp_spec m e l Hm) as H1. cbv zeta in H1.
  destruct (shr_fexp prec emax m e l) as [mrs' e']. cbn [fst snd] in H1.
  destruct H1 as (E1 & P1 & D1).
  set (m1 := round_nearest_even (shr_m mrs') (loc_of_shr_record mrs')).
  pose proof (round_nearest_even_bounds (shr_m mrs') (loc_of_shr_record mrs')) as Hr.
  fold m1 in Hr.
  assert (Hm1 : (0 <= m1)%Z) by lia.
  pose proof (Zdigits2_mono m1 (shr_m mrs' + 1) ltac:(lia)) as Dm1.
  pose proof (Zdigits2_succ (shr_m mrs') P1) as Ds.
  pose proof (shr_fexp_spec m1 e' loc_Exact Hm1) as H2. cbv zeta in H2.
  destruct (shr_fexp prec emax m1 e' loc_Exact) as [mrs'' e'']. cbn [fst snd] in H2.
  destruct H2 as (E2 & P2 & D2).
  rewrite fexp_unfold in *.
  destruct (shr_m mrs'') as [|q|q] eqn:Eq; try lia.
  - split; constructor.
  - assert (Hle : (e'' <= 971)%Z) by lia.
    change (emax - prec)%Z with 971%Z. apply Z.leb_le in Hle. rewrite Hle.
    split; [constructor|]. cbn [mag_le]. cbn [Zdigits2] in D2. apply Z.leb_le in Hle. lia.
Qed.

Lemma pos_iter_xO m d : Z.pos (Pos.iter xO m d) = (Z.pos m * 2 ^ Z.pos d)%Z.
Proof.
  induction d as [|d IH] using Pos.peano_ind.
  - change (Pos.iter xO m 1) with (m~0)%positive. lia.
  - rewrite Pos.iter_succ, Pos2Z.inj_succ, Z.pow_succ_r by lia.
    change (Z.pos (Pos.iter xO m d)~0) with (2 * Z.pos (Pos.iter xO m d))%Z.
    rewrite IH. lia.
Qed.

(** [shl_align] brings a mantissa down to a smaller exponent without
    changing the value. *)
Lemma shl_align_spec mx ex ex' :
  let r := shl_align mx ex ex' in
  snd r = Z.min ex ex' /\ Z.pos (fst r) = (Z.pos mx * 2 ^ (ex - snd r))%Z.
Proof.
  unfold shl_align. destruct (ex' - ex)%Z as [|d|d] eqn:E; cbn [fst snd].
  - split; [lia|]. replace (ex - ex)%Z with 0%Z by lia. lia.
  - split; [lia|]. replace (ex - ex)%Z with 0%Z by lia. lia.
  - split; [lia|]. rewrite pos_iter_xO. f_equal. f_equal. lia.
Qed.

Lemma binary_round_mag s k e M :
  (Z.pos (digits2_pos k) + e <= M)%Z -> (-1074 <= M <= 1023)%Z ->
  signed_as s (binary_round prec emax s k e) /\
  mag_le (M + 1) (binary_round prec emax s k e).
Proof.
  intros HT HM. unfold binary_round.
  pose proof (shl_align_spec k e (fexp prec emax (Z.pos (digits2_pos k) + e))) as H.
  cbv zeta in H.
  destruct (shl_align k e (fexp prec emax (Z.pos (digits2_pos k) + e))) as [mz ez].
  cbn [fst snd] in H. destruct H as [Ez Emz].
  assert (Hd : (Zdigits2 (Z.pos mz) + ez = Z.pos (digits2_pos k) + e)%Z).
  { rewrite Emz. rewrite Zdigits2_mul_pow2 by lia. cbn [Zdigits2]. lia. }
  apply binary_round_aux_mag; try lia.
  rewrite Hd. lia.
Qed.

Lemma binary_normalize_mag z e M :
  (Zdigits2 z + e <= M)%Z -> (-1074 <= M <= 1023)%Z ->
  mag_le (M + 1) (binary_normalize prec emax z e false) /\
  ((0 <= z)%Z -> signed_as false (binary_normalize prec emax z e false)) /\
  ((z < 0)%Z -> signed_as true (binary_normalize prec emax z e false)).
Proof.
  intros HT HM. destruct z as [|k|k]; cbn [binary_normalize Zdigits2] in *.
  - repeat split; try lia. constructor.
  - destruct (binary_round_mag false k e M HT HM). repeat split; auto; lia.
  - destruct (binary_round_mag true k e M HT HM). repeat split; auto; lia.
Qed.

Lemma Zdigits2_abs z : Zdigits2 (Z.abs z) = Zdigits2 z.
Proof. destruct z; reflexivity. Qed.

(** The two aligned mantissas of a sum or difference of finite doubles. *)
Lemma aligned_spec mx ex my ey :
  let ez := Z.min ex ey in
  let X := Z.pos (fst (shl_align mx ex ez)) in
  let Y := Z.pos (fst (shl_align my ey ez)) in
  X = (Z.pos mx * 2 ^ (ex - ez))%Z /\ Y = (Z.pos my * 2 ^ (ey - ez))%Z /\
  (Zdigits2 X + ez = Z.pos (digits2_pos mx) + ex)%Z /\
  (Zdigits2 Y + ez = Z.pos (digits2_pos my) + ey)%Z.
Proof.
  intros ez X Y.
  destruct (shl_align_spec mx ex ez) as [Sx Ex].
  destruct (shl_align_spec my ey ez) as [Sy Ey].
  replace (snd (shl_align mx ex ez)) with ez in Ex by (unfold ez in *; lia).
  replace (snd (shl_align my ey ez)) with ez in Ey by (unfold ez in *; lia).
  fold X in Ex. fold Y in Ey.
  repeat split; auto.
  - rewrite Ex, Zdigits2_mul_pow2 by (unfold ez; lia). cbn [Zdigits2]. lia.
  - rewrite Ey, Zdigits2_mul_pow2 by (unfold ez; lia). cbn [Zdigits2]. lia.
Qed.

Lemma combine_mag X Y ez M (z : Z) :
  (0 < X)%Z -> (0 < Y)%Z -> (Z.abs z <= X + Y)%Z ->
  (Zdigits2 X + ez <= M)%Z -> (Zdigits2 Y + ez <= M)%Z ->
  (Zdigits2 z + ez <= M + 1)%Z.
Proof.
  intros HX HY Hz DX DY. rewrite <- Zdigits2_abs.
  pose proof (Zdigits2_mono (Z.abs z) (X + Y) ltac:(lia)).
  pose proof (Zdigits2_add X Y ltac:(lia) ltac:(lia)). lia.
Qed.

Lemma cond_Zopp_abs s z : Z.abs (cond_Zopp s z) = Z.abs z.
Proof. destruct s; simpl; lia. Qed.

(** Sums and differences of small doubles are small. *)
Lemma SFadd_mag x y M :
  mag_le M x -> mag_le M y -> (-1074 <= M <= 1022)%Z ->
  mag_le (M + 2) (SFadd prec emax x y).
Proof.
  intros Hx Hy HM.
  destruct x as [sx|sx| |sx mx ex], y as [sy|sy| |sy my ey]; cbn [mag_le] in Hx, Hy;
    try contradiction.
  - destruct sx, sy; exact I.
  - apply (mag_le_mono M (M + 2) (S754_finite sy my ey)); [lia | exact Hy].
  - apply (mag_le_mono M (M + 2) (S754_finite sx mx ex)); [lia | exact Hx].
  - unfold SFadd.
    destruct (aligned_spec mx ex my ey) as (EX & EY & DX & DY). cbv zeta in *.
    set (ez := Z.min ex ey) in *.
    set (X := Z.pos (fst (shl_align mx ex ez))) in *.
    set (Y := Z.pos (fst (shl_align my ey ez))) in *.
    assert (Hz : (Zdigits2 (cond_Zopp sx X + cond_Zopp sy Y) + ez <= M + 1)%Z).
    { apply (combine_mag X Y); try lia.
      pose proof (cond_Zopp_abs sx X). pose proof (cond_Zopp_abs sy Y). lia. }
    destruct (binary_normalize_mag _ ez (M + 1) Hz ltac:(lia)) as [Hm _].
    replace (M + 2)%Z with (M + 1 + 1)%Z by lia. exact Hm.
Qed.

Lemma SFsub_finite sx mx ex sy my ey M :
  (Z.pos (digits2_pos mx) + ex <= M)%Z -> (Z.pos (digits2_pos my) + ey <= M)%Z ->
  (-1074 <= M <= 1022)%Z ->
  let ez := Z.min ex ey in
  let z := (cond_Zopp sx (Z.pos mx * 2 ^ (ex - ez)) - cond_Zopp sy (Z.pos my * 2 ^ (ey - ez)))%Z in
  let r := SFsub prec emax (S754_finite sx mx ex) (S754_finite sy my ey) in
  mag_le (M + 2) r /\
  ((0 <= z)%Z -> signed_as false r) /\ ((z < 0)%Z -> signed_as true r).
Proof.
  intros Hx Hy HM ez z r. unfold r, SFsub.
  destruct (aligned_spec mx ex my ey) as (EX & EY & DX & DY). cbv zeta in *.
  fold ez in EX, EY, DX, DY |- *.
  set (X := Z.pos (fst (shl_align mx ex ez))) in *.
  set (Y := Z.pos (fst (shl_align my ey ez))) in *.
  assert (Ez : (cond_Zopp sx X - cond_Zopp sy Y)%Z = z) by (unfold z; rewrite EX, EY; reflexivity).
  rewrite Ez.
  assert (Hz : (Zdigits2 z + ez <= M + 1)%Z).
  { apply (combine_mag X Y); try lia. rewrite <- Ez.
    pose proof (cond_Zopp_abs sx X). pose proof (cond_Zopp_abs sy Y). lia. }
  destruct (binary_normalize_mag z ez (M + 1) Hz ltac:(lia)) as (Hm & Hp & Hn).
  replace (M + 2)%Z with (M + 1 + 1)%Z by lia. auto.
Qed.



Lemma mag_le_finite M x : mag_le M (Prim2SF x) -> is_finite x = true.
Proof. rewrite is_finite_spec. destruct (Prim2SF x); simpl; auto; contradiction. Qed.

Lemma signed_nonneg x : signed_as false (Prim2SF x) -> (0 <=? x) = true.
Proof.
  rewrite leb_spec. change (Prim2SF 0) with (S754_zero false).
  intros H. destruct H; reflexivity.
Qed.

Lemma signed_opp s x : signed_as s x -> signed_as (negb s) (SFopp x).
Proof. intros H. destruct H; constructor. Qed.

Lemma mag_le_opp M x : mag_le M x -> mag_le M (SFopp x).
Proof. destruct x; simpl; auto. Qed.

Lemma pos_lt_pow2_digits m : (Z.pos m < 2 ^ Z.pos (digits2_pos m))%Z.
Proof.
  rewrite digits2_pos_log2. pose proof (Z.log2_spec (Z.pos m) ltac:(lia)) as H.
  replace (Z.log2 (Z.pos m) + 1)%Z with (Z.succ (Z.log2 (Z.pos m))) by lia. lia.
Qed.

Lemma bounded_digits m e : bounded prec emax m e = true -> (Z.pos (digits2_pos m) <= 53)%Z.
Proof.
  intros Hb. destruct (bounded_spec m e Hb) as [Hc _]. rewrite fexp_unfold in Hc. lia.
Qed.

(** A non-negative double below 10: a zero, or finite with the sign [+],
    an exponent of at most -49 and, at the exponent of 10, a smaller
    mantissa. *)
Lemma below_ten_spec h :
  (0 <=? h) = true -> (h <? 10) = true ->
  (exists s, Prim2SF h = S754_zero s) \/
  exists m e, Prim2SF h = S754_finite false m e /\
    (Z.pos (digits2_pos m) <= 53)%Z /\
    ((e < -49)%Z \/ ((e = -49)%Z /\ (Z.pos m < 5629499534213120)%Z)).
Proof.
  intros H0 H10. destruct (nonneg_spec h H0) as [Hz | [Hi | (m & e & E)]]; [left; exact Hz | |].
  - rewrite ltb_spec, Hi in H10. discriminate.
  - right. exists m, e. split; [exact E|]. split; [eapply bounded_digits, valid_finite, E|].
    rewrite ltb_spec, E in H10.
    change (Prim2SF 10) with (S754_finite false 5629499534213120 (-49)) in H10.
    unfold SFltb, SFcompare in H10.
    destruct (Z.compare_spec e (-49)) as [He|He|He]; try discriminate; [right | left; exact He].
    split; [exact He|].
    destruct (PosDef.Pos.compare_cont Eq m 5629499534213120) eqn:Hc; try discriminate.
    apply (proj1 (Pos.compare_lt_iff m 5629499534213120)) in Hc.
    apply Pos2Z.pos_lt_pos, Hc.
Qed.

(** The ray parameter of the front face, [10 - h] as the code computes it,
    is a finite non-negative double, and so is the point it leads to. *)
Lemma ten_minus h :
  (0 <=? h) = true -> (h <? 10) = true ->
  let t := 0 - h - (-10) in
  (0 <=? t) = true /\ is_finite t = true /\ is_finite (-10 + t) = true.
Proof.
  intros H0 H10 t.
  assert (Ht : signed_as false (Prim2SF t) /\ mag_le 6 (Prim2SF t)).
  { unfold t. rewrite !sub_spec.
    change (Prim2SF 0) with (S754_zero false).
    change (Prim2SF (-10)) with (S754_finite true 5629499534213120 (-49)).
    destruct (below_ten_spec h H0 H10) as [[s E] | (m & e & E & Hd & Hlt)]; rewrite E.
    - destruct s; cbn; split; try constructor; lia.
    - cbn [SF64sub SFsub negb].
      pose proof (SFsub_finite true m e true 5629499534213120 (-49) 4) as H.
      cbv zeta in H. destruct H as (Hm & Hp & _); [lia | cbn; lia | lia |].
      split; [|exact Hm]. apply Hp. cbn [cond_Zopp].
      replace (Z.min e (-49)) with e by lia. rewrite Z.sub_diag, Z.mul_1_r.
      pose proof (pos_lt_pow2_digits m) as Hm2.
      assert (Z.pos m < 2 ^ 53)%Z.
      { eapply Z.lt_le_trans; [exact Hm2|]. apply Z.pow_le_mono_r; lia. }
      destruct Hlt as [Hlt | [-> Hlt]].
      + assert (2 ^ 1 <= 2 ^ (-49 - e))%Z by (apply Z.pow_le_mono_r; lia).
        change (2 ^ 53)%Z with 9007199254740992%Z in *. lia.
      + change (2 ^ (-49 - -49))%Z with 1%Z. lia. }
  destruct Ht as [Hs Hm]. split; [apply signed_nonneg, Hs|].
  split; [eapply mag_le_finite, Hm|].
  apply (mag_le_finite 8). rewrite add_spec.
  change (Prim2SF (-10)) with (S754_finite true 5629499534213120 (-49)).
  apply (SFadd_mag _ _ 6); [cbn; lia | exact Hm | lia].
Qed.

(** The same for the back face, whose ray parameter is [h + 10], computed
    as [-(-(0 + h) - 10)]. *)
Lemma ten_plus h :
  (0 <=? h) = true -> (h <? 10) = true ->
  let t := - (- (0 + h) - 10) in
  (0 <=? t) = true /\ is_finite t = true /\ is_finite (-10 + t) = true.
Proof.
  intros H0 H10 t.
  assert (Ht : signed_as false (Prim2SF t) /\ mag_le 6 (Prim2SF t)).
  { unfold t. rewrite opp_spec, sub_spec, opp_spec, add_spec.
    change (Prim2SF 0) with (S754_zero false).
    change (Prim2SF 10) with (S754_finite false 5629499534213120 (-49)).
    destruct (below_ten_spec h H0 H10) as [[s E] | (m & e & E & Hd & Hlt)]; rewrite E.
    - destruct s; cbn; split; try constructor; lia.
    - cbn [SF64add SFadd SFopp negb SF64sub].
      pose proof (SFsub_finite true m e false 5629499534213120 (-49) 4) as H.
      cbv zeta in H. destruct H as (Hm & _ & Hn); [lia | cbn; lia | lia |].
      split; [|apply mag_le_opp, Hm].
      apply (signed_opp true), Hn. cbn [cond_Zopp].
      assert (0 < 2 ^ (e - Z.min e (-49)))%Z by (apply Z.pow_pos_nonneg; lia).
      assert (0 < 2 ^ (-49 - Z.min e (-49)))%Z by (apply Z.pow_pos_nonneg; lia).
      nia. }
  destruct Ht as [Hs Hm]. split; [apply signed_nonneg, Hs|].
  split; [eapply mag_le_finite, Hm|].
  apply (mag_le_finite 8). rewrite add_spec.
  change (Prim2SF (-10)) with (S754_finite true 5629499534213120 (-49)).
  apply (SFadd_mag _ _ 6); [cbn; lia | exact Hm | lia].
Qed.

End Rounding.

Section SignedZeros.

(** *** Zeros and NaN in the arithmetic of the axial ray *)

Lemma finite_cases x :
  is_finite x = true ->
  (exists s, Prim2SF x = S754_zero s) \/ exists s m e, Prim2SF x = S754_finite s m e.
Proof.
  rewrite is_finite_spec. destruct (Prim2SF x) as [s|s| |s m e]; simpl; try discriminate; eauto.
Qed.

Lemma zero_minus_zero_times x : is_finite x = true -> 0 - 0 * x = 0.
Proof.
  intros H. apply Prim2SF_inj. rewrite sub_spec, mul_spec.
  change (Prim2SF 0) with (S754_zero false).
  destruct (finite_cases x H) as [[s E] | (s & m & e & E)]; rewrite E; destruct s; reflexivity.
Qed.

Lemma zero_plus_zero_times x : is_finite x = true -> 0 + 0 * x = 0.
Proof.
  intros H. apply Prim2SF_inj. rewrite add_spec, mul_spec.
  change (Prim2SF 0) with (S754_zero false).
  destruct (finite_cases x H) as [[s E] | (s & m & e & E)]; rewrite E; destruct s; reflexivity.
Qed.

Lemma zero_plus_times_zero x : is_finite x = true -> 0 + x * 0 = 0.
Proof.
  intros H. apply Prim2SF_inj. rewrite add_spec, mul_spec.
  change (Prim2SF 0) with (S754_zero false).
  destruct (finite_cases x H) as [[s E] | (s & m & e & E)]; rewrite E; destruct s; reflexivity.
Qed.

Lemma zero_plus_zero_minus x : 0 + (0 - x) = 0 - x.
Proof.
  apply Prim2SF_inj. rewrite add_spec, sub_spec.
  change (Prim2SF 0) with (S754_zero false).
  destruct (Prim2SF x) as [[]|[]| |s m e]; reflexivity.
Qed.

Lemma minus_zero_r x : x - 0 = x.
Proof.
  apply Prim2SF_inj. rewrite sub_spec.
  change (Prim2SF 0) with (S754_zero false).
  destruct (Prim2SF x) as [[]|[]| |s m e]; reflexivity.
Qed.

Lemma negzero_plus_opp_zero_plus x : -0 + - (0 + x) = - (0 + x).
Proof.
  apply Prim2SF_inj. rewrite add_spec, !opp_spec, add_spec.
  change (Prim2SF 0) with (S754_zero false).
  destruct (Prim2SF x) as [[]|[]| |s m e]; reflexivity.
Qed.

(** With an infinite or NaN ray parameter [t], the coordinate [0 + 0*t] is
    NaN. *)
Lemma zero_plus_zero_times_nonfinite t :
  SFnonfinite (Prim2SF t) = true -> Prim2SF (0 + 0 * t) = S754_nan.
Proof.
  intros H. rewrite add_spec, mul_spec. change (Prim2SF 0) with (S754_zero false).
  destruct (Prim2SF t); try discriminate; reflexivity.
Qed.

(** NaN is absorbing, and no comparison with NaN holds. *)
Lemma nan_sub_l a b : Prim2SF a = S754_nan -> Prim2SF (a - b) = S754_nan.
Proof. intros H. rewrite sub_spec, H. reflexivity. Qed.

Lemma nan_mul_l a b : Prim2SF a = S754_nan -> Prim2SF (a * b) = S754_nan.
Proof. intros H. rewrite mul_spec, H. reflexivity. Qed.

Lemma nan_add_l a b : Prim2SF a = S754_nan -> Prim2SF (a + b) = S754_nan.
Proof. intros H. rewrite add_spec, H. reflexivity. Qed.

Lemma nan_leb_r a b : Prim2SF a = S754_nan -> (b <=? a) = false.
Proof. intros H. rewrite leb_spec, H. unfold SFleb. destruct (Prim2SF b); reflexivity. Qed.

(** The origin of the local frame is within the bounds of a non-negative
    extent. *)
Lemma zero_in_range extent :
  (0 <=? extent) = true ->
  (geb 0 ((- extent) / 2.0) && (0 <=? extent / 2.0))%bool = true.
Proof.
  intros H. pose proof (half_nonneg extent H) as Hh. unfold geb.
  rewrite div_opp_l, Hh, andb_true_r.
  apply nonneg_spec in Hh. rewrite leb_spec, opp_spec. change (Prim2SF 0) with (S754_zero false).
  destruct Hh as [[s E] | [E | (m & e & E)]]; rewrite E; reflexivity.
Qed.

End SignedZeros.

(** *** Zeros of either sign *)

Section ZeroSigns.

(** Two values that are the same but for the sign of a zero. *)
Definition sfeqz (X Y : spec_float) : Prop :=
  X = Y \/ exists s s', X = S754_zero s /\ Y = S754_zero s'.

(** Two doubles that are the same but for the sign of a zero. *)
Definition eqz (u v : float) : Prop := sfeqz (Prim2SF u) (Prim2SF v).

Lemma sfeqz_refl X : sfeqz X X.
Proof. left. reflexivity. Qed.

Lemma sfeqz_zeros s s' : sfeqz (S754_zero s) (S754_zero s').
Proof. right. eauto. Qed.

Ltac zeros := first [apply sfeqz_refl | apply sfeqz_zeros | assumption].

Lemma eqz_refl u : eqz u u.
Proof. apply sfeqz_refl. Qed.

Lemma eqz_sym u v : eqz u v -> eqz v u.
Proof. intros [H | (s & s' & H1 & H2)]; [left; congruence | right; eauto]. Qed.

(** Numeric equality [==] is equality but for the sign of a zero. *)
Lemma eqb_eqz u v : (u =? v) = true -> eqz u v.
Proof.
  unfold eqz. rewrite FloatAxioms.eqb_spec. unfold SFeqb.
  destruct (Prim2SF u) as [su|su| |su mu eu], (Prim2SF v) as [sv|sv| |sv mv ev];
    cbn; try discriminate;
    try (destruct su; discriminate); try (destruct sv; discriminate).
  - intros _. zeros.
  - destruct su, sv; try discriminate; intros _; zeros.
  - change (PosDef.Pos.compare_cont Eq mu mv) with (Pos.compare mu mv).
    destruct su, sv; try discriminate;
      destruct (Z.compare_spec eu ev) as [-> | |]; try discriminate;
      destruct (Pos.compare_spec mu mv) as [-> | |]; try discriminate; intros _; zeros.
Qed.

(** A value that is the same as a double that is not a zero is that
    double. *)
Lemma eqz_nonzero u v : eqz u v -> (v =? 0) = false -> u = v.
Proof.
  intros [H | (s & s' & _ & H)] Hv; [apply Prim2SF_inj, H|].
  rewrite FloatAxioms.eqb_spec, H in Hv. discriminate.
Qed.

Lemma eqz_zero u v : eqz u v -> (v =? 0) = true -> (u =? 0) = true.
Proof.
  intros [H | (s & s' & H1 & H2)]; rewrite !FloatAxioms.eqb_spec.
  - rewrite H. auto.
  - rewrite H1. reflexivity.
Qed.

Lemma sfeqz_add X X' Y Y' :
  sfeqz X X' -> sfeqz Y Y' -> sfeqz (SFadd prec emax X Y) (SFadd prec emax X' Y').
Proof.
  intros [<- | (s & s' & -> & ->)] [<- | (t & t' & -> & ->)]; try zeros;
    try (destruct X as [[]|[]| |sx m e]); try (destruct Y as [[]|[]| |sy m e]);
    try destruct s; try destruct s'; try destruct t; try destruct t'; cbn; zeros.
Qed.

Lemma sfeqz_sub X X' Y Y' :
  sfeqz X X' -> sfeqz Y Y' -> sfeqz (SFsub prec emax X Y) (SFsub prec emax X' Y').
Proof.
  intros [<- | (s & s' & -> & ->)] [<- | (t & t' & -> & ->)]; try zeros;
    try (destruct X as [[]|[]| |sx m e]); try (destruct Y as [[]|[]| |sy m e]);
    try destruct s; try destruct s'; try destruct t; try destruct t'; cbn; zeros.
Qed.

Lemma sfeqz_mul X X' Y Y' :
  sfeqz X X' -> sfeqz Y Y' -> sfeqz (SFmul prec emax X Y) (SFmul prec emax X' Y').
Proof.
  intros [<- | (s & s' & -> & ->)] [<- | (t & t' & -> & ->)]; try zeros;
    try (destruct X as [[]|[]| |sx m e]); try (destruct Y as [[]|[]| |sy m e]);
    try destruct s; try destruct s'; try destruct t; try destruct t'; cbn; zeros.
Qed.

(** A quotient by the same divisor. *)
Lemma sfeqz_div X X' Y :
  sfeqz X X' -> sfeqz (SFdiv prec emax X Y) (SFdiv prec emax X' Y).
Proof.
  intros [<- | (s & s' & -> & ->)]; try zeros.
  destruct Y as [sy|[]| |sy m e]; cbn; try zeros.
Qed.

Lemma sfeqz_compare X X' Y Y' :
  sfeqz X X' -> sfeqz Y Y' -> SFcompare X Y = SFcompare X' Y'.
Proof.
  intros [<- | (s & s' & -> & ->)] [<- | (t & t' & -> & ->)]; try reflexivity;
    try (destruct X as [[]|[]| |sx m e]); try (destruct Y as [[]|[]| |sy m e]); reflexivity.
Qed.

Lemma eqz_add u u' v v' : eqz u u' -> eqz v v' -> eqz (u + v) (u' + v').
Proof. unfold eqz. rewrite !add_spec. apply sfeqz_add. Qed.

Lemma eqz_sub u u' v v' : eqz u u' -> eqz v v' -> eqz (u - v) (u' - v').
Proof. unfold eqz. rewrite !sub_spec. apply sfeqz_sub. Qed.

Lemma eqz_mul u u' v v' : eqz u u' -> eqz v v' -> eqz (u * v) (u' * v').
Proof. unfold eqz. rewrite !mul_spec. apply sfeqz_mul. Qed.

Lemma eqz_div u u' v v' :
  eqz u u' -> eqz v v' -> (v' =? 0) = false -> eqz (u / v) (u' / v').
Proof.
  intros Hu Hv Hn. rewrite (eqz_nonzero v v' Hv Hn).
  unfold eqz in *. rewrite !div_spec. apply sfeqz_div. exact Hu.
Qed.

Lemma eqz_leb u u' v v' : eqz u u' -> eqz v v' -> (u <=? v) = (u' <=? v').
Proof.
  intros Hu Hv. rewrite !leb_spec. unfold SFleb.
  rewrite (sfeqz_compare _ _ _ _ Hu Hv). reflexivity.
Qed.

Lemma eqz_ltb u u' v v' : eqz u u' -> eqz v v' -> (u <? v) = (u' <? v').
Proof.
  intros Hu Hv. rewrite !ltb_spec. unfold SFltb.
  rewrite (sfeqz_compare _ _ _ _ Hu Hv). reflexivity.
Qed.

(** Added to a double that is not [-0], a zero of either sign makes no
    difference. *)
Lemma add_absorbs c u u' :
  eqz u u' -> Prim2SF c <> S754_zero true -> c + u = c + u'.
Proof.
  intros [H | (s & s' & H1 & H2)] Hc; apply Prim2SF_inj; rewrite !add_spec.
  - rewrite H. reflexivity.
  - rewrite H1, H2. destruct (Prim2SF c) as [[]|[]| |sc m e], s, s'; cbn; congruence.
Qed.

End ZeroSigns.

Section Halving.

Lemma div_eucl_div_mod a b :
  Z.div_eucl a b = ((a / b)%Z, (a mod b)%Z).
Proof. unfold Z.div, Z.modulo. destruct (Z.div_eucl a b); reflexivity. Qed.

(** The quotient of a valid mantissa by the mantissa of 2: it satisfies what
    rounding needs to stay finite. *)
Lemma div_core_by_two m e :
  bounded prec emax m e = true ->
  let r := SFdiv_core_binary prec emax (Z.pos m) e 4503599627370496 (-51) in
  let q := fst (fst r) in let e' := snd (fst r) in
  (0 <= q)%Z /\ (e' <= fexp prec emax (Zdigits2 q + e'))%Z /\ (Zdigits2 q + e' <= 1023)%Z.
Proof.
  intros Hb. destruct (bounded_spec m e Hb) as [Hc He]. rewrite fexp_unfold in Hc.
  pose proof (bounded_digits m e Hb) as Hd53.
  unfold SFdiv_core_binary.
  change (Zdigits2 4503599627370496) with 53%Z. cbn [Zdigits2].
  rewrite div_eucl_div_mod. cbn [fst snd]. rewrite !fexp_unfold.
  set (d := Z.pos (digits2_pos m)) in *.
  assert (Hd : (0 < d)%Z) by (unfold d; lia).
  set (e' := Z.min (Z.max (d + e - (53 + -51) - 53) (-1074)) (e - -51)).
  assert (He' : (e' = e \/ e' = e - 1 \/ e' = e - 2)%Z) by (unfold e'; lia).
  assert (Hmin : (e' = e -> e = -1074)%Z) by (unfold e'; lia).
  assert (Hnorm : (e' <> e -> d = 53)%Z) by (unfold e'; lia).
  assert (Hlow : (-1074 <= e')%Z) by (unfold e'; lia).
  change (emax - prec)%Z with 971%Z in He.
  destruct He' as [E | [E | E]].
  - (* shift by 51: the mantissa is halved *)
    specialize (Hmin E). rewrite E.
    replace (e - -51 - e)%Z with 51%Z by lia.
    rewrite Z.shiftl_mul_pow2 by lia.
    replace 4503599627370496%Z with (2 * 2 ^ 51)%Z by reflexivity.
    rewrite Z.div_mul_cancel_r by lia.
    replace (Z.pos m / 2)%Z with (Z.shiftr (Z.pos m) 1)
      by (rewrite Z.shiftr_div_pow2 by lia; reflexivity).
    pose proof (Zdigits2_shiftr (Z.pos m) 1 ltac:(lia) ltac:(lia)) as Hs.
    pose proof (proj2 (Z.shiftr_nonneg (Z.pos m) 1) ltac:(lia)) as Hn.
    pose proof (Zdigits2_nonneg _ Hn). cbn [Zdigits2] in Hs. fold d in Hs.
    repeat split; lia.
  - assert (d = 53%Z) by (apply Hnorm; lia). rewrite E.
    replace (e - -51 - (e - 1))%Z with 52%Z by lia.
    rewrite Z.shiftl_mul_pow2 by lia.
    change (2 ^ 52)%Z with 4503599627370496%Z.
    rewrite Z.div_mul by lia. cbn [Zdigits2]. fold d.
    repeat split; lia.
  - assert (d = 53%Z) by (apply Hnorm; lia). rewrite E.
    replace (e - -51 - (e - 2))%Z with 53%Z by lia.
    rewrite Z.shiftl_mul_pow2 by lia.
    replace (Z.pos m * 2 ^ 53)%Z with (Z.pos m * 2 ^ 1 * 4503599627370496)%Z by lia.
    rewrite Z.div_mul by lia.
    rewrite Zdigits2_mul_pow2 by lia. cbn [Zdigits2]. fold d.
    repeat split; lia.
Qed.

(** Half of a finite double is finite. *)
Lemma half_finite w : is_finite w = true -> is_finite (w / 2) = true.
Proof.
  intros H. rewrite is_finite_spec, div_spec.
  change (Prim2SF 2) with (S754_finite false 4503599627370496 (-51)).
  destruct (finite_cases w H) as [[s E] | (s & m & e & E)]; rewrite E; [reflexivity|].
  unfold SF64div, SFdiv.
  pose proof (div_core_by_two m e (valid_finite w s m e E)) as Hq. cbv zeta in Hq.
  destruct (SFdiv_core_binary prec emax (Z.pos m) e 4503599627370496 (-51)) as [[mz ez] lz].
  cbn [fst snd] in Hq. destruct Hq as (Hq0 & Hqe & HqT).
  destruct (binary_round_aux_mag (xorb s false) mz ez lz 1023 Hq0 Hqe HqT ltac:(lia))
    as [_ Hm].
  destruct (binary_round_aux prec emax (xorb s false) mz ez lz); simpl in Hm |- *;
    try reflexivity; contradiction.
Qed.

End Halving.

(** ** Part III: the angular distribution *)

Section AngularDistFacts.
Import ADist Calls Trapezoid.
Variable sin : float -> float.

(** A call that returns true leaves the object initialized. *)
Lemma call_true_init a c a' : call sin a c = (true, a') -> init a' = true.
Proof.
  destruct c as [junk f b t | junk n an xs b t | x]; simpl.
  - unfold Initialize_file. destruct (init a); [discriminate|].
    destruct f as [data|]; [|discriminate].
    destruct (read_loop data ([], [], num_points a)) as [[xvec yvec] n].
    destruct (1 <? n)%Z; [|discriminate].
    destruct (copy_loop _ _ _ _) as [theta dsig].
    destruct (integrate_loop _ _ _ _ _ _) as [xsec integ].
    intros H; inversion H; reflexivity.
  - unfold Initialize_array. destruct (init a || (n <=? 1)%Z)%bool; [discriminate|].
    destruct (fill_loop _ _ _ _ _) as [theta dsig].
    destruct (integrate_loop _ _ _ _ _ _) as [xsec integ].
    intros H; inversion H; reflexivity.
  - unfold Initialize_iso. destruct (init a || (x <=? 0.0))%bool; [discriminate|].
    intros H; inversion H; reflexivity.
Qed.

(** On an initialized object every overload returns false at once. *)
Lemma call_on_initialized a c : init a = true -> call sin a c = (false, a).
Proof.
  intros Hi. destruct c; simpl;
    unfold Initialize_file, Initialize_array, Initialize_iso; rewrite Hi; reflexivity.
Qed.

(** A call that returns false never sets [init]. *)
Lemma call_false_init a c a' : call sin a c = (false, a') -> init a' = init a.
Proof.
  destruct c as [junk f b t | junk n an xs b t | x]; simpl.
  - unfold Initialize_file. destruct (init a) eqn:Hi; [intros H; inversion H; subst; exact Hi|].
    destruct f as [data|]; [|intros H; inversion H; subst; exact Hi].
    destruct (read_loop data ([], [], num_points a)) as [[xvec yvec] n].
    destruct (1 <? n)%Z.
    + destruct (copy_loop _ _ _ _) as [theta dsig].
      destruct (integrate_loop _ _ _ _ _ _) as [xsec integ]. discriminate.
    + intros H; inversion H; subst; simpl. reflexivity.
  - unfold Initialize_array. destruct (init a || (n <=? 1)%Z)%bool.
    + intros H; inversion H; subst; reflexivity.
    + destruct (fill_loop _ _ _ _ _) as [theta dsig].
      destruct (integrate_loop _ _ _ _ _ _) as [xsec integ]. discriminate.
  - unfold Initialize_iso. destruct (init a || (x <=? 0.0))%bool.
    + intros H; inversion H; subst; reflexivity.
    + discriminate.
Qed.

Lemma all_failed_init cs : forall a a',
  all_failed sin a cs = Some a' -> init a' = init a.
Proof.
  induction cs as [|c cs IH]; intros a a' H; simpl in H.
  - inversion H; reflexivity.
  - destruct (call sin a c) as [ok a1] eqn:Hc. destruct ok; [discriminate|].
    rewrite (IH _ _ H). eapply call_false_init; eassumption.
Qed.

(** [Sample] on an object whose [init] flag is clear. *)
Lemma Sample_uninitialized a frand : init a = false -> Sample a frand = (-1)%float.
Proof. intros Hi. unfold Sample. rewrite Hi. reflexivity. Qed.

End AngularDistFacts.

Section WriteOnce.
Import ADist Calls.
Variables sin cos : float -> float.
Variable line_length0 : float.

Lemma Poly_Initialize_true g radius_ nSides_ g' :
  Poly.Initialize sin cos line_length0 g radius_ nSides_ = (true, g') -> Poly.init g' = true.
Proof.
  unfold Poly.Initialize. destruct (Poly.init g); [discriminate|].
  intros H; inversion H; reflexivity.
Qed.

Lemma Poly_Initialize_on_initialized g radius_ nSides_ :
  Poly.init g = true -> Poly.Initialize sin cos line_length0 g radius_ nSides_ = (false, g).
Proof. intros Hi. unfold Poly.Initialize. rewrite Hi. reflexivity. Qed.

(** C5.  Objects are write-once.  After any call of an [AngularDist::Initialize]
    overload has returned true, every later call of any overload, with any
    arguments, returns false and leaves every field of the object as it
    was; the same holds for [RegularPolygon::Initialize]. *)
Theorem C5_initialize_write_once :
  (forall a c a', call sin a c = (true, a') ->
     forall c', call sin a' c' = (false, a')) /\
  (forall g radius_ nSides_ g',
     Poly.Initialize sin cos line_length0 g radius_ nSides_ = (true, g') ->
     forall radius' nSides',
       Poly.Initialize sin cos line_length0 g' radius' nSides' = (false, g')).
Proof.
  split.
  - intros a c a' H c'. apply call_on_initialized. eapply call_true_init; eassumption.
  - intros g r n g' H r' n'. apply Poly_Initialize_on_initialized.
    eapply Poly_Initialize_true; eassumption.
Qed.

End WriteOnce.

(** An isotropic distribution of 2.5 mb, then an attempt to load a table
    over it; a hexagon, then an attempt to turn it into a square. *)
Definition C5_dist : ADist.AngularDist := snd (ADist.Initialize_iso (ADist.new 0) 2.5).
Definition C5_table : Calls.InitCall :=
  Calls.InitArray (fun _ _ => 0) 3 [0; 90; 180] [1; 2; 1] 0 None.
Definition C5_hexagon : Poly.RegularPolygon :=
  snd (Poly.Initialize sin_poly cos_poly 0 Poly.new 1.0 6).

Lemma C5_initialize_write_once_witness :
  Calls.call sin_poly C5_dist C5_table = (false, C5_dist) /\
  Poly.Initialize sin_poly cos_poly 0 C5_hexagon 1.0 4 = (false, C5_hexagon).
Proof.
  split.
  - apply (proj1 (C5_initialize_write_once sin_poly cos_poly 0)
             (ADist.new 0) (Calls.InitIso 2.5)).
    reflexivity.
  - apply (proj2 (C5_initialize_write_once sin_poly cos_poly 0) Poly.new 1.0 6%Z).
    reflexivity.
Defined.

Section Sentinel.
Import ADist Calls.
Variable sin : float -> float.

(** C9.  Starting from a freshly constructed [AngularDist], after any
    sequence of [Initialize] calls none of which returned true, [Sample]
    returns the sentinel -1 whatever value the random draw gives. *)
Theorem C9_sample_sentinel (rate0 : float) (cs : list InitCall) (a : AngularDist) :
  all_failed sin (new rate0) cs = Some a ->
  forall frand, Sample a frand = (-1)%float.
Proof.
  intros H frand. apply Sample_uninitialized.
  rewrite (all_failed_init sin cs _ _ H). reflexivity.
Qed.

End Sentinel.

(** Three failing calls: a missing file, a one-point array and a negative
    isotropic cross-section. *)
Definition C9_calls : list Calls.InitCall :=
  [ Calls.InitFile (fun _ _ => 0) None 0 None;
    Calls.InitArray (fun _ _ => 0) 1 [45] [1] 0 None;
    Calls.InitIso (-3) ].

Lemma C9_sample_sentinel_witness :
  Calls.all_failed sin_poly (ADist.new 0) C9_calls = Some (ADist.new 0) /\
  ADist.Sample (ADist.new 0) 0.25 = (-1)%float.
Proof.
  split; [reflexivity|].
  apply (C9_sample_sentinel sin_poly 0 C9_calls). reflexivity.
Defined.

Section FailedInitialize.
Import ADist Calls.
Variable sin : float -> float.

(** The failures that do leave the object as it was: both non-file
    overloads, and the file overload when the object is already
    initialized, when the file cannot be opened, or when it delivers no
    pair at all. *)
Lemma failed_call_frame a c a' :
  call sin a c = (false, a') ->
  (forall junk data b t, c = InitFile junk (Some data) b t -> init a = false -> data = []) ->
  a' = a.
Proof.
  destruct c as [junk f b t | junk n an xs b t | x]; simpl; intros H Hf.
  - unfold Initialize_file in H. destruct (init a) eqn:Hi; [inversion H; reflexivity|].
    destruct f as [data|]; [|inversion H; reflexivity].
    rewrite (Hf junk data b t eq_refl eq_refl) in H. simpl in H.
    destruct (1 <? num_points a)%Z.
    + destruct (integrate_loop _ _ _ _ _ _) as [xsec integ]. discriminate.
    + inversion H. destruct a; simpl in *. congruence.
  - unfold Initialize_array in H. destruct (init a || (n <=? 1)%Z)%bool.
    + inversion H; reflexivity.
    + destruct (fill_loop _ _ _ _ _) as [theta dsig].
      destruct (integrate_loop _ _ _ _ _ _) as [xsec integ]. discriminate.
  - unfold Initialize_iso in H. destruct (init a || (x <=? 0.0))%bool.
    + inversion H; reflexivity.
    + discriminate.
Qed.

(** C4 (the code departs from the claim).  A file that holds exactly one
    data point makes the file overload return false, but the member
    [num_points] has been incremented while reading: the object is not in its
    pre-call state.  The stale count then changes what later calls do: an
    isotropic [Initialize] (of 1 mb) succeeds, yet [Sample] takes the tabulated branch
    and returns -1 on every draw, where on a fresh object the same call
    sequence samples [frand*pi]. *)
Theorem C4_failed_file_load_keeps_count (junk : nat -> nat -> float) (rate0 x y b : float)
  (t : option Target) (frand : float) :
  let failed := Initialize_file sin junk (new rate0) (Some [(x, y)]) b t in
  fst failed = false /\
  num_points (new rate0) = 0%Z /\
  num_points (snd failed) = 1%Z /\
  Sample (snd (Initialize_iso (snd failed) 1.0)) frand = (-1)%float /\
  Sample (snd (Initialize_iso (new rate0) 1.0)) frand = frand * pi.
Proof. simpl. repeat split. Qed.

End FailedInitialize.

(** *** Arrays *)

Section Arrays.
Import ADist.

Lemma store_length a : forall i v, List.length (store a i v) = List.length a.
Proof.
  induction a as [|h t IH]; intros [|i] v; simpl; auto.
Qed.

Lemma load_store_same a : forall i v, (i < List.length a)%nat -> load (store a i v) i = v.
Proof.
  unfold load. induction a as [|h t IH]; intros [|i] v H; simpl in *; try lia; auto.
  apply IH. lia.
Qed.

Lemma load_store_other a : forall i j v, i <> j -> load (store a i v) j = load a j.
Proof.
  unfold load. induction a as [|h t IH]; intros [|i] [|j] v H; simpl; auto; try congruence.
Qed.

Lemma alloc_length junk k n : List.length (alloc junk k n) = n.
Proof. unfold alloc. rewrite length_map, length_seq. reflexivity. Qed.

End Arrays.

Section Tabulated.
Import ADist Calls Trapezoid.
Variable sin : float -> float.

Lemma uint_small n : (0 <= n < 2 ^ 32)%Z -> uint n = n.
Proof. intros H. unfold uint. apply Z.mod_small. exact H. Qed.

Lemma read_loop_spec data : forall xvec yvec n,
  (0 <= n)%Z -> (n + Z.of_nat (List.length data) < 2 ^ 32)%Z ->
  read_loop data (xvec, yvec, n) =
    (xvec ++ map fst data, yvec ++ map snd data, (n + Z.of_nat (List.length data))%Z).
Proof.
  induction data as [|[x y] rest IH]; intros xvec yvec n H0 H1.
  - simpl. rewrite !app_nil_r, Z.add_0_r. reflexivity.
  - cbn [read_loop]. cbn [List.length] in H1. rewrite uint_small by lia.
    rewrite IH by lia. cbn [map fst snd List.length]. rewrite <- !app_assoc.
    cbn [app]. f_equal. lia.
Qed.

Lemma copy_loop_spec data : forall index theta dsig theta' dsig',
  copy_loop (map fst data) (map snd data) index (theta, dsig) = (theta', dsig') ->
  List.length theta' = List.length theta /\ List.length dsig' = List.length dsig /\
  (forall i, (i < List.length data)%nat -> (index + i < List.length theta)%nat ->
     load theta' (index + i) = load (map fst data) i * deg2rad) /\
  (forall i, (i < List.length data)%nat -> (index + i < List.length dsig)%nat ->
     load dsig' (index + i) = load (map snd data) i) /\
  (forall j, (j < index)%nat -> load theta' j = load theta j /\ load dsig' j = load dsig j).
Proof.
  induction data as [|[x y] rest IH]; intros index theta dsig theta' dsig' H.
  - simpl in H. inversion H; subst. repeat split; intros; simpl in *; lia.
  - cbn [map fst snd copy_loop] in H. apply IH in H.
    destruct H as (L1 & L2 & Ht & Hd & Hlow). rewrite store_length in L1, L2.
    repeat split; auto.
    + intros [|i] Hi Hb.
      * rewrite Nat.add_0_r in *. destruct (Hlow index) as [E _]; [lia|].
        rewrite E. rewrite load_store_same by lia. reflexivity.
      * replace (index + S i)%nat with (S index + i)%nat by lia.
        rewrite Ht; [reflexivity| simpl in Hi; lia | rewrite store_length; lia].
    + intros [|i] Hi Hb.
      * rewrite Nat.add_0_r in *. destruct (Hlow index) as [_ E]; [lia|].
        rewrite E. rewrite load_store_same by lia. reflexivity.
      * replace (index + S i)%nat with (S index + i)%nat by lia.
        rewrite Hd; [reflexivity| simpl in Hi; lia | rewrite store_length; lia].
    + destruct (Hlow j) as [E _]; [lia|]. rewrite E. apply load_store_other. lia.
    + destruct (Hlow j) as [_ E]; [lia|]. rewrite E. apply load_store_other. lia.
Qed.

Lemma fill_loop_spec angle_ xsection_ k : forall i theta dsig theta' dsig',
  fill_loop angle_ xsection_ k i (theta, dsig) = (theta', dsig') ->
  List.length theta' = List.length theta /\ List.length dsig' = List.length dsig /\
  (forall j, (i <= j < i + k)%nat -> (j < List.length theta)%nat ->
     load theta' j = load angle_ j * deg2rad) /\
  (forall j, (i <= j < i + k)%nat -> (j < List.length dsig)%nat ->
     load dsig' j = load xsection_ j) /\
  (forall j, (j < i)%nat -> load theta' j = load theta j /\ load dsig' j = load dsig j).
Proof.
  induction k as [|k IH]; intros i theta dsig theta' dsig' H.
  - simpl in H. inversion H; subst. repeat split; intros; lia.
  - cbn [fill_loop] in H. apply IH in H.
    destruct H as (L1 & L2 & Ht & Hd & Hlow). rewrite store_length in L1, L2.
    repeat split; auto.
    + intros j Hj Hb. destruct (Nat.eq_dec j i) as [->|Hne].
      * destruct (Hlow i) as [E _]; [lia|]. rewrite E. apply load_store_same. lia.
      * apply Ht; [lia | rewrite store_length; lia].
    + intros j Hj Hb. destruct (Nat.eq_dec j i) as [->|Hne].
      * destruct (Hlow i) as [_ E]; [lia|]. rewrite E. apply load_store_same. lia.
      * apply Hd; [lia | rewrite store_length; lia].
    + destruct (Hlow j) as [E _]; [lia|]. rewrite E. apply load_store_other. lia.
    + destruct (Hlow j) as [_ E]; [lia|]. rewrite E. apply load_store_other. lia.
Qed.

(** The integration loop accumulates the partial sums of the trapezoidal
    rule. *)
Lemma integrate_loop_spec theta dsig k : forall i xsec integ xsec' integ',
  integrate_loop sin theta dsig k i (xsec, integ) = (xsec', integ') ->
  xsec = partial_sum sin theta dsig i ->
  xsec' = partial_sum sin theta dsig (i + k) /\
  List.length integ' = List.length integ /\
  (forall j, (j <= i)%nat -> load integ' j = load integ j) /\
  (forall j, (i < j <= i + k)%nat -> (j < List.length integ)%nat ->
     load integ' j = partial_sum sin theta dsig j).
Proof.
  induction k as [|k IH]; intros i xsec integ xsec' integ' H Hx.
  - simpl in H. inversion H; subst. rewrite Nat.add_0_r. repeat split; intros; lia.
  - cbn [integrate_loop] in H. apply IH in H.
    + destruct H as (Hs & L & Hlow & Hhi). rewrite store_length in L.
      replace (S i + k)%nat with (i + S k)%nat in * by lia.
      repeat split; auto.
      * intros j Hj. rewrite Hlow by lia. apply load_store_other. lia.
      * intros j Hj Hb. destruct (Nat.eq_dec j (i + 1)) as [->|Hne].
        -- rewrite Hlow by lia. rewrite load_store_same by lia.
           replace (partial_sum sin theta dsig (i + 1))
             with (partial_sum sin theta dsig (S i)) by (f_equal; lia).
           rewrite Hx. reflexivity.
        -- apply Hhi; [lia | rewrite store_length; lia].
    + rewrite Hx. reflexivity.
Qed.

(** The common end of both tabulated overloads: the integration loop run on
    the filled arrays. *)
Lemma integrated_table theta dsig junk (n : Z) xsec integ angles xsections
  com rate_ :
  (1 < n < 2 ^ 32)%Z ->
  List.length angles = Z.to_nat n -> List.length xsections = Z.to_nat n ->
  List.length theta = Z.to_nat n -> List.length dsig = Z.to_nat n ->
  (forall i, (i < Z.to_nat n)%nat ->
     load theta i = load angles i * deg2rad /\ load dsig i = load xsections i) ->
  integrate_loop sin theta dsig (Z.to_nat (uint (n - 1))) 0
    (0.0, store (alloc junk 2 (Z.to_nat n)) 0 0.0) = (xsec, integ) ->
  com = mkAngularDist (Some theta) (Some dsig) (Some integ) xsec rate_ n true ->
  tabulated sin com angles xsections.
Proof.
  intros Hn La Lx L1 L2 Hconv Hint ->.
  rewrite uint_small in Hint by lia.
  apply integrate_loop_spec in Hint; [|reflexivity].
  destruct Hint as (Hs & L & Hlow & Hhi).
  rewrite store_length, alloc_length in L.
  rewrite store_length, alloc_length in Hhi.
  assert (HN : Z.to_nat (n - 1) = (Z.to_nat n - 1)%nat) by lia.
  assert (H2 : (2 <= Z.to_nat n)%nat) by lia.
  rewrite HN in *. cbn [Nat.add] in *.
  exists theta, dsig, integ. cbn [com_theta dsigma_domega integral num_points reaction_xsection].
  repeat apply conj; auto.
  - rewrite Hlow by lia. apply load_store_same. rewrite alloc_length. lia.
  - intros i Hi. apply Hhi; lia.
  - rewrite Hs. apply Hhi; lia.
Qed.

Lemma load_firstn (l : list float) k i : (i < k)%nat -> load (firstn k l) i = load l i.
Proof.
  unfold load. revert k i. induction l as [|v l IH]; intros [|k] [|i] H; simpl; auto; try lia.
  apply IH. lia.
Qed.

(** A successful call that starts with a clean count leaves the table it
    was given, integrated by the trapezoidal rule. *)
Lemma clean_call_tabulated (a : AngularDist) (c : InitCall) (a' : AngularDist)
  (angles xsections : list float) :
  call sin a c = (true, a') ->
  table_of c = Some (angles, xsections) ->
  clean_count a c ->
  (Z.of_nat (List.length angles) < 2 ^ 32)%Z ->
  num_points a' = Z.of_nat (List.length angles) /\ (2 <= num_points a')%Z /\
  tabulated sin a' angles xsections.
Proof.
  intros Hc Ht Hclean Hn.
  destruct c as [junk [data|] b t | junk m an xs b t | x]; simpl in Hc, Ht, Hclean;
    try discriminate.
  - (* the file overload *)
    inversion Ht; subst angles xsections; clear Ht. rewrite length_map in Hn.
    unfold Initialize_file in Hc. destruct (init a); [discriminate|].
    rewrite Hclean in Hc.
    rewrite read_loop_spec in Hc by lia. cbn [app Z.add] in Hc.
    set (n := Z.of_nat (List.length data)) in *.
    destruct (1 <? n)%Z eqn:H1; [|discriminate].
    apply Z.ltb_lt in H1.
    destruct (copy_loop _ _ _ _) as [theta dsig] eqn:Hcopy.
    destruct (integrate_loop _ _ _ _ _ _) as [xsec integ] eqn:Hint.
    apply copy_loop_spec in Hcopy. destruct Hcopy as (L1 & L2 & Hth & Hds & _).
    rewrite alloc_length in L1, L2, Hth, Hds.
    inversion Hc as [Ha]. cbn [num_points]. rewrite length_map. fold n.
    split; [reflexivity|]. split; [lia|].
    eapply (integrated_table theta dsig junk n xsec integ);
      try eassumption; try reflexivity; try lia;
      try (rewrite length_map; unfold n; lia).
    intros i Hi. assert (Hd : (i < List.length data)%nat) by (unfold n in Hi; lia). split.
    + apply (Hth i); assumption.
    + apply (Hds i); assumption.
  - (* the array overload *)
    inversion Ht; subst angles xsections; clear Ht. destruct Hclean as [Ka Kx].
    unfold Initialize_array in Hc.
    destruct (init a); [discriminate|]. cbn [orb] in Hc.
    destruct (m <=? 1)%Z eqn:H1; [discriminate|].
    apply Z.leb_gt in H1.
    rewrite length_firstn in Hn.
    assert (La : List.length (firstn (Z.to_nat m) an) = Z.to_nat m)
      by (rewrite length_firstn; lia).
    assert (Lx : List.length (firstn (Z.to_nat m) xs) = Z.to_nat m)
      by (rewrite length_firstn; lia).
    destruct (fill_loop _ _ _ _ _) as [theta dsig] eqn:Hfill.
    destruct (integrate_loop _ _ _ _ _ _) as [xsec integ] eqn:Hint.
    apply fill_loop_spec in Hfill. destruct Hfill as (L1 & L2 & Hth & Hds & _).
    rewrite alloc_length in L1, L2, Hth, Hds.
    inversion Hc as [Ha]. cbn [num_points]. rewrite La.
    split; [lia|]. split; [lia|].
    eapply (integrated_table theta dsig junk m xsec integ);
      try eassumption; try reflexivity; try lia.
    intros i Hi. rewrite !load_firstn by lia. split; [apply Hth | apply Hds]; lia.
Qed.

(** After a failed load of a one-pair file, a load of the two-pair table
    [(0, 1), (90, 1)] counts three points: the third entry of each array
    is never written, and the total includes the bin it makes. *)
Lemma stale_count_table (junk1 junk2 : nat -> nat -> float) (rate0 x y b1 b2 : float)
  (t1 t2 : option Target) :
  let failed := Initialize_file sin junk1 (new rate0) (Some [(x, y)]) b1 t1 in
  let r := Initialize_file sin junk2 (snd failed) (Some [(0, 1); (90, 1)]) b2 t2 in
  let theta := [0 * deg2rad; 90 * deg2rad; junk2 0%nat 2%nat] in
  let dsig := [1; 1; junk2 1%nat 2%nat] in
  fst failed = false /\ num_points (snd failed) = 1%Z /\
  fst r = true /\ num_points (snd r) = 3%Z /\
  com_theta (snd r) = Some theta /\ dsigma_domega (snd r) = Some dsig /\
  reaction_xsection (snd r) = 0.0 + bin sin theta dsig 0 + bin sin theta dsig 1 /\
  ~ tabulated sin (snd r) [0; 90] [1; 1].
Proof.
  cbv zeta. repeat apply conj; try reflexivity.
  intros (theta & dsig & integ & _ & _ & _ & H). cbv zeta in H.
  destruct H as (La & _). discriminate La.
Qed.

End Tabulated.

(** The table [(0, 1), (90, 1)]: an isotropic cross-section of 1 mb/sr over
    the forward hemisphere. *)
Definition C8_table : list (float * float) := [(0, 1); (90, 1)].

(** Its load from a file, with allocations that come zeroed. *)
Definition C8_file : Calls.InitCall := Calls.InitFile (fun _ _ => 0) (Some C8_table) 0 None.

(** The same table given as two arrays. *)
Definition C8_arrays : Calls.InitCall :=
  Calls.InitArray (fun _ _ => 0) 2 (map fst C8_table) (map snd C8_table) 0 None.

(** A file that holds the single pair [(45, 1)]. *)
Definition C8_short_file : Calls.InitCall :=
  Calls.InitFile (fun _ _ => 0) (Some [(45, 1)]) 0 None.

(** C8 (the code departs from the claim).

    - The claim holds of every successful call that starts with a clean
      count: the array overload given arrays of at least [num_points_]
      entries, and the file overload on an object whose member
      [num_points] is 0, as it is after construction.  The [n >= 2] points
      are then the pairs given, each angle is converted from degrees to
      radians, [integral[0] = 0], [integral[i+1]] is the sum of the
      trapezoidal-rule bins [0.5*(theta_{i+1}-theta_i)*(y_{i+1}+y_i)*2*pi] up
      to bin [i] (with [y_i = dsigma_domega[i]*sin(theta_i)]), and the total
      reaction cross-section is the sum of all bins and the last entry of
      [integral].
    - It fails of the file overload after a failed load has left its count
      behind.  The one-pair file fails and leaves [num_points = 1]; the
      two-pair table [(0, 1), (90, 1)] then loads successfully with
      [num_points = 3]: the third entry of [com_theta] and [dsigma_domega]
      is what the allocation held, and the total is the sum of the one bin
      of the table and a second bin made of that entry.
    - With allocations that come zeroed the total is 0, where the same
      table gives 4.9348022018335973 on a fresh object, through either
      overload. *)
Theorem C8_integral_unless_stale_count :
  (forall sin a c a' angles xsections,
     Calls.call sin a c = (true, a') ->
     Trapezoid.table_of c = Some (angles, xsections) ->
     Trapezoid.clean_count a c ->
     (Z.of_nat (List.length angles) < 2 ^ 32)%Z ->
     ADist.num_points a' = Z.of_nat (List.length angles) /\ (2 <= ADist.num_points a')%Z /\
     Trapezoid.tabulated sin a' angles xsections) /\
  (forall sin junk1 junk2 rate0 x y b1 b2 t1 t2,
     let failed := ADist.Initialize_file sin junk1 (ADist.new rate0) (Some [(x, y)]) b1 t1 in
     let r := ADist.Initialize_file sin junk2 (snd failed) (Some C8_table) b2 t2 in
     let theta := [0 * deg2rad; 90 * deg2rad; junk2 0%nat 2%nat] in
     let dsig := [1; 1; junk2 1%nat 2%nat] in
     fst failed = false /\ ADist.num_points (snd failed) = 1%Z /\
     fst r = true /\ ADist.num_points (snd r) = 3%Z /\
     ADist.com_theta (snd r) = Some theta /\ ADist.dsigma_domega (snd r) = Some dsig /\
     ADist.reaction_xsection (snd r) =
       0.0 + Trapezoid.bin sin theta dsig 0 + Trapezoid.bin sin theta dsig 1 /\
     ~ Trapezoid.tabulated sin (snd r) (map fst C8_table) (map snd C8_table)) /\
  (let fresh := ADist.new 0 in
   let stale := snd (Calls.call sin_poly fresh C8_short_file) in
   fst (Calls.call sin_poly fresh C8_file) = true /\
   fst (Calls.call sin_poly fresh C8_arrays) = true /\
   fst (Calls.call sin_poly stale C8_file) = true /\
   ADist.reaction_xsection (snd (Calls.call sin_poly fresh C8_file)) = 4.9348022018335973 /\
   ADist.reaction_xsection (snd (Calls.call sin_poly fresh C8_arrays)) = 4.9348022018335973 /\
   ADist.reaction_xsection (snd (Calls.call sin_poly stale C8_file)) = 0).
Proof.
  split; [|split].
  - intros sin a c a' angles xsections. apply clean_call_tabulated.
  - intros sin junk1 junk2 rate0 x y b1 b2 t1 t2.
    apply (stale_count_table sin junk1 junk2 rate0 x y b1 b2 t1 t2).
  - vm_compute. repeat split.
Qed.

(** On a fresh object both overloads leave the table [(0, 1), (90, 1)]
    integrated as the claim says. *)
Lemma C8_integral_unless_stale_count_witness :
  (ADist.num_points (snd (Calls.call sin_poly (ADist.new 0) C8_file)) = 2%Z /\
   (2 <= ADist.num_points (snd (Calls.call sin_poly (ADist.new 0) C8_file)))%Z /\
   Trapezoid.tabulated sin_poly (snd (Calls.call sin_poly (ADist.new 0) C8_file))
     [0; 90] [1; 1]) /\
  (ADist.num_points (snd (Calls.call sin_poly (ADist.new 0) C8_arrays)) = 2%Z /\
   (2 <= ADist.num_points (snd (Calls.call sin_poly (ADist.new 0) C8_arrays)))%Z /\
   Trapezoid.tabulated sin_poly (snd (Calls.call sin_poly (ADist.new 0) C8_arrays))
     [0; 90] [1; 1]).
Proof.
  split.
  - apply (proj1 C8_integral_unless_stale_count sin_poly (ADist.new 0) C8_file
             (snd (Calls.call sin_poly (ADist.new 0) C8_file)) [0; 90] [1; 1]).
    + vm_compute. reflexivity.
    + reflexivity.
    + reflexivity.
    + simpl. lia.
  - apply (proj1 C8_integral_unless_stale_count sin_poly (ADist.new 0) C8_arrays
             (snd (Calls.call sin_poly (ADist.new 0) C8_arrays)) [0; 90] [1; 1]).
    + vm_compute. reflexivity.
    + reflexivity.
    + simpl. lia.
    + simpl. lia.
Defined.

Section Overloads.
Import ADist Calls Trapezoid.
Variable sin : float -> float.

Lemma load_ext (a b : list float) :
  List.length a = List.length b ->
  (forall i, (i < List.length a)%nat -> load a i = load b i) -> a = b.
Proof. intros L H. apply (nth_ext a b 0 0 L). exact H. Qed.

(** On a freshly constructed object the two tabulated overloads, given the
    same table, fill the same arrays and compute the same reaction
    cross-section; the rate is the one field they compute differently: the
    file overload scales the cross-section by 1e-27, the array overload does
    not. *)
Lemma overloads_agree_up_to_rate junk (rate0 : float) (data : list (float * float))
  (b : float) (t : option Target) (af : AngularDist) :
  (Z.of_nat (List.length data) < 2 ^ 32)%Z ->
  Initialize_file sin junk (new rate0) (Some data) b t = (true, af) ->
  exists aa,
    Initialize_array sin junk (new rate0) (Z.of_nat (List.length data))
      (map fst data) (map snd data) b t = (true, aa) /\
    com_theta af = com_theta aa /\ dsigma_domega af = dsigma_domega aa /\
    integral af = integral aa /\ reaction_xsection af = reaction_xsection aa /\
    num_points af = num_points aa /\ init af = init aa /\
    rate af = match t with
              | Some t => reaction_xsection af * 1e-27 * b * GetNumberDensity t
              | None => 0
              end /\
    rate aa = match t with
              | Some t => reaction_xsection aa * b * GetNumberDensity t
              | None => 0
              end.
Proof.
  intros Hn Hf. unfold Initialize_file in Hf. cbn [init new] in Hf.
  rewrite read_loop_spec in Hf by (cbn [num_points new]; lia).
  cbn [app num_points new Z.add] in Hf.
  set (n := Z.of_nat (List.length data)) in *.
  destruct (1 <? n)%Z eqn:H1; [|discriminate]. apply Z.ltb_lt in H1.
  unfold Initialize_array. cbn [init new orb].
  replace (n <=? 1)%Z with false by (symmetry; apply Z.leb_gt; exact H1).
  destruct (copy_loop _ _ _ _) as [theta dsig] eqn:Hcopy.
  destruct (fill_loop _ _ _ _ _) as [theta2 dsig2] eqn:Hfill.
  apply copy_loop_spec in Hcopy. destruct Hcopy as (L1 & L2 & Hth & Hds & _).
  apply fill_loop_spec in Hfill. destruct Hfill as (M1 & M2 & Gth & Gds & _).
  rewrite alloc_length in *.
  assert (Hlen : Z.to_nat n = List.length data) by (subst n; lia).
  assert (E1 : theta = theta2).
  { apply load_ext; [congruence|]. intros i Hi. rewrite L1 in Hi.
    change (load theta i) with (load theta (0 + i)).
    rewrite (Hth i) by lia. rewrite Gth by lia. reflexivity. }
  assert (E2 : dsig = dsig2).
  { apply load_ext; [congruence|]. intros i Hi. rewrite L2 in Hi.
    change (load dsig i) with (load dsig (0 + i)).
    rewrite (Hds i) by lia. rewrite Gds by lia. reflexivity. }
  subst theta2 dsig2.
  destruct (integrate_loop _ _ _ _ _ _) as [xsec integ] eqn:Hint.
  inversion Hf; subst af; clear Hf. eexists. split; [reflexivity|].
  cbn. repeat apply conj; reflexivity.
Qed.

End Overloads.

(** C10 (the code departs from the claim).  The same two-point table
    (0 and 90 degrees, 1 mb/sr each), the same beam intensity 3 and the same
    target of number density 2, given to the file overload and to the array
    overload of a fresh object: the arrays, the reaction cross-section and
    the number of points agree, but the file overload stores the rate
    [reaction_xsection*1e-27*3*2] and the array overload the rate
    [reaction_xsection*3*2], which are different numbers. *)
Theorem C10_overloads_differ_in_rate :
  let t := Some (ADist.mkTarget 2) in
  let af := snd (ADist.Initialize_file sin_poly (fun _ _ => 0) (ADist.new 0)
                   (Some [(0, 1); (90, 1)]) 3 t) in
  let aa := snd (ADist.Initialize_array sin_poly (fun _ _ => 0) (ADist.new 0)
                   2 [0; 90] [1; 1] 3 t) in
  ADist.com_theta af = ADist.com_theta aa /\
  ADist.dsigma_domega af = ADist.dsigma_domega aa /\
  ADist.integral af = ADist.integral aa /\
  ADist.reaction_xsection af = ADist.reaction_xsection aa /\
  ADist.rate af = ADist.reaction_xsection af * 1e-27 * 3 * 2 /\
  ADist.rate aa = ADist.reaction_xsection aa * 3 * 2 /\
  (ADist.rate af =? ADist.rate aa) = false.
Proof. vm_compute. repeat split. Qed.

(** ** Part IV: the detector primitive *)

Section FaceLoop.
Import Prim.
Variables offset_ direction_ : Vector3.

Lemma refresh_need_set p : need_set (refresh p) = false.
Proof. unfold refresh. destruct (need_set p) eqn:E; [reflexivity | exact E]. Qed.

Lemma refresh_fixed q : need_set q = false -> refresh q = q.
Proof. intros H. unfold refresh. rewrite H. reflexivity. Qed.

(** Once the face coordinates are current, [PlaneIntersect] leaves the
    primitive alone. *)
Lemma PlaneIntersect_current q i :
  need_set q = false ->
  PlaneIntersect q offset_ direction_ i =
    (q, geb (plane_t q offset_ direction_ i) 0, crossing q offset_ direction_ i).
Proof. intros H. unfold PlaneIntersect. rewrite (refresh_fixed q H). reflexivity. Qed.

(** One iteration records the face if it is struck and does nothing
    otherwise. *)
Lemma face_iteration_current q face_count h i :
  need_set q = false ->
  face_iteration offset_ direction_ (q, face_count, h) i =
    if face_struck q offset_ direction_ i
    then (q, fst (record_face q offset_ direction_ (face_count, h) i),
             snd (record_face q offset_ direction_ (face_count, h) i))
    else (q, face_count, h).
Proof.
  intros H. unfold face_iteration. rewrite (PlaneIntersect_current q i H).
  unfold face_struck, in_bounds, record_face.
  destruct (geb (plane_t q offset_ direction_ i) 0); [|reflexivity].
  cbn [andb]. destruct (GetLocalCoords q (crossing q offset_ direction_ i)) as [[a b] c].
  destruct (CheckBounds q i a b c); reflexivity.
Qed.

(** The loop over any list of faces is the recording of the struck ones. *)
Lemma face_loop_filter q (faces : list nat) : forall face_count h,
  need_set q = false ->
  fold_left (face_iteration offset_ direction_) faces (q, face_count, h) =
    (q, fst (fold_left (record_face q offset_ direction_)
               (filter (face_struck q offset_ direction_) faces) (face_count, h)),
        snd (fold_left (record_face q offset_ direction_)
               (filter (face_struck q offset_ direction_) faces) (face_count, h))).
Proof.
  induction faces as [|i faces IH]; intros face_count h H; [reflexivity|].
  cbn [fold_left filter]. rewrite (face_iteration_current q face_count h i H).
  destruct (face_struck q offset_ direction_ i).
  - rewrite (IH _ _ H). cbn [fold_left].
    destruct (record_face q offset_ direction_ (face_count, h) i); reflexivity.
  - apply IH, H.
Qed.

Lemma record_face_count q (faces : list nat) : forall face_count h,
  fst (fold_left (record_face q offset_ direction_) faces (face_count, h)) =
    (face_count + List.length faces)%nat.
Proof.
  induction faces as [|i faces IH]; intros face_count h; cbn [fold_left List.length].
  - cbn [fst]. lia.
  - unfold record_face at 2.
    destruct (GetLocalCoords q (crossing q offset_ direction_ i)) as [[a b] c].
    rewrite IH. lia.
Qed.

(** From the third struck face on, the out-parameters are left alone. *)
Lemma record_face_late q (faces : list nat) : forall face_count h,
  (2 <= face_count)%nat ->
  snd (fold_left (record_face q offset_ direction_) faces (face_count, h)) = h.
Proof.
  induction faces as [|i faces IH]; intros face_count h H; cbn [fold_left]; [reflexivity|].
  unfold record_face at 2.
  destruct (GetLocalCoords q (crossing q offset_ direction_ i)) as [[a b] c].
  destruct face_count as [|[|n]]; try lia. apply IH. lia.
Qed.

(** [IntersectPrimitive] in terms of the struck faces. *)
Lemma IntersectPrimitive_struck p h :
  let q := refresh p in
  IntersectPrimitive p offset_ direction_ h =
    (q,
     snd (fold_left (record_face q offset_ direction_) (struck_faces q offset_ direction_) (0%nat, h)),
     (0 <? List.length (struck_faces q offset_ direction_))%nat).
Proof.
  intros q. unfold IntersectPrimitive, face_loop. fold q.
  rewrite (face_loop_filter q (seq 0 6) 0 h (refresh_need_set p)).
  fold (struck_faces q offset_ direction_). rewrite record_face_count. reflexivity.
Qed.

(** C6.  [IntersectPrimitive] returns true exactly when at least one of the
    six faces is struck within bounds: the plane of some face [i < 6] is
    crossed at a ray parameter [t >= 0] and the crossing point, in local
    coordinates, passes that face's [CheckBounds].  In particular, a ray
    whose crossing points all fall outside the bounds of their faces
    reports no intersection. *)
Theorem C6_hit_iff_some_face_struck (p : Primitive) (h : Hit) :
  let q := refresh p in
  let hit := snd (IntersectPrimitive p offset_ direction_ h) in
  (hit = true <->
     exists i, (i < 6)%nat /\
       geb (plane_t q offset_ direction_ i) 0 = true /\
       in_bounds q i (crossing q offset_ direction_ i) = true) /\
  ((forall i, (i < 6)%nat -> in_bounds q i (crossing q offset_ direction_ i) = false) ->
     hit = false).
Proof.
  intros q hit.
  assert (Hhit : hit = (0 <? List.length (struck_faces q offset_ direction_))%nat).
  { unfold hit. rewrite IntersectPrimitive_struck. reflexivity. }
  assert (Hiff : hit = true <->
     exists i, (i < 6)%nat /\
       geb (plane_t q offset_ direction_ i) 0 = true /\
       in_bounds q i (crossing q offset_ direction_ i) = true).
  { rewrite Hhit. split.
    - intros H. apply Nat.ltb_lt in H.
      destruct (struck_faces q offset_ direction_) as [|i rest] eqn:E; [simpl in H; lia|].
      assert (Hin : In i (struck_faces q offset_ direction_)) by (rewrite E; left; reflexivity).
      unfold struck_faces in Hin. apply filter_In in Hin. destruct Hin as [Hs Hf].
      apply in_seq in Hs. unfold face_struck in Hf. apply andb_true_iff in Hf.
      exists i. split; [lia | exact Hf].
    - intros (i & Hi & Ht & Hb). apply Nat.ltb_lt.
      assert (Hin : In i (struck_faces q offset_ direction_)).
      { unfold struck_faces. apply filter_In. split; [apply in_seq; lia|].
        unfold face_struck. rewrite Ht, Hb. reflexivity. }
      destruct (struck_faces q offset_ direction_); [contradiction | simpl; lia]. }
  split; [exact Hiff|].
  intros Hout. apply not_true_is_false. intros E.
  apply Hiff in E. destruct E as (i & Hi & _ & Hb). rewrite (Hout i Hi) in Hb. discriminate.
Qed.

End FaceLoop.

Section Bounds.
Import Prim.

(** A coordinate on the boundary of its interval, or inside it, passes the
    two comparisons of [CheckBounds]. *)
Lemma touches_in_range extent v :
  (0 <=? extent) = true -> touches extent v ->
  (geb v ((- extent) / 2.0) && (v <=? extent / 2.0))%bool = true.
Proof.
  intros H0 Ht. pose proof (half_nonneg extent H0) as Hh.
  unfold geb in *.
  destruct Ht as [-> | -> | Hlo Hhi]; rewrite ?div_opp_l.
  - rewrite (neg_le_self _ Hh), (leb_refl _ (nonneg_not_nan _ Hh)). reflexivity.
  - rewrite (leb_refl _ (opp_not_nan _ (nonneg_not_nan _ Hh))), (neg_le_self _ Hh). reflexivity.
  - unfold geb in Hlo. rewrite div_opp_l in Hlo. rewrite Hlo, Hhi. reflexivity.
Qed.

(** C7.  The bounds test is inclusive.  For a primitive with non-negative
    extents and every one of its six faces, a local point each of whose
    coordinates lies on an end of its interval (at [extent/2] or at
    [-extent/2], as the code computes them) or inside it passes
    [CheckBounds]: points on an edge or at a corner of a face count as
    hits. *)
Theorem C7_bounds_inclusive (p : Primitive) (face_ : nat) (x_ y_ z_ : float) :
  (face_ < 6)%nat ->
  (0 <=? width p) = true -> (0 <=? length p) = true -> (0 <=? depth p) = true ->
  touches (width p) x_ -> touches (length p) y_ -> touches (depth p) z_ ->
  CheckBounds p face_ x_ y_ z_ = true.
Proof.
  intros Hf Hw Hl Hd Tx Ty Tz.
  pose proof (touches_in_range _ _ Hw Tx) as Ex.
  pose proof (touches_in_range _ _ Hl Ty) as Ey.
  pose proof (touches_in_range _ _ Hd Tz) as Ez.
  destruct face_ as [|[|[|[|[|[|n]]]]]]; try lia; cbn [CheckBounds];
    rewrite ?Ex, ?Ey, ?Ez; reflexivity.
Qed.

End Bounds.

(** The corner [(+width/2, -length/2)] of the top face of the default
    primitive. *)
Lemma C7_bounds_inclusive_witness :
  Prim.CheckBounds Prim.new 4 0.5 (-0.5) 0.5 = true.
Proof.
  apply (C7_bounds_inclusive Prim.new 4 0.5 (-0.5) 0.5).
  - lia.
  - reflexivity.
  - reflexivity.
  - reflexivity.
  - apply Prim.at_upper. reflexivity.
  - apply Prim.at_lower. reflexivity.
  - apply Prim.at_upper. reflexivity.
Defined.

Section ParallelRay.
Import Prim.
Variables offset_ direction_ : Vector3.

(** A vector all of whose components are infinite or NaN. *)
Definition unbounded (v : Vector3) : Prop :=
  SFnonfinite (Prim2SF (x v)) = true /\ SFnonfinite (Prim2SF (y v)) = true /\
  SFnonfinite (Prim2SF (z v)) = true.

Lemma Dot_unbounded v axis : unbounded v -> SFnonfinite (Prim2SF (Dot v axis)) = true.
Proof.
  intros (Hx & Hy & Hz). unfold Dot.
  apply add_nonfinite_r, mul_nonfinite_l, Hz.
Qed.

(** With a zero denominator the crossing point has no finite coordinate. *)
Lemma parallel_crossing_unbounded q i :
  (Dot direction_ (GetUnitVector q i) =? 0) = true ->
  unbounded (crossing q offset_ direction_ i).
Proof.
  intros Hd. unfold crossing, plane_t.
  set (t := _ / Dot direction_ (GetUnitVector q i)).
  assert (Ht : SFnonfinite (Prim2SF t) = true) by (apply div_by_zero_nonfinite, Hd).
  repeat split; cbn [add scale x y z]; apply add_nonfinite_r, mul_nonfinite_r, Ht.
Qed.

Lemma unbounded_out_of_bounds q i P :
  is_finite (width q / 2) = true -> is_finite (length q / 2) = true ->
  is_finite (depth q / 2) = true ->
  unbounded P -> in_bounds q i P = false.
Proof.
  intros Fw Fl Fd (Hx & Hy & Hz). unfold in_bounds, GetLocalCoords.
  assert (U : unbounded (sub P (position q))).
  { repeat split; cbn [sub x y z]; apply sub_nonfinite_l; assumption. }
  pose proof (Dot_unbounded _ (detX q) U) as Ux.
  pose proof (Dot_unbounded _ (detY q) U) as Uy.
  pose proof (Dot_unbounded _ (detZ q) U) as Uz.
  assert (Bw : forall c, SFnonfinite (Prim2SF c) = true ->
            (geb c ((- width q) / 2.0) && (c <=? width q / 2.0))%bool = false).
  { intros c Hc. apply nonfinite_out_of_bounds; auto.
    rewrite div_opp_l. apply opp_finite, Fw. }
  assert (Bd : forall c, SFnonfinite (Prim2SF c) = true ->
            (geb c ((- depth q) / 2.0) && (c <=? depth q / 2.0))%bool = false).
  { intros c Hc. apply nonfinite_out_of_bounds; auto.
    rewrite div_opp_l. apply opp_finite, Fd. }
  destruct i as [|[|[|[|[|[|n]]]]]]; cbn [CheckBounds];
    rewrite ?(Bw _ Ux), ?(Bd _ Uz); reflexivity.
Qed.

(** C1, as the code has it.  [PlaneIntersect] has no guard for a ray
    parallel to the plane of the face: the quotient by the zero
    denominator is an infinity or NaN, and so is every coordinate of the
    point it computes.  The face is nevertheless never counted as struck
    when the extents of the primitive are finite, because such a point
    fails [CheckBounds]: the iteration of the face loop leaves the hit
    count and the out-parameters as they were. *)
Theorem C1_parallel_face_not_struck (p : Primitive) (i face_count : nat) (h : Hit) :
  (Dot direction_ (GetUnitVector p i) =? 0) = true ->
  is_finite (width p) = true -> is_finite (length p) = true ->
  is_finite (depth p) = true ->
  is_finite (x (snd (PlaneIntersect p offset_ direction_ i))) = false /\
  is_finite (y (snd (PlaneIntersect p offset_ direction_ i))) = false /\
  is_finite (z (snd (PlaneIntersect p offset_ direction_ i))) = false /\
  face_struck (refresh p) offset_ direction_ i = false /\
  face_iteration offset_ direction_ (p, face_count, h) i = (refresh p, face_count, h).
Proof.
  intros Hd Fw Fl Fd.
  apply half_finite in Fw, Fl, Fd.
  set (q := refresh p).
  assert (Hq : need_set q = false) by apply refresh_need_set.
  assert (Hu : unbounded (crossing q offset_ direction_ i)).
  { apply parallel_crossing_unbounded.
    replace (GetUnitVector q i) with (GetUnitVector p i); [exact Hd|].
    unfold q, refresh. destruct (need_set p); reflexivity. }
  assert (Hs : face_struck q offset_ direction_ i = false).
  { unfold face_struck. rewrite (unbounded_out_of_bounds q i).
    - apply andb_false_r.
    - unfold q, refresh. destruct (need_set p); exact Fw.
    - unfold q, refresh. destruct (need_set p); exact Fl.
    - unfold q, refresh. destruct (need_set p); exact Fd.
    - exact Hu. }
  assert (HP : snd (PlaneIntersect p offset_ direction_ i) = crossing q offset_ direction_ i)
    by reflexivity.
  rewrite HP. destruct Hu as (Hx & Hy & Hz).
  rewrite !is_finite_spec, Hx, Hy, Hz.
  repeat apply conj; try reflexivity; [exact Hs|].
  unfold face_iteration.
  replace (PlaneIntersect p offset_ direction_ i)
    with (PlaneIntersect q offset_ direction_ i)
    by (unfold PlaneIntersect; fold q; rewrite (refresh_fixed q Hq); reflexivity).
  fold (face_iteration offset_ direction_ (q, face_count, h) i).
  rewrite (face_iteration_current offset_ direction_ q face_count h i Hq), Hs. reflexivity.
Qed.

End ParallelRay.

(** C1, as stated, fails.  The default primitive, the ray from [(0,0,-10)]
    along [+Z] and the right face (identifier 1), whose plane the ray is
    exactly parallel to: [PlaneIntersect] reports the plane as crossed and
    returns a point with an infinite coordinate; [GetApparentThickness]
    hands that point back to its caller in [intersect1]. *)
Lemma C1_parallel_plane_reported_crossed :
  (Dot ray_direction (Prim.GetUnitVector Prim.new 1) =? 0) = true /\
  Prim.PlaneIntersect Prim.new ray_origin ray_direction 1 =
    (Prim.refresh Prim.new, true, mkVector3 nan nan infinity) /\
  Prim.GetApparentThickness Prim.new ray_origin ray_direction 1 3 zero zero =
    (Prim.refresh Prim.new, (-1)%float, mkVector3 nan nan infinity, zero).
Proof. vm_compute. repeat split. Qed.

Lemma C1_parallel_face_not_struck_witness :
  is_finite (x (snd (Prim.PlaneIntersect Prim.new ray_origin ray_direction 1))) = false /\
  is_finite (y (snd (Prim.PlaneIntersect Prim.new ray_origin ray_direction 1))) = false /\
  is_finite (z (snd (Prim.PlaneIntersect Prim.new ray_origin ray_direction 1))) = false /\
  Prim.face_struck (Prim.refresh Prim.new) ray_origin ray_direction 1 = false /\
  Prim.face_iteration ray_origin ray_direction (Prim.new, 1%nat, no_hit) 1 =
    (Prim.refresh Prim.new, 1%nat, no_hit).
Proof.
  apply (C1_parallel_face_not_struck ray_origin ray_direction Prim.new 1 1 no_hit);
    reflexivity.
Defined.

(** A bar of length 1, width 2 and depth 1 centred at [(3,0,0)], and the
    direction [(8,0,1)] of a ray that starts at the global origin: the ray
    enters the bar through face 3 at [(2,0,0.25)] and leaves it at
    [(4,0,0.5)], on the edge that faces 1 and 2 share. *)
Definition C3_bar : Prim.Primitive :=
  Prim.SetPosition (Prim.SetSize_explicit Prim.new 1.0 2.0 1.0) 3 0 0.
Definition C3_direction : Vector3 := mkVector3 8 0 1.

(** The ray from [(-1.5,0,1)] with direction [(1,0,-0.75)], which enters the
    default cube through face 3 at [(-0.5,0,0.25)] and leaves it at
    [(0.5,0,-0.5)], on the edge that faces 0 and 1 share. *)
Definition C3_offset : Vector3 := mkVector3 (-1.5) 0 1.
Definition C3_slope : Vector3 := mkVector3 1 0 (-0.75).

(** A unit cube centred at [(0,0,-3)]: the axial ray enters it through the
    front face at [z = -3.5] and leaves it through the back face at
    [z = -2.5]. *)
Definition C3_cube : Prim.Primitive := Prim.SetPosition Prim.new 0 0 (-3).

(** C3 (the code departs from the claim).  The loop records the first two
    struck faces in the order of their identifiers and compares these two
    only, by their distance from the global origin; a third struck face is
    counted and otherwise ignored.

    - The bar [C3_bar] and the ray from the global origin along
      [(8,0,1)]: three faces pass the bounds test, 1, 2 and 3.  The code
      returns [P1 = P2 = (4,0,0.5)], the point where the ray leaves the bar,
      and the local coordinates [(1,0,0.5)] of that point.  The point on
      face 3, [(2,0,0.25)], where the ray enters, is nearer to the origin
      (which is also where the ray starts) than both; its local coordinates
      [(-1,0,0.25)] are not what is returned.
    - The default cube and the ray from [(-1.5,0,1)] along [(1,0,-0.75)]:
      faces 0, 1 and 3 are struck, the code returns [P1 = P2 = (0.5,0,-0.5)]
      and its local coordinates, and the point [(-0.5,0,0.25)] on face 3 is
      nearer both to the global origin and to the start of the ray.
    - With two struck faces the choice is by distance from the global
      origin, not from the start of the ray: for [C3_cube] and the axial
      ray the coordinates returned are those of the point where the ray
      leaves the cube, [(0,0,0.5)], the farther of the two from where the
      ray starts. *)
Theorem C3_nearer_hit_ignored :
  (let q := Prim.refresh C3_bar in
   let r := Prim.IntersectPrimitive C3_bar zero C3_direction no_hit in
   let h' := snd (fst r) in
   let entry := Prim.crossing q zero C3_direction 3 in
   Prim.struck_faces q zero C3_direction = [1; 2; 3]%nat /\
   snd r = true /\
   Prim.face1 h' = 1%Z /\ Prim.face2 h' = 2%Z /\
   Prim.P1 h' = mkVector3 4 0 0.5 /\ Prim.P2 h' = mkVector3 4 0 0.5 /\
   (Prim.px h', Prim.py h', Prim.pz h') = (1, 0, 0.5) /\
   entry = mkVector3 2 0 0.25 /\
   Prim.GetLocalCoords q entry = (-1, 0, 0.25) /\
   (Length entry <? Length (Prim.P1 h')) = true /\
   (Length entry <? Length (Prim.P2 h')) = true /\
   (Dist3d zero entry <? Dist3d zero (Prim.P1 h')) = true /\
   (Prim.px h' =? -1) = false) /\
  (let q := Prim.refresh Prim.new in
   let r := Prim.IntersectPrimitive Prim.new C3_offset C3_slope no_hit in
   let h' := snd (fst r) in
   let entry := Prim.crossing q C3_offset C3_slope 3 in
   Prim.struck_faces q C3_offset C3_slope = [0; 1; 3]%nat /\
   snd r = true /\
   Prim.face1 h' = 0%Z /\ Prim.face2 h' = 1%Z /\
   Prim.P1 h' = mkVector3 0.5 0 (-0.5) /\ Prim.P2 h' = mkVector3 0.5 0 (-0.5) /\
   (Prim.px h', Prim.py h', Prim.pz h') = (0.5, 0, -0.5) /\
   entry = mkVector3 (-0.5) 0 0.25 /\
   Prim.GetLocalCoords q entry = (-0.5, 0, 0.25) /\
   (Length entry <? Length (Prim.P1 h')) = true /\
   (Dist3d C3_offset entry <? Dist3d C3_offset (Prim.P1 h')) = true /\
   (Prim.px h' =? -0.5) = false) /\
  (let q := Prim.refresh C3_cube in
   let r := Prim.IntersectPrimitive C3_cube ray_origin ray_direction no_hit in
   let h' := snd (fst r) in
   Prim.struck_faces q ray_origin ray_direction = [0; 2]%nat /\
   Prim.P1 h' = mkVector3 0 0 (-3.5) /\ Prim.P2 h' = mkVector3 0 0 (-2.5) /\
   (Prim.px h', Prim.py h', Prim.pz h') = Prim.GetLocalCoords q (Prim.P2 h') /\
   (Prim.px h', Prim.py h', Prim.pz h') = (0, 0, 0.5) /\
   (Dist3d ray_origin (Prim.P1 h') <? Dist3d ray_origin (Prim.P2 h')) = true).
Proof. vm_compute. repeat split. Qed.

Section AxialRay.
Import Prim.

Variable q : Primitive.
Hypothesis Hpos : position q = zero.
Hypothesis HdetX : detX q = mkVector3 1.0 0.0 0.0.
Hypothesis HdetY : detY q = mkVector3 0.0 1.0 0.0.
Hypothesis HdetZ : detZ q = mkVector3 0.0 0.0 1.0.
Hypothesis Hfaces : GlobalFace q = GlobalFace (_set_face_coords q).
Hypothesis Hlength : (0 <=? length q) = true.
Hypothesis Hwidth : (0 <=? width q) = true.
Hypothesis Hdepth : (0 <=? depth q) = true.
Hypothesis Hnear : (depth q / 2.0 <? 10) = true.

Let h := depth q / 2.0.

Lemma half_depth_nonneg : (0 <=? h) = true.
Proof. apply half_nonneg, Hdepth. Qed.

Lemma half_depth_finite : is_finite h = true.
Proof.
  rewrite is_finite_spec.
  destruct (below_ten_spec h half_depth_nonneg Hnear) as [[s E] | (m & e & E & _)];
    rewrite E; reflexivity.
Qed.

Ltac unfold_geometry :=
  unfold face_struck, in_bounds, crossing, plane_t, GetLocalCoords, face_centre;
  rewrite ?Hfaces;
  cbn [_set_face_coords GlobalFace nth GetUnitVector CheckBounds];
  rewrite ?Hpos, ?HdetX, ?HdetY, ?HdetZ;
  unfold Dot, sub, add, scale, ray_origin, ray_direction, zero; cbn [x y z].

(** A point on the local Z axis with a finite coordinate passes the bounds
    test of the front and of the back face. *)
Lemma on_axis_in_bounds c i :
  is_finite c = true -> (i = 0 \/ i = 2)%nat -> in_bounds q i (mkVector3 0 0 c) = true.
Proof.
  intros Hc Hi. unfold in_bounds, GetLocalCoords.
  rewrite Hpos, HdetX, HdetY, HdetZ. unfold Dot, sub, zero. cbn [x y z].
  cbn. rewrite !minus_zero_r, (zero_plus_times_zero c Hc).
  destruct Hi as [-> | ->]; cbn [CheckBounds];
    rewrite (zero_in_range _ Hwidth), (zero_in_range _ Hlength); reflexivity.
Qed.

Lemma front_crossing :
  plane_t q ray_origin ray_direction 0 = t_front (depth q) /\
  crossing q ray_origin ray_direction 0 = mkVector3 0 0 (-10 + t_front (depth q)).
Proof.
  destruct (ten_minus h half_depth_nonneg Hnear) as (_ & Hfin & _).
  assert (Ht : plane_t q ray_origin ray_direction 0 = t_front (depth q)).
  { unfold_geometry. fold h.
    rewrite (zero_minus_zero_times h half_depth_finite). cbn.
    rewrite mul_one_l, mul_one_r, zero_plus_zero_minus, div_one. reflexivity. }
  split; [exact Ht|]. unfold crossing. rewrite Ht.
  unfold add, scale, ray_origin, ray_direction. cbn [x y z].
  fold h in Hfin |- *. unfold t_front. fold h.
  rewrite (zero_plus_zero_times _ Hfin), mul_one_l. reflexivity.
Qed.

Lemma back_crossing :
  plane_t q ray_origin ray_direction 2 = t_back (depth q) /\
  crossing q ray_origin ray_direction 2 = mkVector3 0 0 (-10 + t_back (depth q)).
Proof.
  destruct (ten_plus h half_depth_nonneg Hnear) as (_ & Hfin & _).
  assert (Ht : plane_t q ray_origin ray_direction 2 = t_back (depth q)).
  { unfold_geometry. fold h.
    rewrite (zero_plus_zero_times h half_depth_finite). cbn.
    rewrite mul_one_l, mul_m1_r, negzero_plus_opp_zero_plus, div_m1. reflexivity. }
  split; [exact Ht|]. unfold crossing. rewrite Ht.
  unfold add, scale, ray_origin, ray_direction. cbn [x y z].
  fold h in Hfin |- *. unfold t_back. fold h.
  rewrite (zero_plus_zero_times _ Hfin), mul_one_l. reflexivity.
Qed.

Lemma front_struck : face_struck q ray_origin ray_direction 0 = true.
Proof.
  destruct (ten_minus h half_depth_nonneg Hnear) as (Hge & _ & Hfin).
  destruct front_crossing as [Ht Hc]. unfold face_struck. rewrite Ht, Hc.
  unfold geb, t_front. fold h. rewrite Hge. cbn [andb].
  apply on_axis_in_bounds; [exact Hfin | left; reflexivity].
Qed.

Lemma back_struck : face_struck q ray_origin ray_direction 2 = true.
Proof.
  destruct (ten_plus h half_depth_nonneg Hnear) as (Hge & _ & Hfin).
  destruct back_crossing as [Ht Hc]. unfold face_struck. rewrite Ht, Hc.
  unfold geb, t_back. fold h. rewrite Hge. cbn [andb].
  apply on_axis_in_bounds; [exact Hfin | right; reflexivity].
Qed.

(** A point whose first coordinate is NaN passes no bounds test. *)
Lemma nan_out_of_bounds P i : Prim2SF (x P) = S754_nan -> in_bounds q i P = false.
Proof.
  intros Hn. unfold in_bounds, GetLocalCoords, Dot, sub. cbn [x y z].
  set (tx := x P - x (position q)).
  assert (Htx : Prim2SF tx = S754_nan) by (apply nan_sub_l, Hn).
  assert (Hdot : forall a b c u v, Prim2SF (tx * a + u * b + v * c) = S754_nan).
  { intros. apply nan_add_l, nan_add_l, nan_mul_l, Htx. }
  unfold geb.
  destruct i as [|[|[|[|[|[|n]]]]]]; cbn [CheckBounds]; unfold geb;
    rewrite ?(nan_leb_r _ _ (Hdot _ _ _ _ _)); reflexivity.
Qed.

(** The four faces whose planes the axial ray is parallel to are not
    struck. *)
Lemma side_not_struck i :
  (i = 1 \/ i = 3 \/ i = 4 \/ i = 5)%nat -> face_struck q ray_origin ray_direction i = false.
Proof.
  intros Hi. unfold face_struck.
  rewrite (nan_out_of_bounds (crossing q ray_origin ray_direction i) i); [apply andb_false_r|].
  unfold crossing, add, scale, ray_origin, ray_direction. cbn [x y z].
  apply zero_plus_zero_times_nonfinite.
  unfold plane_t. apply div_by_zero_nonfinite.
  destruct Hi as [-> | [-> | [-> | ->]]]; cbn [GetUnitVector];
    rewrite ?HdetX, ?HdetY; reflexivity.
Qed.

Lemma axial_struck_faces : struck_faces q ray_origin ray_direction = [0; 2]%nat.
Proof.
  unfold struck_faces. cbn [seq filter].
  rewrite front_struck, back_struck.
  rewrite !side_not_struck by auto. reflexivity.
Qed.

End AxialRay.

Section AxialTransfer.
Import Prim.

(** Two vectors that are the same but for the signs of zeros. *)
Definition veqz (a b : Vector3) : Prop :=
  eqz (x a) (x b) /\ eqz (y a) (y b) /\ eqz (z a) (z b).

Lemma same_veqz a b : same a b = true -> veqz a b.
Proof.
  unfold same. intros H. apply andb_true_iff in H. destruct H as [H Hz].
  apply andb_true_iff in H. destruct H as [Hx Hy].
  repeat split; apply eqb_eqz; assumption.
Qed.

Lemma veqz_refl a : veqz a a.
Proof. repeat split; apply eqz_refl. Qed.

Lemma veqz_add a a' b b' : veqz a a' -> veqz b b' -> veqz (add a b) (add a' b').
Proof. intros (A1 & A2 & A3) (B1 & B2 & B3). repeat split; apply eqz_add; assumption. Qed.

Lemma veqz_sub a a' b b' : veqz a a' -> veqz b b' -> veqz (sub a b) (sub a' b').
Proof. intros (A1 & A2 & A3) (B1 & B2 & B3). repeat split; apply eqz_sub; assumption. Qed.

Lemma veqz_scale a a' k : veqz a a' -> veqz (scale a k) (scale a' k).
Proof. intros (A1 & A2 & A3). repeat split; apply eqz_mul; auto using eqz_refl. Qed.

Lemma Dot_eqz a a' b b' : veqz a a' -> veqz b b' -> eqz (Dot a b) (Dot a' b').
Proof.
  intros (A1 & A2 & A3) (B1 & B2 & B3). unfold Dot.
  repeat apply eqz_add; apply eqz_mul; assumption.
Qed.

(** Two primitives of the same size whose positions and axes are the same
    but for the signs of zeros, both with current face coordinates. *)
Variables q q0 : Primitive.
Hypothesis Ep : veqz (position q) (position q0).
Hypothesis Ex : veqz (detX q) (detX q0).
Hypothesis Ey : veqz (detY q) (detY q0).
Hypothesis Ez : veqz (detZ q) (detZ q0).
Hypothesis El : length q = length q0.
Hypothesis Ew : width q = width q0.
Hypothesis Ed : depth q = depth q0.
Hypothesis Ef : GlobalFace q = GlobalFace (_set_face_coords q).
Hypothesis Ef0 : GlobalFace q0 = GlobalFace (_set_face_coords q0).

Lemma unit_eqz i : veqz (GetUnitVector q i) (GetUnitVector q0 i).
Proof.
  destruct i as [|[|[|[|[|[|n]]]]]]; cbn [GetUnitVector];
    auto using veqz_scale, veqz_refl.
Qed.

Lemma centre_eqz i : veqz (face_centre q i) (face_centre q0 i).
Proof.
  unfold face_centre. rewrite Ef, Ef0. cbn [_set_face_coords GlobalFace].
  rewrite El, Ew, Ed.
  destruct i as [|[|[|[|[|[|n]]]]]]; cbn [nth];
    auto using veqz_add, veqz_sub, veqz_scale, veqz_refl.
Qed.

(** The bounds test gives the same answer for both. *)
Lemma in_bounds_same i P : in_bounds q i P = in_bounds q0 i P.
Proof.
  unfold in_bounds, GetLocalCoords.
  assert (T : veqz (sub P (position q)) (sub P (position q0)))
    by (apply veqz_sub; [apply veqz_refl | exact Ep]).
  pose proof (Dot_eqz _ _ _ _ T Ex) as Hx.
  pose proof (Dot_eqz _ _ _ _ T Ey) as Hy.
  pose proof (Dot_eqz _ _ _ _ T Ez) as Hz.
  destruct i as [|[|[|[|[|[|n]]]]]]; cbn [CheckBounds]; unfold geb; rewrite ?El, ?Ew, ?Ed;
    rewrite ?(eqz_leb _ _ _ _ (eqz_refl _) Hx), ?(eqz_leb _ _ _ _ Hx (eqz_refl _)),
            ?(eqz_leb _ _ _ _ (eqz_refl _) Hy), ?(eqz_leb _ _ _ _ Hy (eqz_refl _)),
            ?(eqz_leb _ _ _ _ (eqz_refl _) Hz), ?(eqz_leb _ _ _ _ Hz (eqz_refl _));
    reflexivity.
Qed.

(** The ray parameter of a face whose plane the ray is not parallel to. *)
Lemma plane_t_eqz offset_ direction_ i :
  (Dot direction_ (GetUnitVector q0 i) =? 0) = false ->
  eqz (plane_t q offset_ direction_ i) (plane_t q0 offset_ direction_ i).
Proof.
  intros Hn. unfold plane_t. apply eqz_div; [|apply Dot_eqz; [apply veqz_refl | apply unit_eqz] | exact Hn].
  apply eqz_sub; apply Dot_eqz; auto using veqz_refl, unit_eqz, centre_eqz.
Qed.

Lemma parallel_same direction_ i :
  (Dot direction_ (GetUnitVector q0 i) =? 0) = true ->
  (Dot direction_ (GetUnitVector q i) =? 0) = true.
Proof.
  apply eqz_zero. apply Dot_eqz; [apply veqz_refl | apply unit_eqz].
Qed.

(** On the axial ray (no coordinate of its origin is [-0]) the crossing
    points are the same. *)
Lemma axial_crossing_same i :
  (Dot ray_direction (GetUnitVector q0 i) =? 0) = false ->
  crossing q ray_origin ray_direction i = crossing q0 ray_origin ray_direction i /\
  geb (plane_t q ray_origin ray_direction i) 0 = geb (plane_t q0 ray_origin ray_direction i) 0.
Proof.
  intros Hn. pose proof (plane_t_eqz ray_origin ray_direction i Hn) as Ht.
  split.
  - unfold crossing, add, scale, ray_origin, ray_direction. cbn [x y z].
    f_equal; apply add_absorbs; try (apply eqz_mul; [apply eqz_refl | exact Ht]);
      vm_compute; discriminate.
  - unfold geb. apply eqz_leb; [apply eqz_refl | exact Ht].
Qed.

Lemma axial_struck_same i :
  (Dot ray_direction (GetUnitVector q0 i) =? 0) = false ->
  face_struck q ray_origin ray_direction i = face_struck q0 ray_origin ray_direction i.
Proof.
  intros Hn. destruct (axial_crossing_same i Hn) as [Hc Hg].
  unfold face_struck. rewrite Hc, Hg, in_bounds_same. reflexivity.
Qed.

(** A face whose plane the axial ray is parallel to is not struck. *)
Lemma axial_parallel_not_struck i :
  (Dot ray_direction (GetUnitVector q0 i) =? 0) = true ->
  face_struck q ray_origin ray_direction i = false.
Proof.
  intros Hd. apply parallel_same in Hd. unfold face_struck.
  rewrite (nan_out_of_bounds q (crossing q ray_origin ray_direction i) i); [apply andb_false_r|].
  unfold crossing, add, scale, ray_origin, ray_direction. cbn [x y z].
  apply zero_plus_zero_times_nonfinite.
  unfold plane_t. apply div_by_zero_nonfinite. exact Hd.
Qed.

End AxialTransfer.

Section AxialScenario.
Import Prim.

(** The primitive of the same size at the origin, with the global axes as
    its axes and current face coordinates. *)
Definition canonical (q : Primitive) : Primitive :=
  _set_face_coords
    (mkPrimitive zero (mkVector3 1.0 0.0 0.0) (mkVector3 0.0 1.0 0.0) (mkVector3 0.0 0.0 1.0)
       (length q) (width q) (depth q) true (GlobalFace q) (front_face q) (back_face q)).

Lemma refresh_fields p :
  centred_aligned p ->
  let q := refresh p in
  veqz (position q) zero /\ veqz (detX q) (mkVector3 1.0 0.0 0.0) /\
  veqz (detY q) (mkVector3 0.0 1.0 0.0) /\ veqz (detZ q) (mkVector3 0.0 0.0 1.0) /\
  length q = length p /\ width q = width p /\ depth q = depth p /\
  GlobalFace q = GlobalFace (_set_face_coords q).
Proof.
  intros (Hp & Hx & Hy & Hz & Hg). apply same_veqz in Hp, Hx, Hy, Hz. unfold refresh.
  destruct (need_set p) eqn:Hn; cbn;
    refine (conj Hp (conj Hx (conj Hy (conj Hz (conj eq_refl (conj eq_refl (conj eq_refl _))))))).
  - reflexivity.
  - destruct Hg as [Hg|Hg]; [discriminate | exact Hg].
Qed.

(** The sum of two zeros and a square is the square. *)
Lemma zero_plus_square d : 0 + 0 * 0 + d * d = d * d.
Proof.
  apply Prim2SF_inj. rewrite add_spec, mul_spec.
  replace (Prim2SF (0 + 0 * 0)) with (S754_zero false) by reflexivity.
  destruct (Prim2SF d) as [[]|[]| |[] m e]; try reflexivity;
    unfold SF64mul, SFmul; cbn [xorb];
    pose proof (binary_round_aux_signed false (Z.pos (m * m)) (e + e) loc_Exact ltac:(lia)) as H;
    destruct H; reflexivity.
Qed.

(** The distance between two points of the Z axis. *)
Lemma Dist3d_on_axis z1 z2 :
  Dist3d (mkVector3 0 0 z1) (mkVector3 0 0 z2) = PrimFloat.sqrt ((z2 - z1) * (z2 - z1)).
Proof.
  unfold Dist3d, Length, sub. cbn [x y z].
  replace (0 - 0) with 0 by reflexivity. rewrite zero_plus_square. reflexivity.
Qed.


End AxialScenario.

(** The unit cube at the origin with the axes that [SetRotation(0,0,0)]
    computes, whose [detX] is [(1, 0, -0)]: the points are [(0,0,-0.5)] and
    [(0,0,0.5)], exactly 1 apart. *)
Definition C2_cube : Prim.Primitive :=
  Prim.mkPrimitive zero (mkVector3 1.0 0.0 (-0)) (mkVector3 0.0 1.0 0.0) (mkVector3 0.0 0.0 1.0)
    1.0 1.0 1.0 true (repeat zero 6) 0 2.



(** ** Part V: further properties of the code *)

(** *** What [IntersectPrimitive] leaves in its out-parameters *)

Section HitRecord.
Import Prim.
Variables offset_ direction_ : Vector3.

(** The struck faces come in the order of their identifiers, all below 6. *)
Lemma filter_seq_head (f : nat -> bool) n : forall a i l,
  filter f (seq a n) = i :: l ->
  (a <= i < a + n)%nat /\ exists m, l = filter f (seq (S i) m) /\ (S i + m = a + n)%nat.
Proof.
  induction n as [|n IH]; intros a i l H; [discriminate|].
  cbn [seq filter] in H. destruct (f a).
  - inversion H; subst. split; [lia|]. exists n. split; [reflexivity | lia].
  - apply IH in H. destruct H as [Hi (m & Hl & Hm)]. split; [lia|].
    exists m. split; [exact Hl | lia].
Qed.

Lemma struck_faces_ordered q i j rest :
  struck_faces q offset_ direction_ = i :: j :: rest -> (i < j < 6)%nat.
Proof.
  unfold struck_faces. intros H. apply filter_seq_head in H.
  destruct H as [Hi (m & Hl & Hm)]. symmetry in Hl. apply filter_seq_head in Hl.
  destruct Hl as [Hj _]. lia.
Qed.

Lemma struck_faces_valid q i :
  In i (struck_faces q offset_ direction_) ->
  (i < 6)%nat /\ face_struck q offset_ direction_ i = true.
Proof.
  unfold struck_faces. intros H. apply filter_In in H. destruct H as [Hs Hf].
  apply in_seq in Hs. split; [lia | exact Hf].
Qed.

(** X1.  A miss leaves the caller's variables alone: when
    [IntersectPrimitive] returns false, the out-parameters [P1], [P2],
    [face1], [face2], [px], [py], [pz] all hold the values they had at the
    call. *)
Theorem IntersectPrimitive_miss_keeps_outputs (p : Primitive) (h : Hit) :
  let r := IntersectPrimitive p offset_ direction_ h in
  snd r = false -> snd (fst r) = h.
Proof.
  intros r. unfold r. rewrite IntersectPrimitive_struck. cbn [fst snd].
  intros H. apply Nat.ltb_ge in H.
  destruct (struck_faces (refresh p) offset_ direction_); [reflexivity|].
  simpl in H. lia.
Qed.

(** X2.  When exactly one face is struck (a ray that starts inside the
    primitive, say), the call reports a hit and sets [P1], [face1] and the
    local coordinates from that face, but [P2] and [face2] are not written:
    they keep whatever the caller's variables held. *)
Theorem IntersectPrimitive_single_face (p : Primitive) (h : Hit) (i : nat) :
  let q := refresh p in
  let r := IntersectPrimitive p offset_ direction_ h in
  let h' := snd (fst r) in
  struck_faces q offset_ direction_ = [i] ->
  snd r = true /\
  P1 h' = crossing q offset_ direction_ i /\ face1 h' = Z.of_nat i /\
  (px h', py h', pz h') = GetLocalCoords q (P1 h') /\
  P2 h' = P2 h /\ face2 h' = face2 h.
Proof.
  intros q r h' E. unfold h', r. rewrite IntersectPrimitive_struck. fold q.
  rewrite E. cbn [fst snd fold_left List.length]. unfold record_face.
  destruct (GetLocalCoords q (crossing q offset_ direction_ i)) as [[a b] c] eqn:L.
  cbn [snd P1 P2 face1 face2 px py pz]. rewrite L. repeat apply conj; reflexivity.
Qed.

(** With two struck faces or more, the out-parameters are all written, from
    the first two struck faces. *)
Lemma IntersectPrimitive_two_faces p h i j rest :
  let q := refresh p in
  let Pi := crossing q offset_ direction_ i in
  let Pj := crossing q offset_ direction_ j in
  struck_faces q offset_ direction_ = i :: j :: rest ->
  snd (fst (IntersectPrimitive p offset_ direction_ h)) =
    let '(a, b, c) := GetLocalCoords q (if Length Pj <? Length Pi then Pj else Pi) in
    mkHit Pi Pj (Z.of_nat i) (Z.of_nat j) a b c.
Proof.
  intros q Pi Pj E. rewrite IntersectPrimitive_struck. fold q. rewrite E.
  cbn [fst snd fold_left]. unfold record_face at 2 3. fold Pi Pj.
  destruct (GetLocalCoords q Pi) as [[ai bi] ci] eqn:Li.
  destruct (GetLocalCoords q Pj) as [[aj bj] cj] eqn:Lj.
  cbn [P1 P2 face1 face2 px py pz].
  rewrite record_face_late by lia.
  destruct (Length Pj <? Length Pi); [rewrite Lj | rewrite Li]; reflexivity.
Qed.

(** X3.  When two or more faces are struck, the seven out-parameters
    [P1], [P2], [face1], [face2], [px], [py] and [pz] are all written: the
    values returned in them do not depend on what the caller's variables
    held, and the face identifiers are valid and in increasing order,
    [0 <= face1 < face2 <= 5].  The eighth out-parameter of the overload
    that has it, [norm], is the exception: it is never assigned and comes
    back holding what the caller passed. *)
Theorem IntersectPrimitive_faces_ordered (p : Primitive) (h : Hit) (norm : Vector3) :
  let q := refresh p in
  let r := IntersectPrimitive_norm p offset_ direction_ h norm in
  let h' := hit_of r in
  (2 <= List.length (struck_faces q offset_ direction_))%nat ->
  h' = snd (fst (IntersectPrimitive p offset_ direction_ h)) /\
  (0 <= face1 h' < face2 h')%Z /\ (face2 h' <= 5)%Z /\
  (forall h0 norm0, hit_of (IntersectPrimitive_norm p offset_ direction_ h0 norm0) = h') /\
  (forall h0 norm0, norm_of (IntersectPrimitive_norm p offset_ direction_ h0 norm0) = norm0).
Proof.
  intros q r h' H.
  assert (Hh : forall h0 norm0,
            hit_of (IntersectPrimitive_norm p offset_ direction_ h0 norm0) =
            snd (fst (IntersectPrimitive p offset_ direction_ h0))).
  { intros h0 norm0. unfold IntersectPrimitive_norm, hit_of.
    destruct (IntersectPrimitive p offset_ direction_ h0) as [[p' h1] b]. reflexivity. }
  destruct (struck_faces q offset_ direction_) as [|i [|j rest]] eqn:E;
    try (simpl in H; lia).
  pose proof (struck_faces_ordered q i j rest E) as Ho.
  unfold h', r. rewrite Hh. split; [reflexivity|].
  rewrite (IntersectPrimitive_two_faces p h i j rest E).
  split; [|split; [|split]].
  - destruct (GetLocalCoords _ _) as [[a b] c]. cbn [face1 face2]. lia.
  - destruct (GetLocalCoords _ _) as [[a b] c]. cbn [face1 face2]. lia.
  - intros h0 norm0. rewrite Hh. apply (IntersectPrimitive_two_faces p h0 i j rest E).
  - intros h0 norm0. unfold IntersectPrimitive_norm, norm_of.
    destruct (IntersectPrimitive p offset_ direction_ h0) as [[p' h1] b]. reflexivity.
Qed.

(** [GetApparentThickness] in terms of the struck faces: the distance
    between the two crossing points when both face identifiers are valid
    and both faces are struck, and -1 otherwise. *)
Lemma GetApparentThickness_struck p f1 f2 i1 i2 :
  let q := refresh p in
  snd (fst (fst (GetApparentThickness p offset_ direction_ f1 f2 i1 i2))) =
    if ((f1 <=? 5)%nat && (f2 <=? 5)%nat &&
        face_struck q offset_ direction_ f1 && face_struck q offset_ direction_ f2)%bool
    then Dist3d (crossing q offset_ direction_ f1) (crossing q offset_ direction_ f2)
    else (-1)%float.
Proof.
  intros q. unfold GetApparentThickness.
  rewrite !Nat.ltb_antisym. 
  destruct (f1 <=? 5)%nat; [|reflexivity].
  destruct (f2 <=? 5)%nat; [|reflexivity].
  cbn [negb orb andb]. fold q.
  pose proof (refresh_need_set p) as Hq. fold q in Hq.
  rewrite (PlaneIntersect_current offset_ direction_ q f1 Hq).
  unfold face_struck, in_bounds.
  destruct (geb (plane_t q offset_ direction_ f1) 0); [|reflexivity].
  cbn [negb andb].
  destruct (GetLocalCoords q (crossing q offset_ direction_ f1)) as [[a b] c].
  destruct (CheckBounds q f1 a b c); [|reflexivity].
  cbn [negb].
  rewrite (PlaneIntersect_current offset_ direction_ q f2 Hq).
  destruct (geb (plane_t q offset_ direction_ f2) 0); [|reflexivity].
  cbn [negb andb].
  destruct (GetLocalCoords q (crossing q offset_ direction_ f2)) as [[a2 b2] c2].
  destruct (CheckBounds q f2 a2 b2 c2); reflexivity.
Qed.

(** X4.  [GetApparentThickness] reports a thickness only for rays that
    [IntersectPrimitive] reports as hits: if the value it returns is not
    negative (the failure value is -1), [IntersectPrimitive] called with the
    same ray returns true. *)
Theorem thickness_implies_hit (p : Primitive) (f1 f2 : nat) (i1 i2 : Vector3) (h : Hit) :
  let thickness := snd (fst (fst (GetApparentThickness p offset_ direction_ f1 f2 i1 i2))) in
  (0 <=? thickness) = true -> snd (IntersectPrimitive p offset_ direction_ h) = true.
Proof.
  intros thickness. unfold thickness. rewrite GetApparentThickness_struck.
  rewrite IntersectPrimitive_struck. cbn [snd]. set (q := refresh p).
  destruct (f1 <=? 5)%nat eqn:H1; [|discriminate].
  destruct (f2 <=? 5)%nat; [|discriminate].
  destruct (face_struck q offset_ direction_ f1) eqn:S1; [|discriminate].
  intros _. apply Nat.ltb_lt. apply Nat.leb_le in H1.
  assert (Hin : In f1 (struck_faces q offset_ direction_)).
  { unfold struck_faces. apply filter_In. split; [apply in_seq; lia | exact S1]. }
  destruct (struck_faces q offset_ direction_); [contradiction | simpl; lia].
Qed.

(** X5.  The two functions agree on a ray that goes through the primitive:
    when the first two struck faces are [f1] and [f2],
    [GetApparentThickness] for these faces returns the distance between the
    points [P1] and [P2] that [IntersectPrimitive] returns. *)
Theorem thickness_between_hit_points (p : Primitive) (f1 f2 : nat) (rest : list nat)
  (i1 i2 : Vector3) (h : Hit) :
  let q := refresh p in
  let h' := snd (fst (IntersectPrimitive p offset_ direction_ h)) in
  struck_faces q offset_ direction_ = f1 :: f2 :: rest ->
  snd (fst (fst (GetApparentThickness p offset_ direction_ f1 f2 i1 i2))) =
    Dist3d (P1 h') (P2 h').
Proof.
  intros q h' E. rewrite GetApparentThickness_struck. fold q.
  pose proof (struck_faces_ordered q f1 f2 rest E) as Ho.
  assert (In1 : In f1 (struck_faces q offset_ direction_)) by (rewrite E; simpl; auto).
  assert (In2 : In f2 (struck_faces q offset_ direction_)) by (rewrite E; simpl; auto).
  apply struck_faces_valid in In1, In2. destruct In1 as [_ S1]. destruct In2 as [_ S2].
  rewrite S1, S2.
  replace (f1 <=? 5)%nat with true by (symmetry; apply Nat.leb_le; lia).
  replace (f2 <=? 5)%nat with true by (symmetry; apply Nat.leb_le; lia).
  cbn [andb]. unfold h'. rewrite (IntersectPrimitive_two_faces p h f1 f2 rest E).
  destruct (GetLocalCoords _ _) as [[a b] c]. reflexivity.
Qed.

End HitRecord.

(** A ray that passes beside the default primitive (a unit cube at the
    origin). *)
Lemma IntersectPrimitive_miss_keeps_outputs_witness :
  snd (fst (Prim.IntersectPrimitive Prim.new (mkVector3 5 5 (-10)) ray_direction no_hit))
    = no_hit.
Proof.
  apply (IntersectPrimitive_miss_keeps_outputs (mkVector3 5 5 (-10)) ray_direction
           Prim.new no_hit).
  vm_compute. reflexivity.
Defined.

(** A ray that starts at the centre of the default primitive: only the back
    face is ahead of it. *)
Lemma IntersectPrimitive_single_face_witness :
  let r := Prim.IntersectPrimitive Prim.new zero ray_direction no_hit in
  let h' := snd (fst r) in
  snd r = true /\
  Prim.P1 h' = Prim.crossing (Prim.refresh Prim.new) zero ray_direction 2 /\
  Prim.face1 h' = 2%Z /\
  (Prim.px h', Prim.py h', Prim.pz h') = Prim.GetLocalCoords (Prim.refresh Prim.new) (Prim.P1 h') /\
  Prim.P2 h' = zero /\ Prim.face2 h' = (-1)%Z.
Proof.
  apply (IntersectPrimitive_single_face zero ray_direction Prim.new no_hit 2).
  vm_compute. reflexivity.
Defined.

Lemma IntersectPrimitive_faces_ordered_witness :
  let r := Prim.IntersectPrimitive_norm Prim.new ray_origin ray_direction no_hit zero in
  let h' := Prim.hit_of r in
  h' = snd (fst (Prim.IntersectPrimitive Prim.new ray_origin ray_direction no_hit)) /\
  (0 <= Prim.face1 h' < Prim.face2 h')%Z /\ (Prim.face2 h' <= 5)%Z /\
  (forall h0 norm0,
     Prim.hit_of (Prim.IntersectPrimitive_norm Prim.new ray_origin ray_direction h0 norm0) = h') /\
  (forall h0 norm0,
     Prim.norm_of (Prim.IntersectPrimitive_norm Prim.new ray_origin ray_direction h0 norm0) = norm0).
Proof.
  apply (IntersectPrimitive_faces_ordered ray_origin ray_direction Prim.new no_hit zero).
  vm_compute. lia.
Defined.

Lemma thickness_implies_hit_witness :
  snd (Prim.IntersectPrimitive Prim.new ray_origin ray_direction no_hit) = true.
Proof.
  apply (thickness_implies_hit ray_origin ray_direction Prim.new 0 2 zero zero no_hit).
  vm_compute. reflexivity.
Defined.

Lemma thickness_between_hit_points_witness :
  let h' := snd (fst (Prim.IntersectPrimitive Prim.new ray_origin ray_direction no_hit)) in
  snd (fst (fst (Prim.GetApparentThickness Prim.new ray_origin ray_direction 0 2 zero zero)))
    = Dist3d (Prim.P1 h') (Prim.P2 h').
Proof.
  apply (thickness_between_hit_points ray_origin ray_direction Prim.new 0 2 [] zero zero no_hit).
  vm_compute. reflexivity.
Defined.

Section ParallelThickness.
Import Prim.
Variables offset_ direction_ : Vector3.

Lemma refresh_keeps p :
  width (refresh p) = width p /\ length (refresh p) = length p /\
  depth (refresh p) = depth p /\ forall i, GetUnitVector (refresh p) i = GetUnitVector p i.
Proof. unfold refresh. destruct (need_set p); repeat split. Qed.

(** A face whose plane the ray is parallel to is not struck, when the
    extents of the primitive are finite. *)
Lemma parallel_face_is_not_struck p i :
  (Dot direction_ (GetUnitVector p i) =? 0) = true ->
  is_finite (width p) = true -> is_finite (length p) = true -> is_finite (depth p) = true ->
  face_struck (refresh p) offset_ direction_ i = false.
Proof.
  intros Hd Fw Fl Fd. apply half_finite in Fw, Fl, Fd.
  destruct (refresh_keeps p) as (Ew & El & Ed & Eu).
  unfold face_struck. rewrite (unbounded_out_of_bounds (refresh p) i).
  - apply andb_false_r.
  - rewrite Ew. exact Fw.
  - rewrite El. exact Fl.
  - rewrite Ed. exact Fd.
  - apply parallel_crossing_unbounded. rewrite Eu. exact Hd.
Qed.

(** X6.  [GetApparentThickness] fails on a ray that is parallel to the
    plane of either face it is asked about: for a primitive with finite
    extents it returns -1, although [PlaneIntersect] has no test for the
    zero denominator. *)
Theorem thickness_of_parallel_face_fails (p : Primitive) (f1 f2 : nat) (i1 i2 : Vector3) :
  (Dot direction_ (GetUnitVector p f1) =? 0) = true \/
  (Dot direction_ (GetUnitVector p f2) =? 0) = true ->
  is_finite (width p) = true -> is_finite (length p) = true -> is_finite (depth p) = true ->
  snd (fst (fst (GetApparentThickness p offset_ direction_ f1 f2 i1 i2))) = (-1)%float.
Proof.
  intros Hd Fw Fl Fd. rewrite GetApparentThickness_struck.
  destruct Hd as [Hd | Hd];
    rewrite (parallel_face_is_not_struck p _ Hd Fw Fl Fd), ?andb_false_r; reflexivity.
Qed.

End ParallelThickness.

(** The axial ray and the right face of the default primitive. *)
Lemma thickness_of_parallel_face_fails_witness :
  snd (fst (fst (Prim.GetApparentThickness Prim.new ray_origin ray_direction 0 1 zero zero)))
    = (-1)%float.
Proof.
  apply thickness_of_parallel_face_fails; try reflexivity. right. reflexivity.
Defined.

(** *** Front and back faces *)

Section FrontFace.
Import Prim.

Lemma opp_involutive x : - - x = x.
Proof.
  apply Prim2SF_inj. rewrite !opp_spec.
  destruct (Prim2SF x) as [s| s| |s m e]; cbn; rewrite ?negb_involutive; reflexivity.
Qed.

Lemma scale_m1_twice v : scale (scale v (-1)) (-1) = v.
Proof.
  destruct v as [a b c]. unfold scale. cbn [x y z].
  rewrite !mul_m1_r, !opp_involutive. reflexivity.
Qed.

(** X7.  [SetFrontFace] keeps the back face opposite to the front face: for
    a valid face identifier the front face becomes that face and the
    outward normal of the back face is the negated normal of the front
    face; swapping them with a second call restores the first as the back
    face.  An identifier above 5 changes nothing. *)
Theorem SetFrontFace_back_is_opposite (p : Primitive) (f : nat) :
  (f <= 5)%nat ->
  let q := SetFrontFace p f in
  front_face q = f /\ (back_face q <= 5)%nat /\ back_face q <> f /\
  GetUnitVector q (back_face q) = scale (GetUnitVector q (front_face q)) (-1) /\
  back_face (SetFrontFace q (back_face q)) = f /\
  forall g, (5 < g)%nat -> SetFrontFace q g = q.
Proof.
  intros Hf q.
  assert (Hout : forall g, (5 < g)%nat -> SetFrontFace q g = q).
  { intros g Hg. do 6 (destruct g as [|g]; [lia|]). reflexivity. }
  do 6 (destruct f as [|f];
        [ subst q; cbn [SetFrontFace front_face back_face GetUnitVector detX detY detZ];
          rewrite ?scale_m1_twice; repeat apply conj;
          first [reflexivity | lia | exact Hout | discriminate] |]).
  lia.
Qed.

End FrontFace.

Lemma SetFrontFace_back_is_opposite_witness :
  let q := Prim.SetFrontFace Prim.new 3 in
  Prim.front_face q = 3%nat /\ (Prim.back_face q <= 5)%nat /\ Prim.back_face q <> 3%nat /\
  Prim.GetUnitVector q (Prim.back_face q)
    = scale (Prim.GetUnitVector q (Prim.front_face q)) (-1) /\
  Prim.back_face (Prim.SetFrontFace q (Prim.back_face q)) = 3%nat /\
  forall g, (5 < g)%nat -> Prim.SetFrontFace q g = q.
Proof. apply (SetFrontFace_back_is_opposite Prim.new 3). lia. Defined.

(** *** The sides of a regular polygon *)

Section PolygonSides.
Import Poly.
Variables sin cos : float -> float.
Variable line_length0 : float.

Lemma build_lines_length n : forall radius sector theta,
  List.length (build_lines sin cos line_length0 n radius sector theta) = n.
Proof. induction n as [|n IH]; intros; simpl; [reflexivity | rewrite IH; reflexivity]. Qed.

Lemma build_lines_side n : forall radius sector theta k a,
  nth_error (build_lines sin cos line_length0 n radius sector theta) k = Some a ->
  dir a = sub (p2 a) (p1 a) /\ length a = line_length0.
Proof.
  induction n as [|n IH]; intros radius sector theta k a H.
  - destruct k; discriminate.
  - destruct k as [|k]; cbn [build_lines nth_error] in H.
    + inversion H; subst. cbn. split; reflexivity.
    + eapply IH; eassumption.
Qed.

Lemma build_lines_first n radius sector theta a :
  nth_error (build_lines sin cos line_length0 n radius sector theta) 0 = Some a ->
  p1 a = mkVector3 (radius * cos theta) (radius * sin theta) 0.
Proof. destruct n; [discriminate|]. cbn. intros H; inversion H; reflexivity. Qed.

Lemma build_lines_chain n : forall radius sector theta k a b,
  nth_error (build_lines sin cos line_length0 n radius sector theta) k = Some a ->
  nth_error (build_lines sin cos line_length0 n radius sector theta) (S k) = Some b ->
  p2 a = p1 b.
Proof.
  induction n as [|n IH]; intros radius sector theta k a b Ha Hb.
  - destruct k; discriminate.
  - destruct k as [|k]; cbn [build_lines nth_error] in Ha, Hb.
    + inversion Ha; subst. apply build_lines_first in Hb. rewrite Hb. reflexivity.
    + eapply IH; eassumption.
Qed.

(** X8.  [RegularPolygon::Initialize] on a new polygon always succeeds
    (zero sides included: the arguments are not checked) and builds exactly
    [nSides_] sides that form a chain: every side starts at the very point
    where the side before it ends, its [dir] is [p2 - p1], and its [length]
    is never assigned. *)
Theorem Initialize_builds_chain (radius_ : float) (nSides_ : Z) :
  let r := Initialize sin cos line_length0 new radius_ nSides_ in
  fst r = true /\ init (snd r) = true /\ nSides (snd r) = nSides_ /\
  exists ls, lines (snd r) = Some ls /\ List.length ls = Z.to_nat nSides_ /\
    (forall k a, nth_error ls k = Some a ->
       dir a = sub (p2 a) (p1 a) /\ length a = line_length0) /\
    (forall k a b, nth_error ls k = Some a -> nth_error ls (S k) = Some b -> p2 a = p1 b).
Proof.
  cbn. repeat apply conj; try reflexivity.
  eexists. split; [reflexivity|]. split; [apply build_lines_length|]. split.
  - intros k a H. apply build_lines_side in H. exact H.
  - apply build_lines_chain.
Qed.

End PolygonSides.

(** *** Rays against line segments *)

Section RaysAndSegments.
Import Rays.

(** The difference of a finite double with itself is [+0]. *)
Lemma sub_diag_finite v : is_finite v = true -> v - v = 0.
Proof.
  intros Hf. apply Prim2SF_inj. rewrite sub_spec.
  rewrite is_finite_spec in Hf. apply negb_true_iff in Hf.
  destruct (Prim2SF v) as [s| s| |s m e]; try discriminate.
  - destruct s; reflexivity.
  - unfold SF64sub, SFsub. rewrite Z.min_id, Z.sub_diag. reflexivity.
Qed.

Lemma GetT1T2_assigns (p1_ d1_ p2_ d2_ : Vector3) (t1 t2 t1' t2' : float) :
  fst (fst (GetT1T2 p1_ d1_ p2_ d2_ t1 t2)) = true /\
  GetT1T2 p1_ d1_ p2_ d2_ t1 t2 = GetT1T2 p1_ d1_ p2_ d2_ t1' t2'.
Proof.
  unfold GetT1T2, neqb.
  destruct (x d1_ =? 0); cbn [negb andb]; [split; reflexivity|].
  destruct (y d1_ =? 0); cbn [negb andb]; [split; reflexivity|].
  destruct (x d2_ =? 0); cbn [negb andb]; [split; reflexivity|].
  destruct (y d2_ =? 0); cbn [negb andb]; split; reflexivity.
Qed.

Lemma count_sides_ext (f g : Z -> Poly.Line -> Z) (ls : list Poly.Line) :
  (forall n l, f n l = g n l) -> forall n, fold_left f ls n = fold_left g ls n.
Proof.
  intros H. induction ls as [|l ls IH]; intros n; [reflexivity|].
  cbn [fold_left]. rewrite H. apply IH.
Qed.

(** X9.  [GetT1T2] takes one of its branches on every input: it returns
    true and assigns both [t1] and [t2], so its results never depend on the
    values the callers' uninitialised locals held.  In particular the
    answer of [RegularPolygon::IsInside] depends on the polygon and the
    point alone. *)
Theorem GetT1T2_always_assigns :
  (forall (p1_ d1_ p2_ d2_ : Vector3) (t1 t2 t1' t2' : float),
     fst (fst (GetT1T2 p1_ d1_ p2_ d2_ t1 t2)) = true /\
     GetT1T2 p1_ d1_ p2_ d2_ t1 t2 = GetT1T2 p1_ d1_ p2_ d2_ t1' t2') /\
  (forall (g : Poly.RegularPolygon) (junk junk' : Poly.Line -> float * float) (x_ y_ : float),
     IsInside g junk x_ y_ = IsInside g junk' x_ y_).
Proof.
  split; [exact GetT1T2_assigns|].
  intros g junk junk' x_ y_. unfold IsInside. f_equal. f_equal. f_equal.
  apply count_sides_ext. intros n l. unfold Line_Intersect_Ray.
  rewrite (proj2 (GetT1T2_assigns _ _ _ _ (fst (junk l)) (snd (junk l))
                    (fst (junk' l)) (snd (junk' l)))).
  reflexivity.
Qed.

(** X10.  How [Line::Intersect] answers for the horizontal trace ray that
    [RegularPolygon::IsInside] sends from a point [(x_, y_)]: for a segment
    that is neither vertical nor horizontal, [GetT1T2] takes its last
    branch, which computes [t1] from [p2_.axis[1] - p2_.axis[1]].  The
    answer therefore does not depend on the height [y_] of the point at all:
    [t1] is [0/dir.y], the point returned is the start of the segment, and a
    crossing is reported exactly when [t2 = (p1.x - x_ + dir.x*t1)/((x_+1)-x_)]
    is not negative. *)
Theorem Line_Intersect_trace_ray (l : Poly.Line) (x_ y_ t1 t2 : float) (p0 : Vector3) :
  neqb (x (Poly.dir l)) 0 = true -> neqb (y (Poly.dir l)) 0 = true ->
  neqb (x_ + 1 - x_) 0 = true -> is_finite y_ = true ->
  Line_Intersect_Ray l (through x_ y_ (x_ + 1) y_) t1 t2 p0 =
    (let t1 := 0 / y (Poly.dir l) in
     let t2 := (x (Poly.p1 l) - x_ + x (Poly.dir l) * t1) / (x_ + 1 - x_) in
     ((geb t1 0.0 && (t1 <=? 1.0)) && geb t2 0.0,
      add (Poly.p1 l) (scale (Poly.dir l) t1))%bool).
Proof.
  intros Hx Hy Hd Hf.
  unfold Line_Intersect_Ray, through, GetT1T2, mk2.
  cbn [pos dir sub x y z]. rewrite (sub_diag_finite y_ Hf).
  unfold neqb in *. apply negb_true_iff in Hx, Hy, Hd.
  rewrite Hx, Hy, Hd.
  replace (0 =? 0) with true by reflexivity.
  cbn [negb andb]. reflexivity.
Qed.

End RaysAndSegments.

(** The segment from [(1,1)] to [(0,0)] and the point [(0.5, 7)], far above
    it: the trace ray is reported to cross the segment, at [(1,1)]. *)
Lemma Line_Intersect_trace_ray_witness :
  Rays.Line_Intersect_Ray (Rays.segment 1 1 0 0) (Rays.through 0.5 7 (0.5 + 1) 7) 0 0 zero
    = (true, mkVector3 1 1 0).
Proof.
  rewrite (Line_Intersect_trace_ray (Rays.segment 1 1 0 0) 0.5 7 0 0 zero);
    vm_compute; reflexivity.
Defined.

(** *** The four [Intersect] overloads *)

Section IntersectOverloads.
Import Rays.

Lemma andb_weaken_l (a b c : bool) : ((a && b) && c = true -> a && c = true)%bool.
Proof. destruct a, b, c; auto. Qed.

(** X11.  The four [Intersect] overloads agree with each other.  For
    segments whose [dir] is [p2 - p1] (as the constructors from two points
    make them), a crossing reported between two segments is also reported,
    at the same point, when either segment or both are replaced by the ray
    from its first point through its second: turning a segment into a ray
    never loses a crossing. *)
Theorem Intersect_overloads_agree (l m : Poly.Line) (t1 t2 : float) (p0 p : Vector3) :
  Poly.dir l = sub (Poly.p2 l) (Poly.p1 l) ->
  Poly.dir m = sub (Poly.p2 m) (Poly.p1 m) ->
  Line_Intersect_Line l m t1 t2 p0 = (true, p) ->
  Line_Intersect_Ray l (of_line m) t1 t2 p0 = (true, p) /\
  Ray_Intersect_Line (of_line l) m t1 t2 p0 = (true, p) /\
  Ray_Intersect_Ray (of_line l) (of_line m) t1 t2 p0 = (true, p).
Proof.
  intros Hl Hm. unfold Line_Intersect_Line, Line_Intersect_Ray, Ray_Intersect_Line,
    Ray_Intersect_Ray, of_line. cbn [pos dir]. rewrite <- Hl, <- Hm.
  destruct (GetT1T2 (Poly.p1 l) (Poly.dir l) (Poly.p1 m) (Poly.dir m) t1 t2) as [[ok u1] u2].
  destruct ok; [|discriminate].
  intros H. inversion H as [[Hb Hp]]. rewrite Hb.
  destruct (geb u1 0.0), (u1 <=? 1.0), (geb u2 0.0), (u2 <=? 1.0); try discriminate.
  repeat split.
Qed.

End IntersectOverloads.

(** Two diagonals of the unit square, which cross at its centre. *)
Lemma Intersect_overloads_agree_witness :
  let l := Rays.segment 0 0 1 1 in
  let m := Rays.segment 0 1 1 0 in
  let p := mkVector3 0.5 0.5 0 in
  Rays.Line_Intersect_Ray l (Rays.of_line m) 0 0 zero = (true, p) /\
  Rays.Ray_Intersect_Line (Rays.of_line l) m 0 0 zero = (true, p) /\
  Rays.Ray_Intersect_Ray (Rays.of_line l) (Rays.of_line m) 0 0 zero = (true, p).
Proof.
  apply (Intersect_overloads_agree (Rays.segment 0 0 1 1) (Rays.segment 0 1 1 0) 0 0 zero);
    vm_compute; reflexivity.
Defined.

(** *** Text helpers *)

Section Text.
Import Stdlib.Strings.Ascii Stdlib.Strings.String Support.

Lemma append_snoc (a : string) (c : ascii) (s : string) :
  ((a ++ String c EmptyString) ++ s = a ++ String c s)%string.
Proof. induction a as [|d a IH]; simpl; [reflexivity | rewrite IH; reflexivity]. Qed.

Lemma append_empty_r (a : string) : (a ++ EmptyString = a)%string.
Proof. induction a as [|d a IH]; simpl; [reflexivity | rewrite IH; reflexivity]. Qed.

Lemma Parse_loop_append (input : string) : forall output,
  Parse_loop input output = (output ++ Parse_loop input EmptyString)%string.
Proof.
  induction input as [|c rest IH]; intros output; cbn [Parse_loop].
  - rewrite append_empty_r. reflexivity.
  - destruct (stops c); [rewrite append_empty_r; reflexivity|].
    rewrite (IH (output ++ String c EmptyString)%string).
    rewrite (IH (EmptyString ++ String c EmptyString)%string).
    rewrite append_snoc. reflexivity.
Qed.

(** [Parse], one character at a time. *)
Lemma Parse_cons (c : ascii) (rest : string) :
  Parse (String c rest) = if stops c then EmptyString else String c (Parse rest).
Proof.
  unfold Parse. cbn [Parse_loop]. destruct (stops c); [reflexivity|].
  rewrite Parse_loop_append. reflexivity.
Qed.

(** X12.  [Parse] returns the text in front of the first blank, tab or
    hash: its result is a prefix of the input that contains none of these
    characters, and what is cut off is empty or starts with one of them. *)
Theorem Parse_cuts_at_first_separator (input : string) :
  exists rest,
    input = (Parse input ++ rest)%string /\
    (forall c, In c (list_ascii_of_string (Parse input)) -> stops c = false) /\
    (rest = EmptyString \/ exists c r, rest = String c r /\ stops c = true).
Proof.
  induction input as [|c input IH].
  - exists EmptyString. repeat split; [intros c []| left; reflexivity].
  - rewrite Parse_cons. destruct (stops c) eqn:Hc.
    + exists (String c input). repeat split; [intros d [] | right; eauto].
    + destruct IH as (rest & E & Hno & Hrest). exists rest. repeat split.
      * simpl. rewrite <- E. reflexivity.
      * intros d [<- | Hd]; [exact Hc | apply Hno, Hd].
      * exact Hrest.
Qed.

(** X13.  [Parse] is idempotent, and a text with no blank, tab or hash is
    returned whole. *)
Theorem Parse_idempotent (input : string) :
  Parse (Parse input) = Parse input /\
  ((forall c, In c (list_ascii_of_string input) -> stops c = false) -> Parse input = input).
Proof.
  split.
  - induction input as [|c input IH]; [reflexivity|].
    rewrite Parse_cons. destruct (stops c) eqn:Hc; [reflexivity|].
    rewrite Parse_cons, Hc, IH. reflexivity.
  - induction input as [|c input IH]; intros H; [reflexivity|].
    rewrite Parse_cons. rewrite (H c) by (left; reflexivity).
    rewrite IH; [reflexivity|]. intros d Hd. apply H. right. exact Hd.
Qed.

(** X14.  [IsInVector] answers membership: it returns true exactly when the
    vector holds a string equal to the input (so false on an empty
    vector). *)
Theorem IsInVector_iff (input_ : string) (str_vector_ : list string) :
  IsInVector input_ str_vector_ = true <-> In input_ str_vector_.
Proof.
  induction str_vector_ as [|s rest IH]; cbn [IsInVector In].
  - split; [discriminate | contradiction].
  - destruct (String.eqb input_ s) eqn:E.
    + apply String.eqb_eq in E. split; auto.
    + apply String.eqb_neq in E. rewrite IH. split; [auto | intros [H | H]; congruence].
Qed.

End Text.

(** *** Numeric helpers *)

Section Numeric.
Import Support.

Lemma mul_m1_l v : (-1) * v = - v.
Proof.
  apply Prim2SF_inj. rewrite mul_spec, opp_spec.
  change (Prim2SF (-1)) with (S754_finite true 4503599627370496 (-52)).
  destruct (Prim2SF v) as [[]|[]| |s m e] eqn:E; try reflexivity.
  unfold SF64mul, SFmul, SFopp. rewrite xorb_true_l.
  replace (Z.pos (4503599627370496 * m)) with (Z.pos m * 2 ^ 52)%Z by lia.
  replace (-52 + e)%Z with (e - 52)%Z by lia.
  apply binary_round_aux_exact; [eapply valid_finite; eassumption | lia].
Qed.

(** X15.  [dabs] is the IEEE absolute value on every double but one: a
    negative zero is not below zero and comes back as it is, sign
    included. *)
Theorem dabs_is_abs_but_for_negative_zero (value : float) :
  dabs value = match Prim2SF value with
               | S754_zero true => value
               | _ => abs value
               end.
Proof.
  unfold dabs. rewrite ltb_spec. change (Prim2SF 0) with (S754_zero false).
  change (-1.0) with (-1). rewrite mul_m1_l.
  destruct (Prim2SF value) as [[]|[]| |[] m e] eqn:E; cbn;
    try reflexivity; apply Prim2SF_inj; rewrite ?opp_spec, abs_spec, E; reflexivity.
Qed.

(** Two doubles of which neither is NaN can be compared. *)
Lemma SFcompare_some a b :
  a <> S754_nan -> b <> S754_nan -> exists c, SFcompare a b = Some c.
Proof.
  intros Ha Hb. destruct a as [[]|[]| |[] ma ea], b as [[]|[]| |[] mb eb];
    try congruence; cbn; eauto.
Qed.

Lemma SFcompare_nan_l b : SFcompare S754_nan b = None.
Proof. reflexivity. Qed.

Lemma SFcompare_nan_r a : SFcompare a S754_nan = None.
Proof. destruct a as [[]|[]| |[] m e]; reflexivity. Qed.

(** Two doubles that are not NaN are one way or the other. *)
Lemma leb_or_gtb v1 v2 :
  Prim2SF v1 <> S754_nan -> Prim2SF v2 <> S754_nan ->
  ((v1 <=? v2) = true /\ (v2 <? v1) = false) \/
  ((v1 <=? v2) = false /\ (v2 <? v1) = true /\ (v2 <=? v1) = true).
Proof.
  intros H1 H2. rewrite !leb_spec, !ltb_spec. unfold SFleb, SFltb.
  rewrite (SFcompare_antisym (Prim2SF v1) (Prim2SF v2)).
  destruct (SFcompare_some _ _ H1 H2) as [c Hc]. rewrite Hc.
  destruct c; cbn; auto.
Qed.

Lemma nan_unordered v1 v2 :
  Prim2SF v1 = S754_nan \/ Prim2SF v2 = S754_nan ->
  (v1 <=? v2) = false /\ (v2 <? v1) = false.
Proof.
  rewrite leb_spec, ltb_spec. unfold SFleb, SFltb.
  intros [H | H]; rewrite H, ?SFcompare_nan_l, ?SFcompare_nan_r; auto.
Qed.

(** X16.  [min] and [max] on doubles.  When neither argument is NaN they
    return the two arguments, the one from [min] not above the one from
    [max]; when either argument is NaN both functions return their second
    argument. *)
Theorem min_max_order (v1 v2 : float) :
  (Prim2SF v1 <> S754_nan -> Prim2SF v2 <> S754_nan ->
     (min v1 v2 <=? max v1 v2) = true /\
     ((min v1 v2 = v1 /\ max v1 v2 = v2) \/ (min v1 v2 = v2 /\ max v1 v2 = v1))) /\
  (Prim2SF v1 = S754_nan \/ Prim2SF v2 = S754_nan ->
     min v1 v2 = v2 /\ max v1 v2 = v2).
Proof.
  unfold min, max, gtb. split.
  - intros H1 H2.
    destruct (leb_or_gtb v1 v2 H1 H2) as [[Hle Hgt] | (Hle & Hgt & Hge)]; rewrite Hle, Hgt; auto.
  - intros H. destruct (nan_unordered v1 v2 H) as [Hle Hgt]. rewrite Hle, Hgt. auto.
Qed.

(** **** [Order] *)

Lemma Order_up_more fuel : forall input_ output r k,
  Order_up fuel input_ output = Some r -> Order_up (fuel + k) input_ output = Some r.
Proof.
  induction fuel as [|fuel IH]; intros input_ output r k H; [discriminate|].
  cbn [Order_up Nat.add] in *. destruct (gtb (input_ / output) 1.0); [apply IH, H | exact H].
Qed.

Lemma Order_down_more fuel : forall input_ output r k,
  Order_down fuel input_ output = Some r -> Order_down (fuel + k) input_ output = Some r.
Proof.
  induction fuel as [|fuel IH]; intros input_ output r k H; [discriminate|].
  cbn [Order_down Nat.add] in *. destruct (input_ / output <? 1.0); [apply IH, H | exact H].
Qed.

(** No quotient by an infinity is above 1. *)
Lemma div_infinity_not_above_one v : gtb (v / infinity) 1.0 = false.
Proof.
  unfold gtb. rewrite ltb_spec, div_spec.
  change (Prim2SF infinity) with (S754_infinity false).
  destruct (Prim2SF v) as [[]|[]| |[] m e]; reflexivity.
Qed.

(** A quotient by [+0] of a double that is not negative is not below 1. *)
Lemma div_zero_not_below_one v : (v <? 0) = false -> (v / 0 <? 1.0) = false.
Proof.
  rewrite !ltb_spec, div_spec. change (Prim2SF 0) with (S754_zero false).
  destruct (Prim2SF v) as [[]|[]| |[] m e]; cbn; congruence.
Qed.

(** The upward loop ends at the latest when [output] has become infinite. *)
Lemma Order_up_ends n : forall input_ output,
  Nat.iter n (fun o => o * 10.0) output = infinity ->
  exists r, Order_up (S n) input_ output = Some r.
Proof.
  induction n as [|n IH]; intros input_ output H.
  - cbn in H. subst output. cbn [Order_up]. rewrite div_infinity_not_above_one. eauto.
  - rewrite Nat.iter_succ_r in H. cbn [Order_up].
    destruct (gtb (input_ / output) 1.0); [|eauto].
    apply (IH input_ (output * 10.0) H).
Qed.

(** The downward loop ends at the latest when [output] has become zero. *)
Lemma Order_down_ends n : forall input_ output,
  (input_ <? 0) = false ->
  Nat.iter n (fun o => o / 10.0) output = 0 ->
  exists r, Order_down (S n) input_ output = Some r.
Proof.
  induction n as [|n IH]; intros input_ output Hi H.
  - cbn in H. subst output. cbn [Order_down]. rewrite (div_zero_not_below_one _ Hi). eauto.
  - rewrite Nat.iter_succ_r in H. cbn [Order_down].
    destruct (input_ / output <? 1.0); [|eauto].
    apply (IH input_ (output / 10.0) Hi H).
Qed.

(** X17.  [Order] returns for every input that is not negative (zeros,
    infinity and NaN included): its loop ends within 325 evaluations of the
    loop condition, when [output] has overflowed to infinity or underflowed
    to zero at the latest. *)
Theorem Order_returns (input_ : float) :
  (input_ <? 0) = false ->
  exists r, forall fuel, (325 <= fuel)%nat -> Order fuel input_ = Some r.
Proof.
  intros Hi. unfold Order. destruct (gtb input_ 1.0).
  - destruct (Order_up_ends 309 input_ 1.0) as [r Hr]; [vm_compute; reflexivity|].
    exists r. intros fuel Hf. replace fuel with (310 + (fuel - 310))%nat by lia.
    apply Order_up_more, Hr.
  - destruct (Order_down_ends 324 input_ 1.0 Hi) as [r Hr]; [vm_compute; reflexivity|].
    exists r. intros fuel Hf. replace fuel with (325 + (fuel - 325))%nat by lia.
    apply Order_down_more, Hr.
Qed.

(** What [output] can be in the downward loop: [+0] or a positive finite
    double. *)
Definition shrinking (output : float) : bool :=
  match Prim2SF output with
  | S754_zero false | S754_finite false _ _ => true
  | _ => false
  end.

Lemma shrinking_iter k : shrinking (Nat.iter k (fun o => o / 10.0) 1.0) = true.
Proof.
  destruct (Nat.le_gt_cases k 324) as [Hk | Hk].
  - assert (H : forallb (fun k => shrinking (Nat.iter k (fun o => o / 10.0) 1.0)) (seq 0 325)
                = true) by (vm_compute; reflexivity).
    rewrite forallb_forall in H. apply H. apply in_seq. lia.
  - replace k with ((k - 324) + 324)%nat by lia. rewrite Nat.iter_add.
    replace (Nat.iter 324 (fun o => o / 10.0) 1.0) with 0 by (vm_compute; reflexivity).
    replace (Nat.iter (k - 324) (fun o => o / 10.0) 0) with 0; [reflexivity|].
    induction (k - 324)%nat as [|j IH]; [reflexivity|].
    change (0 = Nat.iter j (fun o => o / 10.0) 0 / 10.0). rewrite <- IH. reflexivity.
Qed.

(** A negative double divided by [+0] or by a positive finite double is
    below 1. *)
Lemma negative_quotient_below_one v o :
  (v <? 0) = true -> shrinking o = true -> (v / o <? 1.0) = true.
Proof.
  unfold shrinking. rewrite !ltb_spec, div_spec.
  change (Prim2SF 0) with (S754_zero false).
  change (Prim2SF 1.0) with (S754_finite false 4503599627370496 (-52)).
  destruct (Prim2SF v) as [[]|[]| |[] mv ev]; cbn; try discriminate; intros _;
    destruct (Prim2SF o) as [[]|[]| |[] mo eo]; try discriminate; intros _; try reflexivity.
  unfold SF64div, SFdiv.
  pose proof (SFdiv_core_binary_nonneg mv ev mo eo) as Hq.
  destruct (SFdiv_core_binary prec emax (Z.pos mv) ev (Z.pos mo) eo) as [[mz ez] lz].
  simpl in Hq. cbn [xorb].
  destruct (binary_round_aux_signed true mz ez lz Hq); reflexivity.
Qed.

Lemma Order_down_runs fuel : forall input_ k,
  (input_ <? 0) = true ->
  Order_down fuel input_ (Nat.iter k (fun o => o / 10.0) 1.0) = None.
Proof.
  induction fuel as [|fuel IH]; intros input_ k Hi; [reflexivity|].
  cbn [Order_down]. rewrite (negative_quotient_below_one _ _ Hi (shrinking_iter k)).
  apply (IH input_ (S k) Hi).
Qed.

(** X18.  [Order] does not return on a negative input (minus infinity
    included): the quotient [input_/output] stays below 1 while [output]
    shrinks to zero and from then on, so the loop condition holds however
    many times it is evaluated. *)
Theorem Order_negative_never_returns (input_ : float) :
  (input_ <? 0) = true -> forall fuel, Order fuel input_ = None.
Proof.
  intros Hi fuel. unfold Order.
  replace (gtb input_ 1.0) with false.
  - apply (Order_down_runs fuel input_ 0 Hi).
  - symmetry. unfold gtb. revert Hi. rewrite !ltb_spec.
    change (Prim2SF 0) with (S754_zero false).
    change (Prim2SF 1.0) with (S754_finite false 4503599627370496 (-52)).
    destruct (Prim2SF input_) as [[]|[]| |[] m e]; cbn; congruence.
Qed.

End Numeric.

Lemma Order_returns_witness :
  exists r, forall fuel, (325 <= fuel)%nat -> Support.Order fuel 250 = Some r.
Proof. apply (Order_returns 250). reflexivity. Defined.

Lemma Order_negative_never_returns_witness : Support.Order 1000 (-3) = None.
Proof. apply (Order_negative_never_returns (-3)). reflexivity. Defined.

Lemma min_max_order_witness :
  (Support.min 3 (-2) <=? Support.max 3 (-2)) = true /\
  ((Support.min 3 (-2) = 3 /\ Support.max 3 (-2) = (-2)%float) \/
   (Support.min 3 (-2) = (-2)%float /\ Support.max 3 (-2) = 3)) /\
  Support.min nan 1 = 1 /\ Support.max nan 1 = 1.
Proof.
  split; [|split].
  - apply (proj1 (min_max_order 3 (-2))); vm_compute; discriminate.
  - apply (proj1 (min_max_order 3 (-2))); vm_compute; discriminate.
  - apply (proj2 (min_max_order nan 1)). left. reflexivity.
Defined.

(** *** Table look-up *)

Section TableLookup.
Import Support.

Lemma leb_not_ltb a b : (a <=? b) = true -> (b <? a) = false.
Proof.
  rewrite leb_spec, ltb_spec. unfold SFleb, SFltb.
  rewrite (SFcompare_antisym (Prim2SF a) (Prim2SF b)).
  destruct (SFcompare (Prim2SF a) (Prim2SF b)) as [[]|]; cbn; congruence.
Qed.

Lemma ltb_not_leb a b : (a <? b) = true -> (b <=? a) = false.
Proof.
  rewrite leb_spec, ltb_spec. unfold SFleb, SFltb.
  rewrite (SFcompare_antisym (Prim2SF a) (Prim2SF b)).
  destruct (SFcompare (Prim2SF a) (Prim2SF b)) as [[]|]; cbn; congruence.
Qed.

Lemma Interpolate_loop_none x x_ y_ k : forall i,
  (forall j, (i <= j < i + k)%nat ->
     geb x (ADist.load x_ (j - 1)) = false \/ (x <? ADist.load x_ j) = false) ->
  Interpolate_loop x x_ y_ k i = None.
Proof.
  induction k as [|k IH]; intros i H; [reflexivity|].
  cbn [Interpolate_loop].
  destruct (H i ltac:(lia)) as [E | E]; rewrite E, ?andb_false_r; cbn [andb];
    apply IH; intros j Hj; apply H; lia.
Qed.

Lemma Interpolate_array_outside (x y : float) (x_ y_ : list float) (len_ : nat) :
  (forall i, (i < len_)%nat -> (ADist.load x_ i <=? x) = true) \/
  (forall i, (i < len_)%nat -> (x <? ADist.load x_ i) = true) \/
  Prim2SF x = S754_nan \/ (len_ <= 1)%nat ->
  Interpolate_array x y x_ y_ len_ = (false, y).
Proof.
  intros H. unfold Interpolate_array.
  rewrite Interpolate_loop_none; [reflexivity|].
  intros j Hj. destruct H as [H | [H | [H | H]]].
  - right. apply leb_not_ltb, H. lia.
  - left. unfold geb. apply ltb_not_leb, H. lia.
  - right. rewrite ltb_spec, H. reflexivity.
  - lia.
Qed.

(** X19.  The array overload of [Interpolate] never extrapolates.  When
    [x] is at or above every abscissa of the table (the last point of an
    increasing table, for one), or below every abscissa, or NaN, or when the
    table has fewer than two points, it returns false and leaves [y] as it
    was. *)
Theorem Interpolate_never_extrapolates (x y : float) (x_ y_ : list float) (len_ : nat) :
  (forall i, (i < len_)%nat -> (ADist.load x_ i <=? x) = true) \/
  (forall i, (i < len_)%nat -> (x <? ADist.load x_ i) = true) \/
  Prim2SF x = S754_nan \/ (len_ <= 1)%nat ->
  Interpolate_array x y x_ y_ len_ = (false, y).
Proof. exact (Interpolate_array_outside x y x_ y_ len_). Qed.

End TableLookup.

(** The last point of a table is not interpolated. *)
Lemma Interpolate_never_extrapolates_witness :
  Support.Interpolate_array 3 (-9999) [0; 1; 2; 3] [0; 10; 20; 30] 4 = (false, (-9999)%float).
Proof.
  apply Interpolate_never_extrapolates. left. intros i Hi.
  do 4 (destruct i as [|i]; [reflexivity|]). lia.
Defined.

Section Converter.
Import Conv.

(** X20.  [comConverter] answers -9999 for what it cannot convert: an
    angle at or above every tabulated centre-of-mass angle (the last row of
    an increasing table included), or below them all, gets -9999 from both
    conversions; and after a [load] that returned false (a file that cannot
    be read, or one with no row) the table is empty, so every angle does. *)
Theorem convert_outside_table_gives_sentinel :
  (forall (c : comConverter) (com_ : float),
     (forall i, (i < length c)%nat -> (ADist.load (com c) i <=? com_) = true) \/
     (forall i, (i < length c)%nat -> (com_ <? ADist.load (com c) i) = true) ->
     convertEject2lab c com_ = (-9999)%float /\ convertRecoil2lab c com_ = (-9999)%float) /\
  (forall (c : comConverter) (file : File3),
     fst (load c file) = false ->
     snd (load c file) = new /\
     forall com_, convertEject2lab (snd (load c file)) com_ = (-9999)%float /\
                  convertRecoil2lab (snd (load c file)) com_ = (-9999)%float).
Proof.
  split.
  - intros c com_ H. unfold convertEject2lab, convertRecoil2lab.
    rewrite !Interpolate_array_outside by tauto. split; reflexivity.
  - intros c file Hf. destruct file as [[|row rows]|]; cbn in Hf; try discriminate;
      (split; [reflexivity|]); intros com_; split; reflexivity.
Qed.

End Converter.

(** The last angle of a three-row table. *)
Lemma convert_outside_table_gives_sentinel_witness :
  let c := snd (Conv.load Conv.new (Some [(0, 0, 180); (1, 2, 170); (2, 4, 160)])) in
  Conv.convertEject2lab c 2 = (-9999)%float /\ Conv.convertRecoil2lab c 2 = (-9999)%float.
Proof.
  apply (proj1 convert_outside_table_gives_sentinel). left. intros i Hi.
  do 3 (destruct i as [|i]; [reflexivity|]). cbn in Hi. lia.
Defined.

(** *** More on the angular distribution *)

Section DistributionState.
Import ADist Calls.
Variable sin : float -> float.

Lemma copy_loop_length xvec : forall yvec index theta dsig,
  List.length (fst (copy_loop xvec yvec index (theta, dsig))) = List.length theta /\
  List.length (snd (copy_loop xvec yvec index (theta, dsig))) = List.length dsig.
Proof.
  induction xvec as [|xv xs IH]; intros yvec index theta dsig; [split; reflexivity|].
  destruct yvec as [|yv ys]; [split; reflexivity|].
  cbn [copy_loop]. destruct (IH ys (S index) (store theta index (xv * deg2rad))
                               (store dsig index yv)) as [H1 H2].
  rewrite H1, H2, !store_length. split; reflexivity.
Qed.

Lemma fill_loop_length angle_ xsection_ k : forall i theta dsig,
  List.length (fst (fill_loop angle_ xsection_ k i (theta, dsig))) = List.length theta /\
  List.length (snd (fill_loop angle_ xsection_ k i (theta, dsig))) = List.length dsig.
Proof.
  induction k as [|k IH]; intros i theta dsig; [split; reflexivity|].
  cbn [fill_loop]. destruct (IH (S i) (store theta i (load angle_ i * deg2rad))
                               (store dsig i (load xsection_ i))) as [H1 H2].
  rewrite H1, H2, !store_length. split; reflexivity.
Qed.

Lemma integrate_loop_length theta dsig k : forall i xsec integ,
  List.length (snd (integrate_loop sin theta dsig k i (xsec, integ))) = List.length integ.
Proof.
  induction k as [|k IH]; intros i xsec integ; [reflexivity|].
  cbn [integrate_loop]. rewrite IH, store_length. reflexivity.
Qed.

(** The three arrays are allocated, each with [num_points] entries. *)
Definition allocated (a : AngularDist) : Prop :=
  exists theta dsig integ,
    com_theta a = Some theta /\ dsigma_domega a = Some dsig /\ integral a = Some integ /\
    List.length theta = Z.to_nat (num_points a) /\
    List.length dsig = Z.to_nat (num_points a) /\
    List.length integ = Z.to_nat (num_points a).

(** What every sequence of [Initialize] calls keeps true of the object. *)
Definition consistent (a : AngularDist) : Prop :=
  (init a = false ->
     com_theta a = None /\ dsigma_domega a = None /\ integral a = None /\
     (num_points a <= 1)%Z) /\
  (init a = true -> (2 <= num_points a)%Z -> allocated a).

Lemma call_consistent a c : consistent a -> consistent (snd (call sin a c)).
Proof.
  intros H. destruct (init a) eqn:E.
  - rewrite (call_on_initialized sin a c E). exact H.
  - destruct H as [Hu _]. destruct (Hu E) as (N1 & N2 & N3 & Hn).
    destruct c as [junk [data|] b t | junk n an xs b t | xs_]; cbn [call].
    + unfold Initialize_file. rewrite E.
      destruct (read_loop data ([], [], num_points a)) as [[xvec yvec] n].
      destruct (1 <? n)%Z eqn:H1.
      * pose proof (copy_loop_length xvec yvec 0 (alloc junk 0 (Z.to_nat n))
                      (alloc junk 1 (Z.to_nat n))) as [L1 L2].
        destruct (copy_loop xvec yvec 0 _) as [theta dsig]. cbn [fst snd] in L1, L2.
        pose proof (integrate_loop_length theta dsig (Z.to_nat (uint (n - 1))) 0 0.0
                      (store (alloc junk 2 (Z.to_nat n)) 0 0.0)) as L3.
        destruct (integrate_loop sin theta dsig _ _ _) as [xsec integ]. cbn [snd] in L3.
        cbn [snd]. split; [discriminate|]. intros _ _.
        exists theta, dsig, integ. cbn.
        rewrite store_length in L3. rewrite alloc_length in L1, L2, L3. auto 10.
      * cbn [snd]. apply Z.ltb_ge in H1. split; [|cbn; congruence].
        intros _. cbn. auto.
    + unfold Initialize_file. rewrite E. cbn [snd]. split; [auto | congruence].
    + unfold Initialize_array. rewrite E. cbn [orb].
      destruct (n <=? 1)%Z; [cbn [snd]; split; [auto | congruence]|].
      pose proof (fill_loop_length an xs (Z.to_nat n) 0 (alloc junk 0 (Z.to_nat n))
                    (alloc junk 1 (Z.to_nat n))) as [L1 L2].
      destruct (fill_loop an xs (Z.to_nat n) 0 _) as [theta dsig]. cbn [fst snd] in L1, L2.
      pose proof (integrate_loop_length theta dsig (Z.to_nat (uint (n - 1))) 0 0.0
                    (store (alloc junk 2 (Z.to_nat n)) 0 0.0)) as L3.
      destruct (integrate_loop sin theta dsig _ _ _) as [xsec integ]. cbn [snd] in L3.
      cbn [snd]. split; [discriminate|]. intros _ _.
      exists theta, dsig, integ. cbn.
      rewrite store_length in L3. rewrite alloc_length in L1, L2, L3. auto 10.
    + unfold Initialize_iso. rewrite E. cbn [orb].
      destruct (xs_ <=? 0.0); cbn [snd]; [split; [auto | congruence]|].
      split; [discriminate|]. cbn. intros _ H. lia.
Qed.

Lemma run_consistent cs : forall a, consistent a -> consistent (run sin a cs).
Proof.
  induction cs as [|c cs IH]; intros a H; [exact H|].
  cbn [run fold_left]. apply IH, call_consistent, H.
Qed.

(** X21.  The loop of [Sample] reads [integral] and [com_theta] at the
    indices [0 .. num_points-1], and only when the object is initialized
    with at least two points.  Whatever [Initialize] calls a freshly
    constructed object has been through, failed ones included, the arrays
    are then allocated with exactly [num_points] entries each; and an object
    that is not initialized holds no array and a count of at most 1. *)
Theorem Sample_reads_allocated_arrays (rate0 : float) (cs : list InitCall) :
  let a := run sin (new rate0) cs in
  (init a = true -> (2 <= num_points a)%Z ->
     exists theta dsig integ,
       com_theta a = Some theta /\ dsigma_domega a = Some dsig /\ integral a = Some integ /\
       List.length theta = Z.to_nat (num_points a) /\
       List.length dsig = Z.to_nat (num_points a) /\
       List.length integ = Z.to_nat (num_points a)) /\
  (init a = false ->
     com_theta a = None /\ dsigma_domega a = None /\ integral a = None /\
     (num_points a <= 1)%Z).
Proof.
  intros a. assert (H : consistent a).
  { apply run_consistent. split; [cbn; intros _; repeat split; lia | discriminate]. }
  destruct H as [Hu Hi]. split; [exact Hi | exact Hu].
Qed.

(** X22.  A call of [Initialize] that returns false changes at most the
    member [num_points], and changes that only in the file overload, when
    the object is not initialized and the file delivers at least one pair:
    every other failing call leaves the object exactly as it was. *)
Theorem failed_Initialize_frame (a : AngularDist) (c : InitCall) (a' : AngularDist) :
  call sin a c = (false, a') ->
  com_theta a' = com_theta a /\ dsigma_domega a' = dsigma_domega a /\
  integral a' = integral a /\ reaction_xsection a' = reaction_xsection a /\
  rate a' = rate a /\ init a' = init a /\
  ((forall junk data b t, c = InitFile junk (Some data) b t -> init a = false -> data = []) ->
   a' = a).
Proof.
  intros H. pose proof (failed_call_frame sin a c a' H) as Hframe.
  assert (Hsame : a' = a -> com_theta a' = com_theta a /\ dsigma_domega a' = dsigma_domega a /\
            integral a' = integral a /\ reaction_xsection a' = reaction_xsection a /\
            rate a' = rate a /\ init a' = init a) by (intros ->; auto 10).
  cut (com_theta a' = com_theta a /\ dsigma_domega a' = dsigma_domega a /\
       integral a' = integral a /\ reaction_xsection a' = reaction_xsection a /\
       rate a' = rate a /\ init a' = init a); [tauto|].
  clear Hframe.
  destruct c as [junk [data|] b t | junk n an xs b t | xs_]; cbn [call] in H.
  - unfold Initialize_file in H. destruct (init a) eqn:E; [inversion H; subst; auto 10|].
    destruct (read_loop data ([], [], num_points a)) as [[xvec yvec] n].
    destruct (1 <? n)%Z.
    + destruct (copy_loop _ _ _ _) as [theta dsig].
      destruct (integrate_loop _ _ _ _ _ _) as [xsec integ]. discriminate.
    + inversion H. cbn. auto 10.
  - unfold Initialize_file in H. destruct (init a) eqn:E; inversion H; subst; auto 10.
  - unfold Initialize_array in H. destruct (init a || (n <=? 1)%Z)%bool.
    + inversion H; auto 10.
    + destruct (fill_loop _ _ _ _ _) as [theta dsig].
      destruct (integrate_loop _ _ _ _ _ _) as [xsec integ]. discriminate.
  - unfold Initialize_iso in H. destruct (init a || (xs_ <=? 0.0))%bool.
    + inversion H; auto 10.
    + discriminate.
Qed.

(** X23.  On a freshly constructed object the two tabulated overloads of
    [Initialize] agree on everything but the rate: given the same table,
    the array overload succeeds whenever the file overload does, and they
    store the same arrays, the same reaction cross-section and the same
    number of points; with no target both rates are 0, and with a target
    the file overload multiplies the cross-section by 1e-27 where the
    array overload does not. *)
Theorem tabulated_overloads_agree_but_for_rate (junk : nat -> nat -> float) (rate0 : float)
  (data : list (float * float)) (b : float) (t : option Target) (af : AngularDist) :
  (Z.of_nat (List.length data) < 2 ^ 32)%Z ->
  Initialize_file sin junk (new rate0) (Some data) b t = (true, af) ->
  exists aa,
    Initialize_array sin junk (new rate0) (Z.of_nat (List.length data))
      (map fst data) (map snd data) b t = (true, aa) /\
    com_theta af = com_theta aa /\ dsigma_domega af = dsigma_domega aa /\
    integral af = integral aa /\ reaction_xsection af = reaction_xsection aa /\
    num_points af = num_points aa /\ init af = init aa /\
    rate af = match t with
              | Some t => reaction_xsection af * 1e-27 * b * GetNumberDensity t
              | None => 0
              end /\
    rate aa = match t with
              | Some t => reaction_xsection aa * b * GetNumberDensity t
              | None => 0
              end.
Proof. exact (overloads_agree_up_to_rate sin junk rate0 data b t af). Qed.

(** X24.  [Sample] can return NaN.  When the first bin of the cumulative
    integral is empty ([integral[0]] and [integral[1]] are the same finite
    number) and the draw falls on it, the interpolation divides zero by
    zero: the value returned is NaN, neither an angle nor the failure value
    -1.  A table whose cross-sections are all zero does this on every
    draw. *)
Theorem Sample_empty_bin_gives_nan (a : AngularDist) (frand : float) :
  init a = true -> (2 <= num_points a < 2 ^ 32)%Z ->
  is_finite (frand * reaction_xsection a) = true ->
  deref (integral a) 0 = frand * reaction_xsection a ->
  deref (integral a) 1 = frand * reaction_xsection a ->
  Prim2SF (Sample a frand) = S754_nan.
Proof.
  intros Hi Hn Hf H0 H1. unfold Sample. rewrite Hi. cbn [negb].
  replace (0 <? num_points a)%Z with true by (symmetry; apply Z.ltb_lt; lia).
  unfold uint. rewrite Z.mod_small by lia.
  destruct (Z.to_nat (num_points a - 1)) as [|k] eqn:Ek; [lia|].
  cbn [search_loop]. change (0 + 1)%nat with 1%nat. rewrite H0, H1.
  set (r := frand * reaction_xsection a) in *.
  assert (Hnn : Prim2SF r <> S754_nan).
  { rewrite is_finite_spec in Hf. destruct (Prim2SF r); cbn in Hf; congruence. }
  rewrite (leb_refl r Hnn). cbn [andb]. rewrite (sub_diag_finite r Hf).
  rewrite add_spec, div_spec, mul_spec. change (Prim2SF 0) with (S754_zero false).
  destruct (Prim2SF (deref (com_theta a) 1 - deref (com_theta a) 0)) as [[]|[]| |[] m e];
    destruct (Prim2SF (deref (com_theta a) 0)) as [[]|[]| |[] m0 e0]; reflexivity.
Qed.

End DistributionState.

(** A one-point array, refused by the array overload. *)
Lemma failed_Initialize_frame_witness :
  let a := ADist.new 0 in
  let a' := snd (Calls.call sin_poly a (Calls.InitArray (fun _ _ => 0) 1 [45] [1] 0 None)) in
  ADist.com_theta a' = ADist.com_theta a /\ ADist.dsigma_domega a' = ADist.dsigma_domega a /\
  ADist.integral a' = ADist.integral a /\
  ADist.reaction_xsection a' = ADist.reaction_xsection a /\
  ADist.rate a' = ADist.rate a /\ ADist.init a' = ADist.init a /\
  ((forall junk data b t,
      Calls.InitArray (fun _ _ => 0) 1 [45] [1] 0 None = Calls.InitFile junk (Some data) b t ->
      ADist.init a = false -> data = []) ->
   a' = a).
Proof.
  apply (failed_Initialize_frame sin_poly (ADist.new 0)
           (Calls.InitArray (fun _ _ => 0) 1 [45] [1] 0 None)).
  reflexivity.
Defined.

(** A two-point table with a target. *)
Lemma tabulated_overloads_agree_but_for_rate_witness :
  let t := Some (ADist.mkTarget 2) in
  let af := snd (ADist.Initialize_file sin_poly (fun _ _ => 0) (ADist.new 0)
                   (Some [(0, 1); (90, 1)]) 3 t) in
  exists aa,
    ADist.Initialize_array sin_poly (fun _ _ => 0) (ADist.new 0) 2 [0; 90] [1; 1] 3 t
      = (true, aa) /\
    ADist.com_theta af = ADist.com_theta aa /\
    ADist.dsigma_domega af = ADist.dsigma_domega aa /\
    ADist.integral af = ADist.integral aa /\
    ADist.reaction_xsection af = ADist.reaction_xsection aa /\
    ADist.num_points af = ADist.num_points aa /\ ADist.init af = ADist.init aa /\
    ADist.rate af = ADist.reaction_xsection af * 1e-27 * 3 * 2 /\
    ADist.rate aa = ADist.reaction_xsection aa * 3 * 2.
Proof.
  apply (tabulated_overloads_agree_but_for_rate sin_poly (fun _ _ => 0) 0
           [(0, 1); (90, 1)] 3 (Some (ADist.mkTarget 2))).
  - simpl. lia.
  - vm_compute. reflexivity.
Defined.

(** A table of three angles whose cross-sections are all zero: the load
    succeeds, and a draw of 0.5 comes back as NaN. *)
Lemma Sample_empty_bin_gives_nan_witness :
  let a := snd (ADist.Initialize_array sin_poly (fun _ _ => 0) (ADist.new 0)
                  3 [0; 10; 20] [0; 0; 0] 0 None) in
  Prim2SF (ADist.Sample a 0.5) = S754_nan.
Proof.
  apply Sample_empty_bin_gives_nan.
  - reflexivity.
  - vm_compute. split; [discriminate | reflexivity].
  - vm_compute. reflexivity.
  - vm_compute. reflexivity.
  - vm_compute. reflexivity.
Defined.

(** A file with one pair, then a file with one more, then an isotropic
    cross-section: the second load succeeds with a count of two. *)
Lemma Sample_reads_allocated_arrays_witness :
  let a := Calls.run sin_poly (ADist.new 0)
             [ Calls.InitFile (fun _ _ => 0) (Some [(0, 1)]) 0 None;
               Calls.InitFile (fun _ _ => 0) (Some [(90, 1)]) 0 None;
               Calls.InitIso 2.5 ] in
  ADist.init a = true /\ ADist.num_points a = 2%Z /\
  exists theta dsig integ,
    ADist.com_theta a = Some theta /\ ADist.dsigma_domega a = Some dsig /\
    ADist.integral a = Some integ /\
    List.length theta = Z.to_nat (ADist.num_points a) /\
    List.length dsig = Z.to_nat (ADist.num_points a) /\
    List.length integ = Z.to_nat (ADist.num_points a).
Proof.
  split; [reflexivity|]. split; [reflexivity|].
  apply (proj1 (Sample_reads_allocated_arrays sin_poly 0
                  [ Calls.InitFile (fun _ _ => 0) (Some [(0, 1)]) 0 None;
                    Calls.InitFile (fun _ _ => 0) (Some [(90, 1)]) 0 None;
                    Calls.InitIso 2.5 ])).
  - reflexivity.
  - vm_compute. discriminate.
Defined.

(** *** Distances *)

Section Distances.
Import Prim.

(** The square of a double does not depend on its sign. *)
Lemma SFmul_opp_opp r : SFmul prec emax (SFopp r) (SFopp r) = SFmul prec emax r r.
Proof. destruct r as [[]|[]| |[] m e]; reflexivity. Qed.

Lemma binary_round_opp s m e :
  binary_round prec emax (negb s) m e = SFopp (binary_round prec emax s m e).
Proof.
  unfold binary_round.
  destruct (shl_align m e (fexp prec emax (Z.pos (digits2_pos m) + e))) as [mz ez].
  apply binary_round_aux_opp.
Qed.

Lemma binary_normalize_opp z e :
  binary_normalize prec emax (- z) e false = SFopp (binary_normalize prec emax z e false) \/
  (z = 0%Z).
Proof.
  destruct z as [|q|q]; [right; reflexivity| |]; left; cbn [Z.opp binary_normalize].
  - exact (binary_round_opp false q e).
  - exact (binary_round_opp true q e).
Qed.

Lemma cond_Zopp_negb s z : cond_Zopp (negb s) z = (- cond_Zopp s z)%Z.
Proof. destruct s; cbn; lia. Qed.

(** [b - a] is [-(a - b)], or both are [+0]. *)
Lemma SFsub_swap a b :
  SFsub prec emax b a = SFopp (SFsub prec emax a b) \/
  (SFsub prec emax b a = S754_zero false /\ SFsub prec emax a b = S754_zero false).
Proof.
  destruct a as [sa|sa| |sa ma ea], b as [sb|sb| |sb mb eb];
    try (left; reflexivity);
    try (destruct sa, sb; cbn; auto; fail);
    try (destruct sa; cbn; auto; fail);
    try (destruct sb; cbn; auto; fail).
  unfold SFsub. rewrite (Z.min_comm eb ea).
  set (ez := Z.min ea eb).
  set (A := cond_Zopp sa (Z.pos (fst (shl_align ma ea ez)))).
  set (B := cond_Zopp sb (Z.pos (fst (shl_align mb eb ez)))).
  replace (B - A)%Z with (- (A - B))%Z by lia.
  destruct (binary_normalize_opp (A - B) ez) as [H | H]; [left; exact H|].
  right. rewrite H. split; reflexivity.
Qed.

Lemma sq_sub_swap a b : (b - a) * (b - a) = (a - b) * (a - b).
Proof.
  apply Prim2SF_inj. rewrite !mul_spec, !sub_spec. unfold SF64mul, SF64sub.
  destruct (SFsub_swap (Prim2SF a) (Prim2SF b)) as [H | [H1 H2]].
  - rewrite H. apply SFmul_opp_opp.
  - rewrite H1, H2. reflexivity.
Qed.

Lemma Dist3d_swap v1 v2 : Dist3d v1 v2 = Dist3d v2 v1.
Proof.
  unfold Dist3d, Length, sub. cbn [x y z].
  rewrite (sq_sub_swap (x v1) (x v2)), (sq_sub_swap (y v1) (y v2)), (sq_sub_swap (z v1) (z v2)).
  reflexivity.
Qed.

(** X25.  Distances do not depend on the order of the points, to the last
    bit: [Dist3d(v1, v2)] and [Dist3d(v2, v1)] are the same double, and so
    [GetApparentThickness] returns the same value when its two faces are
    exchanged. *)
Theorem Dist3d_symmetric :
  (forall v1 v2 : Vector3, Dist3d v1 v2 = Dist3d v2 v1) /\
  (forall (p : Primitive) (offset_ direction_ : Vector3) (f1 f2 : nat) (i1 i2 j1 j2 : Vector3),
     snd (fst (fst (GetApparentThickness p offset_ direction_ f1 f2 i1 i2))) =
     snd (fst (fst (GetApparentThickness p offset_ direction_ f2 f1 j1 j2)))).
Proof.
  split; [exact Dist3d_swap|].
  intros p offset_ direction_ f1 f2 i1 i2 j1 j2. rewrite !GetApparentThickness_struck.
  rewrite (Dist3d_swap (crossing (refresh p) offset_ direction_ f1)).
  destruct (f1 <=? 5)%nat, (f2 <=? 5)%nat,
    (face_struck (refresh p) offset_ direction_ f1),
    (face_struck (refresh p) offset_ direction_ f2); reflexivity.
Qed.

End Distances.

(** *** Interpolation between two points *)

Section TwoPoints.
Import Support.

(** X26.  The two-point form of [Interpolate].  At [x = x1] it returns a
    double equal to [y1], provided [x1] is finite, [y1] is not NaN and the
    slope [(y2-y1)/(x2-x1)] is finite; when the two abscissae are the same
    finite number, the slope is a quotient by zero and the value returned is
    never finite, whatever [x] is. *)
Theorem Interpolate_two_points (x1 y1 x2 y2 : float) :
  (is_finite x1 = true -> is_finite ((y2 - y1) / (x2 - x1)) = true ->
   Prim2SF y1 <> S754_nan ->
   (Interpolate x1 y1 x2 y2 x1 =? y1) = true) /\
  (is_finite x1 = true -> x2 = x1 ->
   forall x, is_finite (Interpolate x1 y1 x2 y2 x) = false).
Proof.
  unfold Interpolate. split.
  - intros Fx Fs Hy. rewrite (sub_diag_finite x1 Fx).
    rewrite FloatAxioms.eqb_spec, add_spec, mul_spec.
    change (Prim2SF 0) with (S754_zero false).
    rewrite is_finite_spec in Fs. apply negb_true_iff in Fs.
    destruct (Prim2SF ((y2 - y1) / (x2 - x1))) as [[]|[]| |[] ms es]; try discriminate;
      destruct (Prim2SF y1) as [[]|[]| |[] my ey]; try congruence; cbn;
      rewrite ?Z.compare_refl;
      try change (PosDef.Pos.compare_cont Eq my my) with (Pos.compare my my);
      rewrite ?Pos.compare_refl; reflexivity.
  - intros Fx -> x0. rewrite (sub_diag_finite x1 Fx).
    rewrite is_finite_spec. apply negb_false_iff.
    apply add_nonfinite_l, mul_nonfinite_l, div_by_zero_nonfinite. reflexivity.
Qed.

End TwoPoints.

Lemma Interpolate_two_points_witness :
  (Support.Interpolate 1 10 3 50 1 =? 10) = true /\
  is_finite (Support.Interpolate 2 10 2 50 7) = false.
Proof.
  split.
  - apply (proj1 (Interpolate_two_points 1 10 3 50)); [reflexivity | reflexivity |].
    vm_compute. discriminate.
  - apply (proj2 (Interpolate_two_points 2 10 2 50)); reflexivity.
Defined.
